(** * doc-ocr-scanner: the text-and-table extraction pipeline

    A shallow embedding of [search_utils.py], [ocr_utils.py], the
    document loop and the search terms of [general_utils.py], the keyword
    normalization of [main.py], [save_results_if_any] of [excel_utils.py]
    and [get_files_name] of [image_utils.py]; the properties of the
    specification that concern them, and further properties of the code.

    Conventions of the embedding.
    - A Python [str] is a [string] holding one code point per character;
      the code points are those below 256 (Latin-1), so ['ú'] is the single
      character 250.  Case mapping, whitespace and word characters follow
      Python's Unicode tables restricted to that range.
    - A Python [float] is a binary64 value ([PrimFloat.float]).
    - [None] is [None] of an [option]; a [dict] is a [gmap]; a [set] is a
      [gset].
    - A compiled regular expression is a syntax tree ([Re.regex]); matching
      is the backtracking, leftmost, greedy search of Python's [re].
    - Calls into external engines (Camelot, Tabula, PyMuPDF, reportlab) are
      fields of a record of functions that return a value or raise.
    - The values of a result dict and the cells of a table are strings (or
      [None]); a custom pattern has one capturing group, so that
      [re.findall] lists strings. *)

From Stdlib Require Import ZArith NArith Ascii String List Bool Lia Floats.
From stdpp Require Import base option list gmap strings.

Set Default Proof Using "Type".
(* A decimal float literal stands for the nearest binary64 number. *)
Set Warnings "-inexact-float".
Local Open Scope string_scope.
Local Open Scope list_scope.
Local Open Scope nat_scope.

(** ** Python strings *)

Module PyStr.

Definition code (c : ascii) : nat := nat_of_ascii c.

Definition chr (n : nat) : ascii := ascii_of_nat n.

Definition in_range (lo hi : nat) (c : ascii) : bool :=
  (lo <=? code c) && (code c <=? hi).

(** [str.isspace] on one character: TAB..CR, FS..US, space, NEL, NBSP. *)
Definition is_space (c : ascii) : bool :=
  in_range 9 13 c || in_range 28 32 c || (code c =? 133) || (code c =? 160).

(** Decimal digits (category Nd): below 256 only the ASCII ones. *)
Definition is_digit (c : ascii) : bool := in_range 48 57 c.

(** Characters that [str.lower] changes: A-Z and the Latin-1 capitals. *)
Definition is_upper (c : ascii) : bool :=
  in_range 65 90 c || in_range 192 214 c || in_range 216 222 c.

Definition lower_chr (c : ascii) : ascii :=
  if is_upper c then chr (code c + 32) else c.

(** The capital a lowercase letter comes from, when it has one below 256. *)
Definition upper_chr (c : ascii) : ascii :=
  if in_range 97 122 c || in_range 224 246 c || in_range 248 254 c
  then chr (code c - 32) else c.

Definition is_alpha (c : ascii) : bool :=
  in_range 65 90 c || in_range 97 122 c
  || (code c =? 170) || (code c =? 181) || (code c =? 186)
  || in_range 192 214 c || in_range 216 246 c || in_range 248 255 c.

(** [str.isalnum]: letters, digits and the numeric characters
    (superscripts 2, 3, 1 and the vulgar fractions). *)
Definition is_alnum (c : ascii) : bool :=
  is_alpha c || is_digit c
  || (code c =? 178) || (code c =? 179) || (code c =? 185) || in_range 188 190 c.

(** [\w]. *)
Definition is_word (c : ascii) : bool := is_alnum c || (code c =? 95).

(** [s.lower()] *)
Fixpoint lower (s : string) : string :=
  match s with
  | EmptyString => EmptyString
  | String c s' => String (lower_chr c) (lower s')
  end.

Fixpoint lstrip (s : string) : string :=
  match s with
  | String c s' => if is_space c then lstrip s' else s
  | EmptyString => EmptyString
  end.

(** Drops the trailing whitespace: a character stays when something that
    is not whitespace follows it or it is not whitespace itself. *)
Fixpoint rstrip (s : string) : string :=
  match s with
  | EmptyString => EmptyString
  | String c s' =>
      match rstrip s' with
      | EmptyString => if is_space c then EmptyString else String c EmptyString
      | r => String c r
      end
  end.

(** [s.strip()] *)
Definition strip (s : string) : string := rstrip (lstrip s).

(** [c in s] for a one-character [c]. *)
Fixpoint has_chr (c : ascii) (s : string) : bool :=
  match s with
  | EmptyString => false
  | String x s' => if Ascii.eqb x c then true else has_chr c s'
  end.

(** [s.replace(c, by)] for a one-character [c]. *)
Fixpoint replace_chr (c : ascii) (by_ : string) (s : string) : string :=
  match s with
  | EmptyString => EmptyString
  | String x s' =>
      if Ascii.eqb x c then by_ +:+ replace_chr c by_ s'
      else String x (replace_chr c by_ s')
  end.

Fixpoint starts_with (p s : string) : bool :=
  match p, s with
  | EmptyString, _ => true
  | String a p', String b s' => Ascii.eqb a b && starts_with p' s'
  | String _ _, EmptyString => false
  end.

(** [needle in hay] *)
Fixpoint contains (needle hay : string) : bool :=
  starts_with needle hay ||
  match hay with
  | EmptyString => false
  | String _ hay' => contains needle hay'
  end.

(** Truth value of a [str]: non-empty. *)
Definition truthy (s : string) : bool :=
  match s with EmptyString => false | String _ _ => true end.

(** Truth value of an optional [str] ([None] and the empty string are false). *)
Definition otruthy (o : option string) : bool :=
  match o with Some s => truthy s | None => false end.

(** The first [n] characters. *)
Fixpoint take (n : nat) (s : string) : string :=
  match n, s with
  | S n', String c s' => String c (take n' s')
  | _, _ => EmptyString
  end.

(** [sep.join(l)] *)
Fixpoint join (sep : string) (l : list string) : string :=
  match l with
  | [] => EmptyString
  | [x] => x
  | x :: l' => x +:+ sep +:+ join sep l'
  end.

End PyStr.

(** ** Regular expressions: the part of Python's [re] the scanner uses *)

Module Re.
Import PyStr.

(** [re.IGNORECASE] and [re.DOTALL]. *)
Record flags : Type := Flags { ignorecase : bool; dotall : bool }.

Definition NOFLAGS : flags := Flags false false.
Definition IGNORECASE : flags := Flags true false.
Definition IGNORECASE_DOTALL : flags := Flags true true.

Inductive category : Type := CatSpace | CatDigit | CatWord.

(** The members of a character set [[...]]. *)
Inductive citem : Type :=
  | CChr (c : ascii)
  | CRange (lo hi : ascii)
  | CCat (neg : bool) (k : category).

Inductive regex : Type :=
  | Eps
  | Lit (c : ascii)
  | Dot
  | CSet (neg : bool) (items : list citem)
  | Seq (r1 r2 : regex)
  | Alt (r1 r2 : regex)
  | Rep (r : regex) (lo : nat) (hi : option nat) (greedy : bool)
  | Grp (r : regex)
  | WordB (neg : bool)
  | Bos
  | Eos.

(** The usual quantifiers. *)
Definition Star (r : regex) : regex := Rep r 0 None true.
Definition Plus (r : regex) : regex := Rep r 1 None true.
Definition Opt (r : regex) : regex := Rep r 0 (Some 1) true.
Definition Times (lo hi : nat) (r : regex) : regex := Rep r lo (Some hi) true.

Fixpoint seq (rs : list regex) : regex :=
  match rs with
  | [] => Eps
  | [r] => r
  | r :: rs' => Seq r (seq rs')
  end.

(** The pattern [re.escape(s)] compiles to: the characters of [s], literally. *)
Fixpoint escape (s : string) : regex :=
  match s with
  | EmptyString => Eps
  | String c s' => Seq (Lit c) (escape s')
  end.

(** Does the pattern have a capturing group ([findall] then yields the
    group, not the whole match). *)
Fixpoint has_group (r : regex) : bool :=
  match r with
  | Grp _ => true
  | Seq a b | Alt a b => has_group a || has_group b
  | Rep a _ _ _ => has_group a
  | _ => false
  end.

Definition cat_mem (k : category) (c : ascii) : bool :=
  match k with
  | CatSpace => is_space c
  | CatDigit => is_digit c
  | CatWord => is_word c
  end.

(** A literal under IGNORECASE matches the characters with the same
    lowercase form.  This is [re] on the code points below 256: past them
    Python also takes U+0130 and U+0131 for an [i], U+017F for an [s] and
    U+212A for a [k], characters that a string of the embedding cannot
    hold. *)
Definition lit_eq (fl : flags) (p c : ascii) : bool :=
  if ignorecase fl then Ascii.eqb (lower_chr c) (lower_chr p) else Ascii.eqb c p.

(** Under IGNORECASE a set is compiled to the lowercase image of its
    members and is tested on the lowercase form of the character (again on
    the code points below 256: the four characters above are members of
    Python's [[A-Z]] too). *)
Definition item_mem (fl : flags) (c : ascii) (it : citem) : bool :=
  match it with
  | CChr p => lit_eq fl p c
  | CRange lo hi =>
      if ignorecase fl
      then in_range (code lo) (code hi) (lower_chr c)
           || in_range (code lo) (code hi) (upper_chr (lower_chr c))
      else in_range (code lo) (code hi) c
  | CCat neg k => xorb neg (cat_mem k c)
  end.

Definition set_mem (fl : flags) (neg : bool) (items : list citem) (c : ascii) : bool :=
  xorb neg (existsb (item_mem fl c) items).

(** The state of a match attempt: the character before the cursor, the
    text from the cursor on, and what the capturing group holds. *)
Record mstate : Type := MState { prev : option ascii; rest : string; grp : option string }.

Definition adv (s : mstate) (c : ascii) (tl : string) : mstate :=
  MState (Some c) tl (grp s).

Definition set_grp (s : mstate) (g : string) : mstate :=
  MState (prev s) (rest s) (Some g).

Definition at_word_boundary (s : mstate) : bool :=
  let before := match prev s with Some c => is_word c | None => false end in
  let after := match rest s with String c _ => is_word c | EmptyString => false end in
  xorb before after.

Definition at_end (s : mstate) : bool :=
  match rest s with
  | EmptyString => true
  | String c EmptyString => code c =? 10
  | _ => false
  end.

Definition one (s : mstate) (ok : ascii → bool) (k : mstate → option mstate) : option mstate :=
  match rest s with
  | String c tl => if ok c then k (adv s c tl) else None
  | EmptyString => None
  end.

Definition rep_budget (lo : nat) (hi : option nat) (s : mstate) : nat :=
  match hi with
  | Some h => h
  | None => lo + String.length (rest s)
  end.

(** Backtracking matcher in continuation-passing style: [mre fl r s k]
    matches [r] at the cursor of [s] and hands every way of doing so, in
    Python's order of preference, to [k] until [k] accepts one.  An
    iteration of a repeat that consumes nothing is not repeated. *)
Fixpoint mre (fl : flags) (r : regex) (s : mstate) (k : mstate → option mstate)
    {struct r} : option mstate :=
  match r with
  | Eps => k s
  | Lit p => one s (lit_eq fl p) k
  | Dot => one s (fun c => dotall fl || negb (code c =? 10)) k
  | CSet neg items => one s (set_mem fl neg items) k
  | Seq a b => mre fl a s (fun s' => mre fl b s' k)
  | Alt a b =>
      match mre fl a s k with
      | Some x => Some x
      | None => mre fl b s k
      end
  | Rep a lo hi greedy =>
      (fix loop (budget cnt : nat) (s : mstate) {struct budget} : option mstate :=
         match budget with
         | 0 => if lo <=? cnt then k s else None
         | S b =>
             if greedy then
               match mre fl a s (fun s' =>
                       if (cnt <? lo) || (String.length (rest s') <? String.length (rest s))
                       then loop b (S cnt) s' else None) with
               | Some x => Some x
               | None => if lo <=? cnt then k s else None
               end
             else
               match (if lo <=? cnt then k s else None) with
               | Some x => Some x
               | None =>
                   mre fl a s (fun s' =>
                     if (cnt <? lo) || (String.length (rest s') <? String.length (rest s))
                     then loop b (S cnt) s' else None)
               end
         end) (rep_budget lo hi s) 0 s
  | Grp a =>
      mre fl a s (fun s' =>
        k (set_grp s' (take (String.length (rest s) - String.length (rest s')) (rest s))))
  | WordB neg => if xorb neg (at_word_boundary s) then k s else None
  | Bos => match prev s with None => k s | Some _ => None end
  | Eos => if at_end s then k s else None
  end.

(** A match object. *)
Record rmatch : Type := RMatch {
  m_start : nat;             (* offset of the match from where the search began *)
  m_group0 : string;         (* [m.group(0)] *)
  m_group1 : option string;  (* [m.group(1)]; [None] when the group took no part *)
  m_prev : option ascii;     (* the character before the end of the match *)
  m_after : string           (* the text after the match *)
}.

(** One attempt at the cursor. [must_advance] refuses the empty match. *)
Definition match_at (fl : flags) (r : regex) (must_advance : bool)
    (pv : option ascii) (s : string) : option mstate :=
  mre fl r (MState pv s None)
    (fun s' => if must_advance && (String.length (rest s') =? String.length s)
               then None else Some s').

Fixpoint search_from (fl : flags) (r : regex) (must_advance : bool) (pos : nat)
    (pv : option ascii) (s : string) : option rmatch :=
  match match_at fl r must_advance pv s with
  | Some st =>
      Some (RMatch pos (take (String.length s - String.length (rest st)) s)
                   (grp st) (prev st) (rest st))
  | None =>
      match s with
      | EmptyString => None
      | String c tl => search_from fl r false (S pos) (Some c) tl
      end
  end.

(** [re.search(r, text, fl)] *)
Definition search (fl : flags) (r : regex) (text : string) : option rmatch :=
  search_from fl r false 0 None text.

(** What [findall] lists for one match. *)
Definition item (r : regex) (m : rmatch) : string :=
  if has_group r then default EmptyString (m_group1 m) else m_group0 m.

Fixpoint findall_from (fuel : nat) (fl : flags) (r : regex) (must_advance : bool)
    (pv : option ascii) (s : string) : list string :=
  match fuel with
  | 0 => []
  | S fuel' =>
      match search_from fl r must_advance 0 pv s with
      | None => []
      | Some m =>
          item r m ::
          findall_from fuel' fl r (negb (truthy (m_group0 m))) (m_prev m) (m_after m)
      end
  end.

(** [re.findall(r, text, fl)]: the matches from left to right, without
    overlap; after an empty match the next one must advance.  Each
    position is the start of at most two matches, which bounds the loop. *)
Definition findall (fl : flags) (r : regex) (text : string) : list string :=
  findall_from (2 * String.length text + 2) fl r false None text.

End Re.

(** ** [float(s)]: parsing a string as a binary64 number *)

Module PyFloat.
Import PyStr.

(** The whitespace [float] strips at both ends: the ASCII blanks, and the
    Unicode spaces (NEL, NBSP), which it first turns into blanks. *)
Definition is_fspace (c : ascii) : bool :=
  in_range 9 13 c || (code c =? 32) || (code c =? 133) || (code c =? 160).

Fixpoint lstrip_ws (s : string) : string :=
  match s with
  | String c s' => if is_fspace c then lstrip_ws s' else s
  | EmptyString => EmptyString
  end.

Fixpoint rstrip_ws (s : string) : string :=
  match s with
  | EmptyString => EmptyString
  | String c s' =>
      match rstrip_ws s' with
      | EmptyString => if is_fspace c then EmptyString else String c EmptyString
      | r => String c r
      end
  end.

(** An underscore is allowed only between two digits; the string is then
    read without its underscores.  [pv] is the previous character. *)
Fixpoint drop_underscores (pv : option ascii) (s : string) : option string :=
  match s with
  | EmptyString =>
      match pv with
      | Some p => if code p =? 95 then None else Some EmptyString
      | None => Some EmptyString
      end
  | String c s' =>
      let pv_digit := match pv with Some p => is_digit p | None => false end in
      let pv_under := match pv with Some p => code p =? 95 | None => false end in
      if code c =? 95 then
        if pv_digit then drop_underscores (Some c) s' else None
      else if pv_under && negb (is_digit c) then None
      else String c <$> drop_underscores (Some c) s'
  end.

(** A run of decimal digits: its value appended to [acc], how many there
    were, and what follows. *)
Fixpoint digits (s : string) (acc : Z) (n : nat) : Z * nat * string :=
  match s with
  | String c s' =>
      if is_digit c then digits s' (10 * acc + Z.of_nat (code c - 48))%Z (S n)
      else (acc, n, s)
  | EmptyString => (acc, n, s)
  end.

Definition sign (s : string) : bool * string :=
  match s with
  | String c s' =>
      if code c =? 45 then (true, s')
      else if code c =? 43 then (false, s')
      else (false, s)
  | EmptyString => (false, s)
  end.

(** A decimal literal: sign, digits and exponent of [m * 10 ^ e]. *)
Inductive literal : Type :=
  | LDec (neg : bool) (m : Z) (e : Z)
  | LInf (neg : bool)
  | LNan.

(** The exponent part [[eE][+-]?digits], which must end the string. *)
Definition exponent (s : string) : option Z :=
  match s with
  | EmptyString => Some 0%Z
  | String c s' =>
      if (code c =? 101) || (code c =? 69) then
        let '(neg, s1) := sign s' in
        match digits s1 0%Z 0 with
        | (v, S _, EmptyString) => Some (if neg then (- v)%Z else v)
        | _ => None
        end
      else None
  end.

Definition parse (s : string) : option literal :=
  let '(neg, s1) := sign s in
  let low := lower s1 in
  if String.eqb low "inf" || String.eqb low "infinity" then Some (LInf neg)
  else if String.eqb low "nan" then Some LNan
  else
    let '(m1, n1, s2) := digits s1 0%Z 0 in
    let '(m, n2, s3) :=
      match s2 with
      | String c s2' => if code c =? 46 then digits s2' m1 0 else (m1, 0, s2)
      | EmptyString => (m1, 0, s2)
      end in
    if (n1 + n2 =? 0)%nat then None
    else (fun e => LDec neg m (e - Z.of_nat n2)%Z) <$> exponent s3.

(** The binary64 number nearest to [m * 10 ^ e] (ties to even), infinite
    on overflow: the quotient of two integers, rounded once. *)
Definition of_decimal (neg : bool) (m e : Z) : float :=
  if (m =? 0)%Z then (if neg then neg_zero else zero)
  else
    let '(n, d) := if (0 <=? e)%Z then ((m * 10 ^ e)%Z, 1%Z) else (m, (10 ^ (- e))%Z) in
    let '(q, e', l) := SFdiv_core_binary prec emax n 0 d 0 in
    SF2Prim (binary_round_aux prec emax neg q e' l).

Definition eval (l : literal) : float :=
  match l with
  | LDec neg m e => of_decimal neg m e
  | LInf neg => if neg then neg_infinity else infinity
  | LNan => nan
  end.

(** [float(s)]; [None] stands for [ValueError]. *)
Definition float_of_str (s : string) : option float :=
  s' ← drop_underscores None (rstrip_ws (lstrip_ws s));
  eval <$> parse s'.

End PyFloat.

(** ** [search_utils.py] *)

Module SearchUtils.
Import PyStr Re.

(** What [searching] returns: the tuple [(key, value)], or the list of all
    matches when [return_all] is set and a custom pattern matched. *)
Inductive search_result : Type :=
  | Pair (key value : option string)
  | Matches (l : list string).

(** The [patterns] argument: [None], or a dict from a lowercase term to
    its regular expressions (each with one capturing group). *)
Abbreviation patterns_t := (option (gmap string (list regex))).

(** The loop shared by [searching] and [serial_number]:
<<
    for regex in regex_list:
        matches = re.findall(regex, text, flags)
        if matches:
            if return_all: results.extend(matches)
            else: return matches[0]
>>
    [inl m] is the early return of [matches[0]], [inr results] the list
    the loop leaves. *)
Fixpoint first_or_all (fl : flags) (regex_list : list regex) (text : string)
    (return_all : bool) (results : list string) : string + list string :=
  match regex_list with
  | [] => inr results
  | regex :: regex_list' =>
      match findall fl regex text with
      | [] => first_or_all fl regex_list' text return_all results
      | m0 :: ms =>
          if return_all
          then first_or_all fl regex_list' text return_all (results ++ m0 :: ms)
          else inl m0
      end
  end.

(** [sep_chars = r"[\s:=-]*"] *)
Definition sep_chars : regex :=
  Star (CSet false [CCat false CatSpace; CChr ":"; CChr "="; CChr "-"]).

Definition digit : regex := CSet false [CCat false CatDigit].
Definition dot_or_comma : regex := CSet false [CChr "."; CChr ","].

(** [number_regex = r"(?:[-+]?\d{1,3}(?:[.,]\d{3})*(?:[.,]\d+)?)"] *)
Definition number_regex : regex :=
  seq [Opt (CSet false [CChr "-"; CChr "+"]);
       Times 1 3 digit;
       Star (Seq dot_or_comma (Times 3 3 digit));
       Opt (Seq dot_or_comma (Plus digit))].

(** [alnum_regex = r"\b([A-Za-z0-9]+)\b"] *)
Definition alnum_regex : regex :=
  seq [WordB false;
       Grp (Plus (CSet false [CRange "A" "Z"; CRange "a" "z"; CRange "0" "9"]));
       WordB false].

(** [word_regex = r"([a-zA-Z]+)"] *)
Definition word_regex : regex :=
  Grp (Plus (CSet false [CRange "a" "z"; CRange "A" "Z"])).

(** [rf"{re.escape(first_match.group(0))}{sep_chars}(.{{0,100}})"] *)
Definition after_term_regex (matched : string) : regex :=
  seq [escape matched; sep_chars; Grp (Times 0 100 Dot)].

(** The first of the three value patterns that matches the snippet. *)
Fixpoint first_value (regexes : list regex) (snippet : string) : option rmatch :=
  match regexes with
  | [] => None
  | regex :: regexes' =>
      match search NOFLAGS regex snippet with
      | Some m => Some m
      | None => first_value regexes' snippet
      end
  end.

(** Lines 24-45 of [searching]: the proximity heuristic. *)
Definition proximity (search_term text : string) : search_result :=
  match search IGNORECASE (escape search_term) text with
  | None => Pair None None
  | Some first_match =>
      let matched := m_group0 first_match in
      match search IGNORECASE_DOTALL (after_term_regex matched) text with
      | Some after_term =>
          let snippet := default EmptyString (m_group1 after_term) in
          match first_value [number_regex; alnum_regex; word_regex] snippet with
          | Some m => Pair (Some matched) (Some (m_group0 m))
          | None => Pair (Some matched) None
          end
      | None => Pair (Some matched) None
      end
  end.

(** The custom patterns of a term: [patterns[search_term.lower()]] when
    [patterns] is a non-empty dict that has the key. *)
Definition bound_patterns (patterns : patterns_t) (key : string) : option (list regex) :=
  match patterns with
  | Some d => d !! key
  | None => None
  end.

(** [searching(search_term, text, patterns=None, return_all=False)] *)
Definition searching (search_term text : string) (patterns : patterns_t)
    (return_all : bool) : search_result :=
  match bound_patterns patterns (lower search_term) with
  | Some regex_list =>
      match first_or_all IGNORECASE_DOTALL regex_list text return_all [] with
      | inl m0 => Pair (Some search_term) (Some (strip m0))
      | inr (r :: results) => Matches (r :: results)
      | inr [] => proximity search_term text
      end
  | None => proximity search_term text
  end.

(** Latin-1 letters of the Spanish labels. *)
Definition o_acute : string := String (chr 243) EmptyString.
Definition u_acute : string := String (chr 250) EmptyString.
Definition ordinal_o : string := String (chr 186) EmptyString.
Definition numero : string := "n" +:+ u_acute +:+ "mero".
Definition codigo : string := "c" +:+ o_acute +:+ "digo".
Definition unico : string := u_acute +:+ "nico".
Definition unica : string := u_acute +:+ "nica".

(** The first assignment to [serial_words] (lines 65-83).  The variable is
    assigned again at line 98 before it is read. *)
Definition serial_words_first : list string :=
  [numero +:+ " de serie"; "n" +:+ ordinal_o +:+ " de serie"; "no. de serie"; "num. de serie";
   "serie"; "serial"; "serial number"; "id"; codigo; codigo +:+ " " +:+ unico;
   "clave"; "clave " +:+ unica; "referencia"; "referencia " +:+ unica; "folio";
   numero +:+ " de folio"; "comprobante"; numero +:+ " de comprobante";
   "ticket"; numero +:+ " de ticket"; "factura"; numero +:+ " de factura";
   "recibo"; numero +:+ " de recibo"; "orden"; numero +:+ " de orden";
   "pedido"; numero +:+ " de pedido"; "documento"; numero +:+ " de documento";
   "contrato"; numero +:+ " de contrato"; "expediente"; "registro";
   numero +:+ " de registro"; "id " +:+ unico; "identificaci" +:+ o_acute +:+ "n"; "identificador";
   "s/n"; "sn"; "unique id"; "unique code";
   "reference"; "reference number"; "ref";
   "folio number"; "voucher"; "voucher number";
   "ticket number"; "invoice"; "invoice number";
   "receipt"; "receipt number"; "order"; "order number";
   "purchase order"; "po number"; "document number";
   "contract number"; "file"; "file number";
   "record"; "registration number"; "unique identifier"].

(** The second assignment (lines 98-103): the list the loop iterates. *)
Definition serial_words : list string :=
  [numero +:+ " de serie"; "n" +:+ ordinal_o +:+ " de serie"; "no. de serie"; "num. de serie";
   "serie"; "serial"; "serial number"; "id"; codigo; "folio"; "factura";
   "ticket"; "recibo"; "orden"; "pedido"; "documento"; "contrato";
   "expediente"; "registro"; "unique id"; "reference"].

Definition space : regex := CSet false [CCat false CatSpace].

(** [rf"(?i){re.escape(serial)}\s*[:\-#]?\s*([A-Z0-9\-\/]+)"] *)
Definition serial_regex (serial : string) : regex :=
  seq [escape serial; Star space; Opt (CSet false [CChr ":"; CChr "-"; CChr "#"]); Star space;
       Grp (Plus (CSet false [CRange "A" "Z"; CRange "0" "9"; CChr "-"; CChr "/"]))].

(** What [serial_number] returns: [None], one match, or the list of all. *)
Inductive serial_result : Type :=
  | SNone
  | SOne (s : string)
  | SAll (l : list string).

(** [return results if results else None] *)
Definition results_or_none (results : list string) : serial_result :=
  match results with [] => SNone | _ => SAll results end.

(** [serial_number(text, patterns=None, return_all=False)] *)
Definition serial_number (text : string) (patterns : patterns_t) (return_all : bool)
    : serial_result :=
  let words (results : list string) :=
    match first_or_all IGNORECASE (map serial_regex serial_words) text return_all results with
    | inl m0 => SOne m0
    | inr results' => results_or_none results'
    end in
  match bound_patterns patterns "serial" with
  | Some regex_list =>
      match first_or_all IGNORECASE regex_list text return_all [] with
      | inl m0 => SOne m0
      | inr (r :: results) => SAll (r :: results)
      | inr [] => words []
      end
  | None => words []
  end.

(** What [normalize_number] returns: a float, or the string it could not
    convert. *)
Inductive normalized : Type :=
  | NFloat (f : float)
  | NStr (s : string).

(** [normalize_number(num_str)] *)
Definition normalize_number (num_str : string) : normalized :=
  let num_str := replace_chr " " EmptyString num_str in
  let num_str :=
    if has_chr "," num_str && has_chr "." num_str then replace_chr "," EmptyString num_str
    else if has_chr "," num_str then replace_chr "," "." num_str
    else num_str in
  match PyFloat.float_of_str num_str with
  | Some f => NFloat f
  | None => NStr num_str
  end.

(** The values held by a result dict: [None] or a [str]. *)
Inductive pyval : Type :=
  | PNone
  | PStr (s : string).

(** [d.get(k)] *)
Definition get (d : gmap string pyval) (k : string) : pyval := default PNone (d !! k).

(** One turn of the loop of [final_dict] on [(summed_values, string_values)]. *)
Definition final_step (acc : gmap string float * gmap string (gset string))
    (result : gmap string pyval) : gmap string float * gmap string (gset string) :=
  match get result "Key", get result "Value" with
  | PStr key, PStr value =>
      match normalize_number value with
      | NFloat f => (<[key := PrimFloat.add (default PrimFloat.zero (acc.1 !! key)) f]> (acc.1), acc.2)
      | NStr s => (acc.1, <[key := default ∅ (acc.2 !! key) ∪ {[s]}]> (acc.2))
      end
  | _, _ => acc
  end.

(** [final_dict(results)]: the sums, and the strings as lists. *)
Definition final_dict (results : list (gmap string pyval))
    : gmap string float * gmap string (list string) :=
  let acc := fold_left final_step results (∅, ∅) in
  (acc.1, elements <$> acc.2).

(** What [chained_search] returns: what [searching] returned or the tuple
    it builds itself, or (in trace mode) the chain of hops. *)
Inductive chained_result : Type :=
  | Single (r : search_result)
  | Chain (chain : list (string * string)).

(** The variables of the loop of [chained_search], and the terms it has
    called [searching] with so far. *)
Record chain_state : Type := ChainState {
  current_term : string;
  current_value : option string;
  chain : list (string * string);
  searched : list string
}.

(** [for i in range(n)], with [fuel] turns left.  The tuple of
    [searching] is unpacked into [term, value]; the loop breaks when one
    of them is false ([None] or empty).  Without [return_all] a list is
    never returned, so its case is not one the loop meets. *)
Fixpoint chain_loop (fuel : nat) (text : string) (patterns : patterns_t)
    (st : chain_state) : chain_state :=
  match fuel with
  | 0 => st
  | S fuel' =>
      let st' := ChainState (current_term st) (current_value st) (chain st)
                   (searched st ++ [current_term st]) in
      match searching (current_term st) text patterns false with
      | Pair (Some term) (Some value) =>
          if truthy term && truthy value
          then chain_loop fuel' text patterns
                 (ChainState value (Some value) (chain st ++ [(term, value)]) (searched st'))
          else st'
      | _ => st'
      end
  end.

(** [chained_search] together with the terms searched for. *)
Definition chained_search_run (initial_term text : string) (n : Z) (dev : bool)
    (patterns : patterns_t) : chained_result * list string :=
  if (n =? 0)%Z then (Single (searching initial_term text patterns false), [initial_term])
  else
    let st := chain_loop (Z.to_nat n) text patterns (ChainState initial_term None [] []) in
    (if dev then Chain (chain st)
     else if otruthy (current_value st)
          then Single (Pair (Some initial_term) (current_value st))
          else Single (Pair None None),
     searched st).

(** [chained_search(initial_term, text, n, dev, patterns=None)] *)
Definition chained_search (initial_term text : string) (n : Z) (dev : bool)
    (patterns : patterns_t) : chained_result :=
  (chained_search_run initial_term text n dev patterns).1.

(** What [{{lo,hi}}] compiles to where the braces are not those of an
    f-string: no repeat can be read from the first brace, which is then a
    literal; the second opens a repeat of that literal; the brace that is
    left over is a literal again. *)
Definition braces (lo hi : nat) : regex := Seq (Times lo hi (Lit "{")) (Lit "}").

Definition date_sep : regex := CSet false [CChr "/"; CChr "-"].

(** [date_regex]: the f-string [rf"{term_escaped}[\s:=-]*"], and next to
    it the plain raw string of the two date shapes, whose doubled braces
    stay as they are written. *)
Definition date_regex (term : string) : regex :=
  seq [escape term; sep_chars;
       Grp (Alt (seq [digit; braces 1 2; date_sep; digit; braces 1 2; date_sep; digit; braces 2 4])
                (seq [digit; braces 4 4; date_sep; digit; braces 1 2; date_sep; digit; braces 1 2]))].

(** [date_finder(text, term)] *)
Definition date_finder (text term : string) : option string :=
  match search IGNORECASE (date_regex term) text with
  | Some m => m_group1 m
  | None => None
  end.

End SearchUtils.

(** ** Calls that may raise, and the log *)

Module Py.

(** The result of a call: a value, or an exception (its class name). *)
Inductive outcome (A : Type) : Type :=
  | Ok (a : A)
  | Raise (exn : string).
Arguments Ok {A} a.
Arguments Raise {A} exn.

Inductive level : Type := DEBUG | INFO | WARNING | ERROR.

(** A record written by [logging.<level>(message)]. *)
Definition log_record : Type := level * string.

(** A computation that writes log records and returns or raises. *)
Definition M (A : Type) : Type := outcome A * list log_record.

Definition raise {A : Type} (exn : string) : M A := (Raise exn, []).

Definition logging (l : level) (message : string) : M unit := (Ok tt, [(l, message)]).

Definition bind {A B : Type} (f : A → M B) (m : M A) : M B :=
  match m with
  | (Ok a, l) => let '(r, l') := f a in (r, (l ++ l')%list)
  | (Raise exn, l) => (Raise exn, l)
  end.

#[global] Instance M_ret : MRet M := fun A a => (Ok a, []).
#[global] Instance M_bind : MBind M := @bind.

(** [try: m / except Exception as e: handler(e)] *)
Definition try_except {A : Type} (m : M A) (handler : string → M A) : M A :=
  match m with
  | (Ok a, l) => (Ok a, l)
  | (Raise exn, l) => let '(r, l') := handler exn in (r, (l ++ l')%list)
  end.

(** An external call, which logs nothing of its own. *)
Definition call {A : Type} (r : outcome A) : M A := (r, []).

End Py.

(** ** [ocr_utils.py]: the table fallback and the deduplication *)

Module OcrUtils.
Import PyStr Py.

(** A pandas DataFrame: column labels and rows of cells, as strings. *)
Record dataframe : Type := DataFrame {
  columns : list string;
  rows : list (list string)
}.

(** What an engine hands back as a table: a DataFrame (Tabula), a Camelot
    [Table] (which has a [df]), or an object that can not be normalized,
    known by its [repr]. *)
Inductive table_body : Type :=
  | Pandas (df : dataframe)
  | Camelot (df : dataframe)
  | Broken (repr : string).

(** A table object: its identity and its content. *)
Record table : Type := Table { oid : nat; body : table_body }.

Inductive flavor : Type := Lattice | Stream.

(** The external collaborators. *)
Record engines : Type := Engines {
  (** [image_path.exists()] *)
  path_exists : string → bool;
  (** PIL and reportlab writing the PDF of an existing image *)
  draw_pdf : string → string → outcome unit;
  (** PyMuPDF: the text of the first page *)
  first_page_text : string → outcome string;
  (** [camelot.read_pdf(path, pages='all', flavor=...)] *)
  camelot_read_pdf : string → flavor → outcome (option (list table));
  (** [tabula.read_pdf(path, pages='all', multiple_tables=True, ...)] *)
  tabula_read_pdf : string → flavor → outcome (option (list table))
}.

(** [x or []] *)
Definition or_empty {A : Type} (x : option (list A)) : list A := default [] x.

(** The last component of a path. *)
Fixpoint path_name_go (cur : string) (p : string) : string :=
  match p with
  | EmptyString => cur
  | String c p' =>
      if code c =? 47 then path_name_go (if truthy p' then EmptyString else cur) p'
      else path_name_go (cur +:+ String c EmptyString) p'
  end.

Definition path_name (p : string) : string := path_name_go EmptyString p.

(** The part of a name from its last dot on, when that dot is neither
    the first nor the last character ([PurePath.suffix]: [name.rfind('.')]
    and the test [0 < i < len(name) - 1]). *)
Fixpoint suffix_go (first : bool) (s : string) : option string :=
  match s with
  | EmptyString => None
  | String c s' =>
      if has_chr "." s' then suffix_go false s'
      else if (code c =? 46) && negb first && truthy s' then Some s else None
  end.

Definition suffix (p : string) : string := default EmptyString (suffix_go true (path_name p)).

(** [p.with_suffix('.pdf')] for a path that has a suffix. *)
Definition with_suffix_pdf (p : string) : string :=
  take (String.length p - String.length (suffix p)) p +:+ ".pdf".

Definition searching_files_extensions : list string :=
  [".jpg"; ".jpeg"; ".png"; ".bmp"; ".tiff"; ".gif"].

Definition in_list (s : string) (l : list string) : bool := existsb (String.eqb s) l.

(** [img_to_pdf(image_path, output_path)] of [image_utils.py] *)
Definition img_to_pdf (E : engines) (image_path output_path : string) : M unit :=
  if path_exists E image_path then
    call (draw_pdf E image_path output_path) ;;
    logging INFO "Converted to PDF"
  else
    logging ERROR "Image does not exist. Cannot convert to PDF." ;;
    raise "FileNotFoundError".

(** [is_scanned_pdf(pdf_path)] *)
Definition is_scanned_pdf (E : engines) (pdf_path : string) : M bool :=
  try_except
    (text ← call (first_page_text E pdf_path);
     mret (String.length (strip text) =? 0))
    (fun e => logging WARNING "Pdf could not be analized" ;; mret false).

(** The dict [fallback_table_extraction] returns. *)
Definition flavors_dict (camelot_lattice camelot_stream tabula_lattice tabula_stream : list table)
    : gmap string (list table) :=
  <["camelot_lattice" := camelot_lattice]>
    (<["camelot_stream" := camelot_stream]>
       (<["tabula_lattice" := tabula_lattice]>
          (<["tabula_stream" := tabula_stream]> ∅))).

(** Lines 102-124: the PDF to read, or [None] for the early returns. *)
Definition pdf_for (E : engines) (image_path : string) : M (option string) :=
  try_except
    (if in_list (lower (suffix image_path)) searching_files_extensions then
       img_to_pdf E image_path (with_suffix_pdf image_path) ;;
       mret (Some (with_suffix_pdf image_path))
     else if String.eqb (lower (suffix image_path)) ".pdf" then
       mret (Some image_path)
     else
       logging WARNING "Unsupported file type for fallback_table_extraction" ;;
       mret None)
    (fun e => logging ERROR "Error converting to PDF" ;; mret None).

(** Both flavors of one engine, in a [try] that yields two empty lists. *)
Definition read_both (read : flavor → outcome (option (list table))) (message : string)
    : M (list table * list table) :=
  try_except
    (lattice ← call (read Lattice);
     stream ← call (read Stream);
     mret (or_empty lattice, or_empty stream))
    (fun e => logging ERROR message ;; mret ([], [])).

(** [fallback_table_extraction(image_path)] *)
Definition fallback_table_extraction (E : engines) (image_path : string)
    : M (gmap string (list table)) :=
  pdf ← pdf_for E image_path;
  match pdf with
  | None => mret (flavors_dict [] [] [] [])
  | Some pdf_path =>
      scanned ← try_except (is_scanned_pdf E pdf_path)
                  (fun e => logging WARNING "is_scanned_pdf failed" ;; mret false);
      camelot ← (if negb scanned
                 then read_both (camelot_read_pdf E pdf_path) "Error extracting tables with Camelot"
                 else logging INFO "appears to be scanned (image-only); skipping Camelot." ;;
                      mret ([], []));
      tabula ← read_both (tabula_read_pdf E pdf_path) "Error extracting tables with Tabula";
      mret (flavors_dict camelot.1 camelot.2 tabula.1 tabula.2)
  end.

(** [re.sub(r'\s+', ' ', x)]: every run of whitespace becomes one blank. *)
Fixpoint collapse_ws (in_run : bool) (x : string) : string :=
  match x with
  | EmptyString => EmptyString
  | String c x' =>
      if is_space c
      then (if in_run then collapse_ws true x' else String " " (collapse_ws true x'))
      else String c (collapse_ws false x')
  end.

(** The cell normalization of [_normalize_dataframe_for_signature]. *)
Definition normalize_cell (x : string) : string := lower (strip (collapse_ws false x)).

(** [_normalize_dataframe_for_signature(df)]: every cell normalized, the
    first [N = 8] rows kept. *)
Definition _normalize_dataframe_for_signature (df : dataframe) : dataframe :=
  DataFrame (columns df) (firstn 8 (map (map normalize_cell) (rows df))).

(** What is hashed for a table: [(columns_sig, rows_sig)], or the [repr]
    of the table when the normalization raised. *)
Inductive signature : Type :=
  | SigFrame (columns_sig : list string) (rows_sig : list (list string))
  | SigRepr (repr : string).

Definition signature_of (t : table) : signature :=
  match body t with
  | Pandas df | Camelot df =>
      let df_norm := _normalize_dataframe_for_signature df in
      SigFrame (map (fun c => lower (strip c)) (columns df_norm)) (rows df_norm)
  | Broken repr => SigRepr repr
  end.

(** The loop of [comparing_tables]; [md5_repr] is
    [hashlib.md5(repr(x).encode('utf-8')).hexdigest()]. *)
Fixpoint dedupe (md5_repr : signature → string) (tables_list unique_tables : list table)
    (seen_signatures : gset string) : list table :=
  match tables_list with
  | [] => unique_tables
  | t :: tables_list' =>
      let sig_hash := md5_repr (signature_of t) in
      if decide (sig_hash ∈ seen_signatures)
      then dedupe md5_repr tables_list' unique_tables seen_signatures
      else dedupe md5_repr tables_list' (unique_tables ++ [t]) (seen_signatures ∪ {[sig_hash]})
  end.

(** [comparing_tables(tables_list)] *)
Definition comparing_tables (md5_repr : signature → string) (tables_list : list table)
    : list table :=
  match tables_list with
  | [] => []
  | _ => dedupe md5_repr tables_list [] ∅
  end.

End OcrUtils.

(** ** [general_utils.py]: the document loop *)

Module GeneralUtils.
Import PyStr Re SearchUtils Py OcrUtils.

#[global] Instance pyval_eq_dec : EqDecision pyval.
Proof. solve_decision. Defined.

(** The dict appended to [results]. *)
Definition make_result (image_name : string) (serial : pyval) (key value : string)
    (path : option string) : gmap string pyval :=
  let d := <["Image" := PStr image_name]>
             (<["Serial" := serial]> (<["Key" := PStr key]> (<["Value" := PStr value]> ∅))) in
  match path with
  | Some p => <["Path" := PStr p]> d
  | None => d
  end.

(** [serial_number(text, patterns=patterns)] as a dict value; without
    [return_all] it is [None] or one string. *)
Definition serial_value (r : serial_result) : pyval :=
  match r with
  | SOne s => PStr s
  | SNone | SAll _ => PNone
  end.

(** [any(r['Image'] == image_name and r['Key'] == key and r['Value'] == value
        for r in results)] *)
Definition recorded (results : list (gmap string pyval)) (image_name key value : string) : bool :=
  existsb (fun r => bool_decide (get r "Image" = PStr image_name)
                    && bool_decide (get r "Key" = PStr key)
                    && bool_decide (get r "Value" = PStr value)) results.

(** What the loop builds: [results], and the [(image, term)] pairs the
    table fallback was called for. *)
Record state : Type := State {
  results : list (gmap string pyval);
  fallback_calls : list (string * string)
}.

(** [a, b = x] for an [x] that is [None] or a string. *)
Definition unpack2 (x : option string) : outcome (string * string) :=
  match x with
  | None => Raise "TypeError"
  | Some (String a (String b EmptyString)) => Ok (String a EmptyString, String b EmptyString)
  | Some _ => Raise "ValueError"
  end.

(** A [pathlib.Path], known by its string.  The folder handed to
    [extract_data_from_docs] is one: [main] passes the working folder that
    [prepare_folder_and_files] returns.  (With a [str] in its place the
    division of line 171 raises a [TypeError], inside the [try].) *)
Record path : Type := Path { str_of : string }.

(** The string of [folder_path_ / image_name], for the folder whose string
    is [folder]. *)
Definition path_join (folder name : string) : string := folder +:+ "/" +:+ name.

(** [table.df if hasattr(table, 'df') else table], when it is a frame. *)
Definition df_of (t : table) : option dataframe :=
  match body t with
  | Pandas df | Camelot df => Some df
  | Broken _ => None
  end.

Section TableSearch.
Variables (image_name : string) (serial : pyval) (term : string).

(** [row[col]]: the cell under the label, which must be there once (with
    a repeated label it is a Series, whose truth value raises). *)
Definition cell (df : dataframe) (row : list string) (col : string) : outcome string :=
  match filter (fun cv => bool_decide (cv.1 = col)) (zip (columns df) row) with
  | [cv] => Ok cv.2
  | [] => Raise "KeyError"
  | _ => Raise "ValueError"
  end.

(** [for idx, row in df.iterrows()] under a matching column header:
    results, [found], and whether the loop raised. *)
Fixpoint header_rows (df : dataframe) (col : string) (rws : list (list string))
    (res : list (gmap string pyval)) (found : bool)
    : list (gmap string pyval) * bool * bool :=
  match rws with
  | [] => (res, found, false)
  | row :: rws' =>
      match cell df row col with
      | Raise _ => (res, found, true)
      | Ok value =>
          if truthy value && negb (recorded res image_name (lower term) value)
          then header_rows df col rws'
                 (res ++ [make_result image_name serial (lower term) value None]) true
          else header_rows df col rws' res found
      end
  end.

(** [for col in df.columns] *)
Fixpoint header_cols (df : dataframe) (cols : list string)
    (res : list (gmap string pyval)) (found : bool)
    : list (gmap string pyval) * bool * bool :=
  match cols with
  | [] => (res, found, false)
  | col :: cols' =>
      if contains (lower term) (lower col) then
        let '(res', found', raised) := header_rows df col (rows df) res found in
        if raised then (res', found', true)
        else if found' then (res', found', false)
        else header_cols df cols' res' found'
      else header_cols df cols' res found
  end.

(** [for cell in row]: the result appended for the first cell that holds
    the term and is not recorded yet. *)
Fixpoint cell_row (cells : list string) (res : list (gmap string pyval))
    : option (list (gmap string pyval)) :=
  match cells with
  | [] => None
  | c :: cells' =>
      if contains (lower term) (lower c) && negb (recorded res image_name (lower term) c)
      then Some (res ++ [make_result image_name serial (lower term) c None])
      else cell_row cells' res
  end.

(** The second [for idx, row in df.iterrows()]. *)
Fixpoint cell_rows (rws : list (list string)) (res : list (gmap string pyval)) (found : bool)
    : list (gmap string pyval) * bool :=
  match rws with
  | [] => (res, found)
  | row :: rws' =>
      let '(res', found') :=
        match cell_row row res with
        | Some r => (r, true)
        | None => (res, found)
        end in
      if found' then (res', found') else cell_rows rws' res' found'
  end.

(** [for table in tables]: a table that is no frame raises in both [try]
    blocks and adds nothing. *)
Fixpoint tables_loop (tables : list table) (res : list (gmap string pyval)) (found : bool)
    : list (gmap string pyval) * bool :=
  match tables with
  | [] => (res, found)
  | t :: tables' =>
      match df_of t with
      | None => tables_loop tables' res found
      | Some df =>
          let '(res1, found1, raised) := header_cols df (columns df) res found in
          if negb raised && found1 then (res1, found1)
          else
            let '(res2, found2) := cell_rows (rows df) res1 found1 in
            if found2 then (res2, found2) else tables_loop tables' res2 found2
      end
  end.

(** [for flavor in ["camelot_lattice", ...]] *)
Fixpoint flavors_loop (md5_repr : signature → string) (flavors : list string)
    (table_dict : gmap string (list table)) (res : list (gmap string pyval))
    : list (gmap string pyval) :=
  match flavors with
  | [] => res
  | fl :: flavors' =>
      let tables_raw := default [] (table_dict !! fl) in
      let tables := comparing_tables md5_repr tables_raw in
      let '(res', found) := tables_loop tables res false in
      if found then res' else flavors_loop md5_repr flavors' table_dict res'
  end.

End TableSearch.

Definition flavor_names : list string :=
  ["camelot_lattice"; "camelot_stream"; "tabula_lattice"; "tabula_stream"].

Section Documents.
Variables (E : engines) (md5_repr : signature → string).
Variables (folder_path_ : path) (n : Z) (dev : bool) (patterns : patterns_t).

(** Lines 170-232: the table fallback for one term. *)
Definition table_fallback (image_name : string) (serial : pyval) (term : string)
    (st : state) : state :=
  let calls := fallback_calls st ++ [(image_name, term)] in
  match fallback_table_extraction E (path_join (str_of folder_path_) image_name) with
  | (Ok table_dict, _) =>
      State (flavors_loop image_name serial term md5_repr flavor_names table_dict (results st))
            calls
  | (Raise _, _) => State (results st) calls
  end.

(** The body of [for term in terms] (lines 147-232). *)
Definition term_step (image_name text : string) (serial : pyval) (st : state) (term : string)
    : outcome state :=
  let output := chained_search term text n dev patterns in
  let record key value path :=
    State (results st ++ [make_result image_name serial (lower (strip key)) value path])
          (fallback_calls st) in
  if dev then
    match output with
    | Chain [] => Ok (table_fallback image_name serial term st)
    | Chain (hop :: hops) =>
        let '(final_key, final_value) := List.last hops hop in
        let path_str := join " -> " (map (fun kv => kv.1 +:+ ":" +:+ kv.2) (hop :: hops)) in
        Ok (table_fallback image_name serial term (record final_key final_value (Some path_str)))
    | Single (Pair key value) =>
        (* [n == 0]: [output] is the tuple of [searching] *)
        match unpack2 value with
        | Raise exn => Raise exn
        | Ok (final_key, final_value) =>
            match unpack2 key with
            | Raise exn => Raise exn
            | Ok (k1, k2) =>
                let path_str :=
                  join " -> " [k1 +:+ ":" +:+ k2; final_key +:+ ":" +:+ final_value] in
                Ok (table_fallback image_name serial term
                      (record final_key final_value (Some path_str)))
            end
        end
    | Single (Matches _) => Raise "ValueError"
    end
  else
    match output with
    | Single (Pair (Some key) (Some value)) =>
        if truthy key && truthy value
        then Ok (record key value None)
        else Ok (table_fallback image_name serial term st)
    | Single (Pair _ _) => Ok (table_fallback image_name serial term st)
    | Single (Matches _) | Chain _ => Raise "ValueError"
    end.

(** [for term in terms] *)
Fixpoint terms_loop (image_name text : string) (serial : pyval) (terms : list string)
    (st : state) : outcome state :=
  match terms with
  | [] => Ok st
  | term :: terms' =>
      match term_step image_name text serial st term with
      | Ok st' => terms_loop image_name text serial terms' st'
      | Raise exn => Raise exn
      end
  end.

(** [for image_name, text, image_path in zip(image_names, texts, image_paths)] *)
Fixpoint docs_loop (searching_serial : bool) (terms : list string)
    (docs : list (string * string * string)) (st : state) : outcome state :=
  match docs with
  | [] => Ok st
  | (image_name, text, image_path) :: docs' =>
      let serial :=
        if searching_serial then serial_value (serial_number text patterns false) else PNone in
      match terms_loop image_name text serial terms st with
      | Ok st' => docs_loop searching_serial terms docs' st'
      | Raise exn => Raise exn
      end
  end.

(** [extract_data_from_docs(...)], with the fallback calls it made. *)
Definition extract_data_run (image_names texts image_paths : list string)
    (searching_serial : bool) (terms : list string) : outcome state :=
  docs_loop searching_serial terms (zip (zip image_names texts) image_paths) (State [] []).

Definition extract_data_from_docs (image_names texts image_paths : list string)
    (searching_serial : bool) (terms : list string) : outcome (list (gmap string pyval)) :=
  match extract_data_run image_names texts image_paths searching_serial terms with
  | Ok st => Ok (results st)
  | Raise exn => Raise exn
  end.

End Documents.

(** The keywords of a document type as [keywords.json] gives them: a list
    of terms, a dict from a term to its patterns, or something else. *)
Inductive keywords : Type :=
  | KwList (terms : list string)
  | KwDict (patterns : list (string * list regex))
  | KwOther.

(** A [dict] whose order of insertion matters: [d.get(k)] and [d[k] = v],
    which keeps the place of a key that is there already. *)
Fixpoint dict_get {V : Type} (d : list (string * V)) (k : string) : option V :=
  match d with
  | [] => None
  | (k', v) :: d' => if String.eqb k' k then Some v else dict_get d' k
  end.

Fixpoint dict_set {V : Type} (k : string) (v : V) (d : list (string * V)) : list (string * V) :=
  match d with
  | [] => [(k, v)]
  | (k', v') :: d' => if String.eqb k' k then (k', v) :: d' else (k', v') :: dict_set k v d'
  end.

(** [s.split(sep)] for a one-character [sep]. *)
Fixpoint split (sep : ascii) (s : string) : list string :=
  match s with
  | EmptyString => [EmptyString]
  | String c s' =>
      if Ascii.eqb c sep then EmptyString :: split sep s'
      else match split sep s' with
           | piece :: pieces => String c piece :: pieces
           | [] => [String c EmptyString]
           end
  end.

(** The two attributes of the parsed command line that are read. *)
Record args : Type := Args { doc_type : string; extra_terms : option string }.

(** [get_search_terms(args, all_keywords)], for [all_keywords] a dict;
    what it prints is left out. *)
Definition get_search_terms (a : args) (all_keywords : list (string * keywords)) : list string :=
  let doc_patterns := default (KwDict []) (dict_get all_keywords (doc_type a)) in
  let terms :=
    match doc_patterns with
    | KwDict d => map fst d
    | KwList l => l
    | KwOther => []
    end in
  if otruthy (extra_terms a)
  then terms ++ List.filter truthy (map strip (split "," (default EmptyString (extra_terms a))))
  else terms.

End GeneralUtils.

(** ** [excel_utils.py]: saving the results *)

Module ExcelUtils.
Import PyStr SearchUtils Py.

(** What [save_multiple_to_excel] is asked to write: the file name and
    the sheets "Results", "Summed" and "Strings". *)
Record workbook : Type := Workbook {
  file_name : string;
  sheet_results : list (gmap string pyval);
  sheet_summed : gmap string float;
  sheet_strings : gmap string (list string)
}.

(** [save_results_if_any(results, excel_file)]; [write] is
    [save_multiple_to_excel], which is pandas and xlsxwriter at work. *)
Definition save_results_if_any (write : workbook → outcome unit)
    (results : list (gmap string pyval)) (excel_file : string) : M bool :=
  let '(summed_values, string_values) := final_dict results in
  if negb (bool_decide (summed_values = ∅)) || negb (bool_decide (string_values = ∅)) then
    call (write (Workbook (excel_file +:+ ".xlsx") results summed_values string_values)) ;;
    logging INFO "Results saved" ;;
    mret true
  else
    logging INFO "No matches found." ;;
    mret false.

End ExcelUtils.

(** ** [image_utils.py]: the files of the folder *)

Module ImageUtils.
Import PyStr Py OcrUtils.

Definition searching_files_extensions : list string :=
  [".jpg"; ".jpeg"; ".png"; ".bmp"; ".tiff"; ".gif"; ".pdf"].

(** [get_files_name(folder_path)]; [listdir] is what
    [os.listdir(folder_path)] returns or raises. *)
Definition get_files_name (listdir : outcome (list string)) : M (list string) :=
  try_except
    (names ← call listdir;
     mret (List.filter (fun filename => in_list (lower (suffix filename)) searching_files_extensions)
             names))
    (fun e =>
       logging ERROR (if String.eqb e "FileNotFoundError" then "Folder not found"
                      else if String.eqb e "PermissionError" then "Permission denied"
                      else "Other error") ;;
       mret []).

End ImageUtils.

(** ** [main.py]: the keywords handed to the search *)

Module Main.
Import PyStr Re SearchUtils Py GeneralUtils.

(** [rf"(?i){re.escape(term)}[:\s-]*(\S+)"] *)
Definition keyword_regex (term : string) : regex :=
  seq [escape term;
       Star (CSet false [CChr ":"; CCat false CatSpace; CChr "-"]);
       Grp (Plus (CSet false [CCat true CatSpace]))].

(** The inner loop: [term_dict[term.lower()] = [regex]]. *)
Definition term_dict (patterns : list string) : list (string * list regex) :=
  fold_left (fun d term => dict_set (lower term) [keyword_regex term] d) patterns [].

(** [normalize_keywords(all_keywords)] *)
Fixpoint normalize_keywords_loop (items : list (string * keywords))
    (normalized : list (string * keywords)) : M (list (string * keywords)) :=
  match items with
  | [] => mret normalized
  | (doc_type, patterns) :: items' =>
      match patterns with
      | KwList l => normalize_keywords_loop items' (dict_set doc_type (KwDict (term_dict l)) normalized)
      | KwDict d => normalize_keywords_loop items' (dict_set doc_type (KwDict d) normalized)
      | KwOther =>
          logging WARNING "Doc type has invalid format" ;;
          normalize_keywords_loop items' (dict_set doc_type (KwDict []) normalized)
      end
  end.

Definition normalize_keywords (all_keywords : list (string * keywords))
    : M (list (string * keywords)) :=
  normalize_keywords_loop all_keywords [].

(** [patterns = all_keywords.get(args.doc_type, {})] of [main], as the
    search reads it. *)
Definition doc_patterns (all_keywords : list (string * keywords)) (doc : string) : patterns_t :=
  match dict_get all_keywords doc with
  | Some (KwDict d) => Some (list_to_map d)
  | _ => None
  end.

End Main.

(** * Properties *)

(** ** Strings and literal patterns *)

Module StrProps.
Import PyStr Re.

Lemma app_empty (s : string) : EmptyString +:+ s = s.
Proof. reflexivity. Qed.

Lemma app_cons (c : ascii) (a b : string) : String c a +:+ b = String c (a +:+ b).
Proof. reflexivity. Qed.

Lemma lower_app (a b : string) : lower (a +:+ b) = lower a +:+ lower b.
Proof.
  induction a as [|c a IH]; [reflexivity|].
  rewrite app_cons. simpl. now rewrite IH, app_cons.
Qed.

Lemma starts_with_app (p s : string) : starts_with p (p +:+ s) = true.
Proof.
  induction p as [|c p IH]; [reflexivity|].
  rewrite app_cons. simpl. now rewrite Ascii.eqb_refl, IH.
Qed.

Lemma contains_unfold (needle hay : string) :
  contains needle hay =
  starts_with needle hay ||
  match hay with EmptyString => false | String _ hay' => contains needle hay' end.
Proof. destruct hay; reflexivity. Qed.

Lemma contains_app (pre mid post : string) :
  contains mid (pre +:+ mid +:+ post) = true.
Proof.
  induction pre as [|c pre IH].
  - rewrite app_empty, contains_unfold, starts_with_app. reflexivity.
  - rewrite app_cons, contains_unfold, IH. apply orb_true_r.
Qed.

(** A case-insensitive literal occurrence of [term] in [text]: a slice
    of the text with the same lowercase form. *)
Definition occurs_in (term text : string) : Prop :=
  ∃ pre mid post, text = pre +:+ mid +:+ post ∧ lower mid = lower term.

(** Occurrence is decided by the substring test on the lowercase forms. *)
Lemma occurs_in_contains (term text : string) :
  occurs_in term text → contains (lower term) (lower text) = true.
Proof.
  intros (pre & mid & post & -> & Hmid).
  rewrite !lower_app, Hmid. apply contains_app.
Qed.

(** Whatever way the escaped term matches at the cursor, the text at the
    cursor starts with a slice that equals the term up to case. *)
Lemma mre_escape (term : string) (s : mstate) (k : mstate → option mstate) (r : mstate) :
  mre IGNORECASE (escape term) s k = Some r →
  ∃ mid post, rest s = mid +:+ post ∧ lower mid = lower term.
Proof.
  revert s k. induction term as [|c term IH]; intros s k H.
  - exists EmptyString, (rest s). split; reflexivity.
  - simpl in H. unfold one in H.
    destruct (rest s) as [|x tl] eqn:Hrest; [discriminate|].
    destruct (lit_eq IGNORECASE c x) eqn:Hlit; [|discriminate].
    apply IH in H. destruct H as (mid & post & Htl & Hmid). simpl in Htl.
    exists (String x mid), post. split.
    + now rewrite app_cons, Htl.
    + simpl. rewrite Hmid. f_equal.
      unfold lit_eq in Hlit. simpl in Hlit. now apply Ascii.eqb_eq in Hlit.
Qed.

Lemma search_from_escape (term : string) (ma : bool) (pos : nat) (pv : option ascii)
    (s : string) (m : rmatch) :
  search_from IGNORECASE (escape term) ma pos pv s = Some m → occurs_in term s.
Proof.
  revert ma pos pv. induction s as [|c s IH]; intros ma pos pv H; simpl in H.
  - destruct (match_at IGNORECASE (escape term) ma pv EmptyString) eqn:Hm; [|discriminate].
    unfold match_at in Hm. apply mre_escape in Hm.
    destruct Hm as (mid & post & Hrest & Hmid). simpl in Hrest.
    exists EmptyString, mid, post. split; [exact Hrest | exact Hmid].
  - destruct (match_at IGNORECASE (escape term) ma pv (String c s)) eqn:Hm.
    + unfold match_at in Hm. apply mre_escape in Hm.
      destruct Hm as (mid & post & Hrest & Hmid). simpl in Hrest.
      exists EmptyString, mid, post. split; [exact Hrest | exact Hmid].
    + apply IH in H. destruct H as (pre & mid & post & -> & Hmid).
      exists (String c pre), mid, post. split; [reflexivity | exact Hmid].
Qed.

(** [re.search(re.escape(term), text, re.IGNORECASE)] finds nothing in a
    text that has no occurrence of the term. *)
Lemma search_escape_none (term text : string) :
  ¬ occurs_in term text → search IGNORECASE (escape term) text = None.
Proof.
  intros Hno. destruct (search IGNORECASE (escape term) text) as [m|] eqn:H; [|reflexivity].
  exfalso. apply Hno. eapply search_from_escape. exact H.
Qed.

(** The character before the cursor once [mid] has been read. *)
Fixpoint last_chr (pv : option ascii) (mid : string) : option ascii :=
  match mid with
  | EmptyString => pv
  | String c mid' => last_chr (Some c) mid'
  end.

Lemma length_app (a b : string) : String.length (a +:+ b) = String.length a + String.length b.
Proof. induction a as [|c a IH]; [reflexivity|]. rewrite app_cons. simpl. now rewrite IH. Qed.

Lemma take_app (a b : string) :
  take (String.length (a +:+ b) - String.length b) (a +:+ b) = a.
Proof.
  rewrite length_app. replace (String.length a + String.length b - String.length b)
    with (String.length a) by lia.
  induction a as [|c a IH]; [destruct b; reflexivity|].
  rewrite app_cons. simpl. now rewrite IH.
Qed.

(** On a text that starts with a slice equal to the term up to case, the
    escaped term matches exactly that slice. *)
Lemma mre_escape_exact (term : string) (s : mstate) (k : mstate → option mstate)
    (mid post : string) :
  rest s = mid +:+ post → lower mid = lower term →
  mre IGNORECASE (escape term) s k = k (MState (last_chr (prev s) mid) post (grp s)).
Proof.
  revert s mid. induction term as [|c term IH]; intros s mid Hrest Hmid.
  - destruct mid; [|discriminate]. destruct s. simpl in *. now subst.
  - destruct mid as [|x mid]; [discriminate|]. simpl in Hmid. injection Hmid as Hx Hmid.
    rewrite app_cons in Hrest. simpl. unfold one. rewrite Hrest.
    unfold lit_eq. simpl. rewrite Hx, Ascii.eqb_refl.
    now rewrite (IH (adv s x (mid +:+ post)) mid eq_refl Hmid).
Qed.

(** A text with an occurrence of the term has a match, and what matched
    equals the term up to case. *)
Lemma search_from_escape_found (term : string) (pos : nat) (pv : option ascii)
    (pre mid post : string) :
  lower mid = lower term →
  ∃ m, search_from IGNORECASE (escape term) false pos pv (pre +:+ mid +:+ post) = Some m ∧
       lower (m_group0 m) = lower term.
Proof.
  intros Hmid. revert pos pv.
  assert (Hhere : ∀ pv s st, match_at IGNORECASE (escape term) false pv s = Some st →
            lower (take (String.length s - String.length (rest st)) s) = lower term).
  { intros pv s st Hm. unfold match_at in Hm.
    destruct (mre_escape _ _ _ _ Hm) as (mid' & post' & Hrest & Hmid').
    rewrite (mre_escape_exact term _ _ mid' post' Hrest Hmid') in Hm. simpl in Hm, Hrest.
    injection Hm as <-. simpl. subst s. now rewrite take_app. }
  induction pre as [|c pre IH]; intros pos pv.
  - rewrite app_empty.
    destruct (match_at IGNORECASE (escape term) false pv (mid +:+ post)) as [st|] eqn:Hm.
    + exists (RMatch pos (take (String.length (mid +:+ post) - String.length (rest st)) (mid +:+ post))
                (grp st) (prev st) (rest st)).
      split; [|exact (Hhere _ _ _ Hm)].
      destruct (mid +:+ post); simpl; now rewrite Hm.
    + unfold match_at in Hm.
      rewrite (mre_escape_exact term (MState pv (mid +:+ post) None) _ mid post eq_refl Hmid)
        in Hm.
      discriminate.
  - rewrite app_cons. simpl.
    destruct (match_at IGNORECASE (escape term) false pv (String c (pre +:+ mid +:+ post)))
      as [st|] eqn:Hm.
    + eexists. split; [reflexivity|]. exact (Hhere _ _ _ Hm).
    + apply IH.
Qed.

End StrProps.

(** ** [searching], [serial_number] and [chained_search] *)

Module SearchProps.
Import PyStr Re SearchUtils StrProps.

Lemma proximity_pair (term text : string) : ∃ k v, proximity term text = Pair k v.
Proof.
  unfold proximity.
  destruct (search IGNORECASE (escape term) text) as [m|]; [|eauto].
  destruct (search IGNORECASE_DOTALL _ text) as [a|]; [|eauto].
  destruct (first_value _ _); eauto.
Qed.

(** Without [return_all] the pattern loop never extends [results]. *)
Lemma first_or_all_one_inr (fl : flags) (l : list regex) (text : string)
    (res res' : list string) :
  first_or_all fl l text false res = inr res' →
  res' = res ∧ Forall (fun r => findall fl r text = []) l.
Proof.
  induction l as [|r l IH]; simpl; intros H.
  - split; [congruence | constructor].
  - destruct (findall fl r text) eqn:E; [|discriminate].
    destruct (IH H) as [-> Hall]. split; [reflexivity | now constructor].
Qed.

(** Without [return_all] the early return is the first match of the
    first pattern, in list order, that matches at all. *)
Lemma first_or_all_one_inl (fl : flags) (l : list regex) (text : string)
    (res : list string) (m : string) :
  first_or_all fl l text false res = inl m →
  ∃ i r ms, l !! i = Some r ∧ findall fl r text = m :: ms ∧
            ∀ j r', j < i → l !! j = Some r' → findall fl r' text = [].
Proof.
  induction l as [|r l IH]; simpl; intros H; [discriminate|].
  destruct (findall fl r text) as [|m0 ms] eqn:E.
  - destruct (IH H) as (i & r0 & ms & Hi & Hm & Hbefore).
    exists (S i), r0, ms. split; [exact Hi|]. split; [exact Hm|].
    intros [|j] r' Hj Hr'; simpl in Hr'.
    + congruence.
    + apply (Hbefore j r'); [lia | exact Hr'].
  - injection H as ->. exists 0, r, ms. split; [reflexivity|]. split; [exact E|].
    intros j r' Hj. lia.
Qed.

(** With [return_all] the loop collects the matches of every pattern. *)
Lemma first_or_all_all (fl : flags) (l : list regex) (text : string) (res : list string) :
  first_or_all fl l text true res = inr (res ++ concat (map (fun r => findall fl r text) l)).
Proof.
  revert res. induction l as [|r l IH]; intros res; simpl.
  - now rewrite app_nil_r.
  - destruct (findall fl r text) as [|m0 ms] eqn:E.
    + apply IH.
    + rewrite IH, <- app_assoc. reflexivity.
Qed.

(** Called without [return_all], [searching] returns a tuple. *)
Lemma searching_pair (term text : string) (patterns : patterns_t) :
  ∃ k v, searching term text patterns false = Pair k v.
Proof.
  unfold searching. destruct (bound_patterns patterns (lower term)) as [l|].
  - destruct (first_or_all IGNORECASE_DOTALL l text false []) as [m|res] eqn:E; [eauto|].
    apply first_or_all_one_inr in E. destruct E as [-> _]. apply proximity_pair.
  - apply proximity_pair.
Qed.

(** C5. For every term and every text with no (case-insensitive, literal)
    occurrence of the term, [searching(term, text)] returns [(None, None)]. *)
Theorem searching_no_occurrence (term text : string) (return_all : bool) :
  ¬ occurs_in term text → searching term text None return_all = Pair None None.
Proof.
  intros Hno. unfold searching, bound_patterns, proximity.
  now rewrite (search_escape_none term text Hno).
Qed.

Lemma searching_no_occurrence_witness :
  ¬ occurs_in "nit" "Total: 45.99 EUR" ∧
  searching "nit" "Total: 45.99 EUR" None false = Pair None None.
Proof.
  assert (H : ¬ occurs_in "nit" "Total: 45.99 EUR").
  { intros H. apply occurs_in_contains in H. vm_compute in H. discriminate H. }
  split; [exact H | exact (searching_no_occurrence "nit" "Total: 45.99 EUR" false H)].
Defined.

(** The other direction: a term that occurs is found, and the key
    returned is the slice of the text that matched. *)
Lemma searching_occurrence (term text : string) (return_all : bool) :
  occurs_in term text →
  ∃ key value, searching term text None return_all = Pair (Some key) value ∧
               lower key = lower term.
Proof.
  intros (pre & mid & post & -> & Hmid).
  destruct (search_from_escape_found term 0 None pre mid post Hmid) as (m & Hm & Hkey).
  unfold searching, bound_patterns, proximity, search. rewrite Hm.
  destruct (search_from IGNORECASE_DOTALL _ _ _ _ _) as [a|]; [|eauto].
  destruct (first_value _ _); eauto.
Qed.

(** The converse reading: a custom pattern can return a value for a term
    that does not occur, which is why the property is about the call
    without patterns. *)
Example searching_pattern_without_occurrence :
  searching "nit" "id 900" (Some {[ "nit" := [Seq (escape "id ") (Grp (Plus digit))] ]}) false
  = Pair (Some "nit") (Some "900").
Proof. vm_compute. reflexivity. Qed.

(** Patterns that match nothing add nothing to the flat list. *)
Lemma concat_matching (found : regex → list string) (l : list regex) :
  concat (map found l) = concat (map found (filter (fun r => found r ≠ []) l)).
Proof.
  induction l as [|r l IH]; [reflexivity|].
  rewrite filter_cons. simpl. destruct (decide (found r ≠ [])) as [Hr|Hr].
  - simpl. now rewrite IH.
  - destruct (found r) as [|m ms] eqn:Er; [exact IH | exfalso; apply Hr; discriminate].
Qed.

(** C10. With [return_all] and custom patterns bound to the term: when a
    pattern matches, [searching] returns the flat list of the matches of
    all the patterns that match, in order; when none matches it is the
    proximity heuristic that answers, with a tuple. *)
Theorem searching_return_all (term text : string) (patterns : patterns_t)
    (regex_list : list regex) :
  bound_patterns patterns (lower term) = Some regex_list →
  let found := fun r => findall IGNORECASE_DOTALL r text in
  (Exists (fun r => found r ≠ []) regex_list →
     searching term text patterns true
     = Matches (concat (map found (filter (fun r => found r ≠ []) regex_list)))) ∧
  (Forall (fun r => found r = []) regex_list →
     searching term text patterns true = proximity term text ∧
     ∃ k v, searching term text patterns true = Pair k v).
Proof.
  intros Hbound found.
  pose proof (concat_matching found regex_list) as Hflat.
  unfold searching. rewrite Hbound, first_or_all_all. simpl. fold found. split.
  - intros Hex. rewrite <- Hflat.
    destruct (concat (map found regex_list)) as [|m ms] eqn:E; [|reflexivity].
    exfalso. apply Exists_exists in Hex. destruct Hex as (r & Hin & Hr).
    apply Hr. apply list_elem_of_split in Hin. destruct Hin as (l1 & l2 & ->).
    rewrite map_app, concat_app in E. simpl in E.
    apply app_eq_nil in E. destruct E as [_ E]. now apply app_eq_nil in E.
  - intros Hall.
    assert (E : concat (map found regex_list) = []).
    { clear Hflat Hbound. induction Hall as [|r l Hr _ IH]; [reflexivity|].
      simpl. unfold found in *. now rewrite Hr, IH. }
    rewrite E. split; [reflexivity | apply proximity_pair].
Qed.

Lemma searching_return_all_witness :
  let patterns := Some {[ "ref" := [Seq (escape "ref ") (Grp (Plus digit)); Seq (escape "zz") (Grp Dot);
                                     Seq (escape "no. ") (Grp (Plus digit))] ]} in
  bound_patterns patterns (lower "REF") = Some [Seq (escape "ref ") (Grp (Plus digit)); Seq (escape "zz") (Grp Dot);
                                                Seq (escape "no. ") (Grp (Plus digit))] ∧
  searching "REF" "ref 12, Ref 34, no. 5" patterns true = Matches ["12"; "34"; "5"].
Proof.
  split; [reflexivity|].
  pose proof (searching_return_all "REF" "ref 12, Ref 34, no. 5"
                (Some {[ "ref" := [Seq (escape "ref ") (Grp (Plus digit)); Seq (escape "zz") (Grp Dot);
                                   Seq (escape "no. ") (Grp (Plus digit))] ]}) _ eq_refl) as [H _].
  rewrite H.
  - vm_compute. reflexivity.
  - apply Exists_cons_hd. vm_compute. discriminate.
Defined.

(** C4. With [n = 0] and trace mode off, [chained_search] returns exactly
    what one call of [searching] on the same term, text and patterns
    returns. *)
Theorem chained_search_zero_hops (term text : string) (patterns : patterns_t) :
  chained_search term text 0 false patterns = Single (searching term text patterns false).
Proof.
  unfold chained_search, chained_search_run.
  rewrite Z.eqb_refl. reflexivity.
Qed.

(** The early return at [n == 0] does not look at the trace flag. *)
Lemma chained_search_zero_hops_trace (term text : string) (patterns : patterns_t) :
  chained_search term text 0 true patterns = Single (searching term text patterns false).
Proof. reflexivity. Qed.

(** The hops of a chained search that starts from a term with a budget of
    turns: the successful [(key, value)] hops in order, and the terms
    searched for.  A turn searches for the current term; it ends the run
    when the search gives no key or no value, and otherwise the value
    becomes the current term. *)
Inductive hops_from (text : string) (patterns : patterns_t)
    : string → nat → list (string * string) → list string → Prop :=
  | hops_exhausted (term : string) :
      hops_from text patterns term 0 [] []
  | hops_stop (term : string) (budget : nat) (key value : option string) :
      searching term text patterns false = Pair key value →
      otruthy key && otruthy value = false →
      hops_from text patterns term (S budget) [] [term]
  | hops_step (term : string) (budget : nat) (key value : string)
      (hops : list (string * string)) (terms : list string) :
      searching term text patterns false = Pair (Some key) (Some value) →
      truthy key = true → truthy value = true →
      hops_from text patterns value budget hops terms →
      hops_from text patterns term (S budget) ((key, value) :: hops) (term :: terms).

(** The value of the last hop, or [d] when there is none. *)
Definition last_value (d : option string) (hops : list (string * string)) : option string :=
  match last hops with
  | Some kv => Some kv.2
  | None => d
  end.

Lemma last_value_cons (d : option string) (kv : string * string) (hops : list (string * string)) :
  last_value d (kv :: hops) = last_value (Some kv.2) hops.
Proof.
  unfold last_value. destruct hops as [|kv' hops]; [reflexivity|].
  rewrite last_cons_cons.
  destruct (last (kv' :: hops)) eqn:E; [reflexivity|].
  now apply last_None in E.
Qed.

(** At most one search per turn, and the searches are for the first term
    and then for the values resolved so far. *)
Lemma hops_from_terms (text : string) (patterns : patterns_t) (term : string) (budget : nat)
    (hops : list (string * string)) (terms : list string) :
  hops_from text patterns term budget hops terms →
  length terms = min (S (length hops)) budget ∧
  terms = firstn (length terms) (term :: map snd hops).
Proof.
  induction 1 as [term | term budget key value Hs Hf
                 | term budget key value hops terms Hs Hk Hv Hrest [IHlen IHterms]].
  - split; reflexivity.
  - split; reflexivity.
  - simpl. split; [now rewrite IHlen|].
    f_equal. exact IHterms.
Qed.

(** Every hop resolved a value that is not empty. *)
Lemma hops_from_last_truthy (text : string) (patterns : patterns_t) (term : string)
    (budget : nat) (hops : list (string * string)) (terms : list string) (d : option string) :
  hops_from text patterns term budget hops terms →
  otruthy (last_value d hops) = match hops with [] => otruthy d | _ => true end.
Proof.
  intros H. revert d.
  induction H as [term | term budget key value Hs Hf
                 | term budget key value hops terms Hs Hk Hv Hrest IH]; intros d.
  - reflexivity.
  - reflexivity.
  - rewrite last_value_cons, IH. simpl. destruct hops; [exact Hv | reflexivity].
Qed.

(** The loop of [chained_search] performs exactly these hops. *)
Lemma chain_loop_hops (text : string) (patterns : patterns_t) (fuel : nat) (st : chain_state) :
  ∃ hops terms,
    hops_from text patterns (current_term st) fuel hops terms ∧
    chain (chain_loop fuel text patterns st) = chain st ++ hops ∧
    searched (chain_loop fuel text patterns st) = searched st ++ terms ∧
    current_value (chain_loop fuel text patterns st) = last_value (current_value st) hops.
Proof.
  revert st. induction fuel as [|fuel IH]; intros st.
  - exists [], []. simpl. rewrite !app_nil_r. repeat split. constructor.
  - simpl.
    destruct (searching_pair (current_term st) text patterns) as (k & v & Hs). rewrite Hs.
    assert (Hstop : otruthy k && otruthy v = false →
      ∃ hops terms,
        hops_from text patterns (current_term st) (S fuel) hops terms ∧
        chain st = chain st ++ hops ∧
        searched st ++ [current_term st] = searched st ++ terms ∧
        current_value st = last_value (current_value st) hops).
    { intros Hf. exists [], [current_term st]. rewrite app_nil_r. repeat split.
      econstructor 2; eassumption. }
    destruct k as [key|]; [|apply Hstop; reflexivity].
    destruct v as [value|]; [|apply Hstop; apply andb_false_r].
    destruct (truthy key && truthy value) eqn:Ht; [|apply Hstop; exact Ht].
    apply andb_prop in Ht. destruct Ht as [Hk Hv].
    destruct (IH (ChainState value (Some value) (chain st ++ [(key, value)])
                    (searched st ++ [current_term st])))
      as (hops & terms & Hh & Hc & Hsr & Hcv).
    simpl in *. exists ((key, value) :: hops), (current_term st :: terms).
    rewrite Hc, Hsr, Hcv, <- !app_assoc. repeat split.
    + econstructor 3; eassumption.
    + now rewrite last_value_cons.
Qed.

(** C3. With a hop bound [n >= 1], [chained_search] makes at most [n]
    turns; each searches for the current term (the initial term, then the
    value resolved by the turn before) and the first turn whose search
    gives no key or no value is the last; without trace mode the result is
    the initial term with the last resolved value when a hop succeeded and
    [(None, None)] when none did (in trace mode it is the list of hops). *)
Theorem chained_search_hops (initial_term text : string) (n : Z) (patterns : patterns_t) :
  (1 ≤ n)%Z →
  ∃ hops terms,
    hops_from text patterns initial_term (Z.to_nat n) hops terms ∧
    length terms ≤ Z.to_nat n ∧
    terms = firstn (length terms) (initial_term :: map snd hops) ∧
    chained_search_run initial_term text n false patterns
    = (Single (match last hops with
               | Some kv => Pair (Some initial_term) (Some kv.2)
               | None => Pair None None
               end), terms) ∧
    chained_search initial_term text n true patterns = Chain hops.
Proof.
  intros Hn.
  destruct (chain_loop_hops text patterns (Z.to_nat n) (ChainState initial_term None [] []))
    as (hops & terms & Hh & Hc & Hsr & Hcv).
  simpl in *. exists hops, terms.
  destruct (hops_from_terms _ _ _ _ _ _ Hh) as [Hlen Hterms].
  split; [exact Hh|]. split; [lia|]. split; [exact Hterms|].
  unfold chained_search, chained_search_run.
  destruct (Z.eqb_spec n 0) as [->|_]; [lia|]. simpl.
  rewrite Hc, Hsr, Hcv. split; [|reflexivity].
  rewrite (hops_from_last_truthy _ _ _ _ _ _ None Hh).
  unfold last_value. destruct hops as [|kv hops]; [reflexivity|].
  destruct (last (kv :: hops)) as [kv'|] eqn:E; [reflexivity|].
  now apply last_None in E.
Qed.

Lemma chained_search_hops_witness :
  (1 ≤ 5)%Z ∧
  ∃ hops terms,
    hops_from "owner: acme acme: 42" None "owner" (Z.to_nat 5) hops terms ∧
    length terms ≤ Z.to_nat 5 ∧
    terms = firstn (length terms) ("owner" :: map snd hops) ∧
    chained_search_run "owner" "owner: acme acme: 42" 5 false None
    = (Single (match last hops with
               | Some kv => Pair (Some "owner") (Some kv.2)
               | None => Pair None None
               end), terms) ∧
    chained_search "owner" "owner: acme acme: 42" 5 true None = Chain hops.
Proof.
  split; [lia|]. apply (chained_search_hops "owner" "owner: acme acme: 42" 5 None). lia.
Defined.

(** X21. Without custom ["serial"] patterns, [serial_number] tries the
    labels of [serial_words] in list order and returns the first match of
    the first label that matches; it returns [None] exactly when no label
    matches. *)
Lemma serial_number_words (text : string) (patterns : patterns_t) :
  bound_patterns patterns "serial" = None →
  let found := fun w => findall IGNORECASE (serial_regex w) text in
  match serial_number text patterns false with
  | SOne m =>
      ∃ i w ms, serial_words !! i = Some w ∧ found w = m :: ms ∧
                ∀ j w', j < i → serial_words !! j = Some w' → found w' = []
  | SNone => Forall (fun w => found w = []) serial_words
  | SAll _ => False
  end.
Proof.
  intros Hb found. unfold serial_number. rewrite Hb.
  destruct (first_or_all IGNORECASE (map serial_regex serial_words) text false []) as [m|res] eqn:E.
  - apply first_or_all_one_inl in E. destruct E as (i & r & ms & Hi & Hm & Hbefore).
    change (map serial_regex serial_words) with (serial_regex <$> serial_words) in *.
    rewrite list_lookup_fmap in Hi.
    destruct (serial_words !! i) as [w|] eqn:Hw; [|discriminate].
    injection Hi as <-. exists i, w, ms. split; [exact Hw|]. split; [exact Hm|].
    intros j w' Hj Hw'. apply (Hbefore j (serial_regex w') Hj).
    now rewrite list_lookup_fmap, Hw'.
  - apply first_or_all_one_inr in E. destruct E as [-> Hall]. simpl.
    change (map serial_regex serial_words) with (serial_regex <$> serial_words) in Hall.
    now apply Forall_fmap in Hall.
Qed.

Lemma serial_number_words_witness :
  bound_patterns None "serial" = None ∧
  match serial_number "Folio 77, serie B-2" None false with
  | SOne m =>
      ∃ i w ms, serial_words !! i = Some w ∧
                findall IGNORECASE (serial_regex w) "Folio 77, serie B-2" = m :: ms ∧
                ∀ j w', j < i → serial_words !! j = Some w' →
                        findall IGNORECASE (serial_regex w') "Folio 77, serie B-2" = []
  | SNone =>
      Forall (fun w => findall IGNORECASE (serial_regex w) "Folio 77, serie B-2" = [])
        serial_words
  | SAll _ => False
  end.
Proof.
  split; [reflexivity|].
  exact (serial_number_words "Folio 77, serie B-2" None eq_refl).
Defined.

(** C6. The vocabulary that [serial_number] iterates is the second list
    assigned to [serial_words].  The labels "invoice" and "order number"
    stand in the first list only, which is overwritten before it is read:
    a text that the pattern of such a label matches yields [None]. *)
Theorem serial_number_invoice_label :
  ("invoice" ∈ serial_words_first) ∧ ("order number" ∈ serial_words_first) ∧
  ("invoice" ∉ serial_words) ∧ ("order number" ∉ serial_words) ∧
  findall IGNORECASE (serial_regex "invoice") "invoice: 12345" = ["12345"] ∧
  serial_number "invoice: 12345" None false = SNone ∧
  findall IGNORECASE (serial_regex "order number") "order number: A-77" = ["A-77"] ∧
  serial_number "order number: A-77" None false = SNone.
Proof.
  repeat split;
    try (apply (bool_decide_unpack _); vm_compute; exact I);
    vm_compute; reflexivity.
Qed.

(** The labels the specification names that the second list keeps are
    matched. *)
Example serial_number_kept_labels :
  map (fun text => serial_number text None false)
    ["Serie: A-1"; "FOLIO 77"; "factura # F/2024-9"; "Reference - X9"]
  = [SOne "A-1"; SOne "77"; SOne "F/2024-9"; SOne "X9"].
Proof. vm_compute. reflexivity. Qed.

(** With both a comma and a point in the string the commas are dropped,
    whichever of the two comes first. *)
Lemma normalize_number_commas_dropped (num_str : string) :
  has_chr "," (replace_chr " " EmptyString num_str) = true →
  has_chr "." (replace_chr " " EmptyString num_str) = true →
  normalize_number num_str
  = match PyFloat.float_of_str
            (replace_chr "," EmptyString (replace_chr " " EmptyString num_str)) with
    | Some f => NFloat f
    | None => NStr (replace_chr "," EmptyString (replace_chr " " EmptyString num_str))
    end.
Proof. intros Hc Hp. unfold normalize_number. now rewrite Hc, Hp. Qed.

(** C1, as stated, fails on its first example: the commas of "1.234,56"
    are dropped, which leaves "1.23456", and the result is that float,
    not 1234.56. *)
Lemma normalize_number_european_counterexample :
  normalize_number "1.234,56" = NFloat 1.23456%float ∧
  normalize_number "1.234,56" ≠ NFloat 1234.56%float.
Proof.
  split; [vm_compute; reflexivity|].
  intros H.
  apply (f_equal (fun x => match x with
                           | NFloat f => PrimFloat.ltb f 2%float
                           | NStr _ => false
                           end)) in H.
  vm_compute in H. discriminate H.
Qed.

(** C1 (amended). [normalize_number] applied to "1.234,56" returns the
    float 1.23456; applied to "1,234.56" it returns the float 1234.56; and
    applied to "abc" it returns the string unchanged. *)
Theorem normalize_number_examples :
  normalize_number "1.234,56" = NFloat 1.23456%float ∧
  normalize_number "1,234.56" = NFloat 1234.56%float ∧
  normalize_number "abc" = NStr "abc".
Proof. repeat split; vm_compute; reflexivity. Qed.

(** A lone comma is a decimal comma. *)
Example normalize_number_decimal_comma : normalize_number "50,5" = NFloat 50.5%float.
Proof. vm_compute. reflexivity. Qed.

End SearchProps.

(** ** [final_dict] *)

Module AggregateProps.
Import PyStr SearchUtils.

(** What a result contributes: its key and its normalized value, when it
    has both. *)
Definition entry (r : gmap string pyval) : option (string * normalized) :=
  match get r "Key", get r "Value" with
  | PStr k, PStr v => Some (k, normalize_number v)
  | _, _ => None
  end.

(** The numeric values recorded under a key, in the order of the results. *)
Definition numbers_of (key : string) (results : list (gmap string pyval)) : list float :=
  omap (fun r => match entry r with
                 | Some (k, NFloat f) => if decide (k = key) then Some f else None
                 | _ => None
                 end) results.

(** The non-numeric values recorded under a key, in the order of the results. *)
Definition strings_of (key : string) (results : list (gmap string pyval)) : list string :=
  omap (fun r => match entry r with
                 | Some (k, NStr s) => if decide (k = key) then Some s else None
                 | _ => None
                 end) results.

(** One turn of the loop, by what the result contributes. *)
Lemma final_step_entry (acc : gmap string float * gmap string (gset string))
    (r : gmap string pyval) :
  final_step acc r =
  match entry r with
  | Some (k, NFloat f) =>
      (<[k := PrimFloat.add (default PrimFloat.zero (acc.1 !! k)) f]> (acc.1), acc.2)
  | Some (k, NStr s) => (acc.1, <[k := default ∅ (acc.2 !! k) ∪ {[s]}]> (acc.2))
  | None => acc
  end.
Proof.
  unfold final_step, entry.
  destruct (get r "Key") as [|k]; [reflexivity|].
  destruct (get r "Value") as [|v]; [reflexivity|].
  destruct (normalize_number v); reflexivity.
Qed.

(** The running sum of a key: the values added one after the other to
    what the accumulator held (or to [0.0]). *)
Lemma fold_sums (results : list (gmap string pyval)) (key : string)
    (acc : gmap string float * gmap string (gset string)) :
  (fold_left final_step results acc).1 !! key
  = match numbers_of key results with
    | [] => acc.1 !! key
    | fs => Some (fold_left PrimFloat.add fs (default PrimFloat.zero (acc.1 !! key)))
    end.
Proof.
  revert acc. induction results as [|r results IH]; intros acc; [reflexivity|].
  simpl. rewrite IH, final_step_entry. unfold numbers_of. simpl.
  fold (numbers_of key results).
  destruct (entry r) as [[k [f|s]]|]; simpl; try reflexivity.
  destruct (decide (k = key)) as [->|Hne]; simpl.
  - rewrite lookup_insert_eq. simpl. destruct (numbers_of key results); reflexivity.
  - now rewrite lookup_insert_ne.
Qed.

(** The set of a key: the strings added to what the accumulator held. *)
Lemma fold_strings (results : list (gmap string pyval)) (key : string)
    (acc : gmap string float * gmap string (gset string)) :
  (fold_left final_step results acc).2 !! key
  = match strings_of key results with
    | [] => acc.2 !! key
    | ss => Some (default ∅ (acc.2 !! key) ∪ list_to_set ss)
    end.
Proof.
  revert acc. induction results as [|r results IH]; intros acc; [reflexivity|].
  simpl. rewrite IH, final_step_entry. unfold strings_of. simpl.
  fold (strings_of key results).
  destruct (entry r) as [[k [f|s]]|]; simpl; try reflexivity.
  destruct (decide (k = key)) as [->|Hne]; simpl.
  - rewrite lookup_insert_eq. simpl. destruct (strings_of key results) as [|s' ss].
    + f_equal. rewrite list_to_set_nil. now rewrite !(right_id_L ∅ (∪)).
    + f_equal. now rewrite !list_to_set_cons, !(assoc_L (∪)).
  - now rewrite lookup_insert_ne.
Qed.

(** Results that lack a key or a value leave the accumulator as it is. *)
Lemma fold_skips (results : list (gmap string pyval))
    (acc : gmap string float * gmap string (gset string)) :
  fold_left final_step (filter (fun r => is_Some (entry r)) results) acc
  = fold_left final_step results acc.
Proof.
  revert acc. induction results as [|r results IH]; intros acc; [reflexivity|].
  rewrite filter_cons. destruct (decide (is_Some (entry r))) as [Hs|Hn]; simpl.
  - apply IH.
  - rewrite IH. f_equal. rewrite final_step_entry.
    destruct (entry r) as [e|]; [|reflexivity]. exfalso. apply Hn. eauto.
Qed.

(** The results of the example of the specification. *)
Definition example_result (key value : string) : gmap string pyval :=
  {[ "Key" := PStr key; "Value" := PStr value ]}.

Definition example_results : list (gmap string pyval) :=
  [example_result "total" "100"; example_result "total" "50,5"; example_result "total" "n/a"].

(** C7. For every result list and key: the summed map holds the sum of
    the key's normalized numeric values, added in order from [0.0] (and
    nothing when there is none); the strings map holds the key's distinct
    normalized non-numeric values; results without a key or without a
    value change nothing.  On the example the sum of "total" is [150.5]
    and its strings are [["n/a"]]. *)
Theorem final_dict_aggregates (results : list (gmap string pyval)) (key : string) :
  (final_dict results).1 !! key
  = match numbers_of key results with
    | [] => None
    | fs => Some (fold_left PrimFloat.add fs PrimFloat.zero)
    end
  ∧ match strings_of key results with
    | [] => (final_dict results).2 !! key = None
    | ss => ∃ l, (final_dict results).2 !! key = Some l ∧ NoDup l ∧ ∀ s, s ∈ l ↔ s ∈ ss
    end
  ∧ final_dict (filter (fun r => is_Some (entry r)) results) = final_dict results
  ∧ (final_dict example_results).1 !! "total" = Some 150.5%float
  ∧ (final_dict example_results).2 !! "total" = Some ["n/a"].
Proof.
  unfold final_dict. simpl. split; [|split; [|split; [|split]]].
  - rewrite fold_sums. simpl. reflexivity.
  - rewrite lookup_fmap, fold_strings. simpl.
    destruct (strings_of key results) as [|s0 ss]; [reflexivity|].
    eexists. split; [reflexivity|]. split; [apply NoDup_elements|].
    intros s. rewrite lookup_empty. simpl.
    rewrite elem_of_elements, (left_id_L ∅ (∪)), <- list_to_set_cons.
    apply elem_of_list_to_set.
  - now rewrite fold_skips.
  - vm_compute. reflexivity.
  - vm_compute. reflexivity.
Qed.

(** A result with no ["Value"], or whose ["Key"] is [None], is skipped. *)
Example final_dict_skips_incomplete :
  final_dict [ {[ "Key" := PStr "total" ]}; {[ "Key" := PNone; "Value" := PStr "7" ]};
               example_result "total" "7" ]
  = final_dict [example_result "total" "7"].
Proof. reflexivity. Qed.

(** Equal strings under one key collapse. *)
Example final_dict_duplicates :
  (final_dict [example_result "unit" "kg"; example_result "unit" "kg"]).2 !! "unit"
  = Some ["kg"].
Proof. vm_compute. reflexivity. Qed.

End AggregateProps.

(** ** [comparing_tables] and [fallback_table_extraction] *)

Module TableProps.
Import PyStr Py OcrUtils.

Section Dedupe.
Variable md5_repr : signature → string.

(** The hash [comparing_tables] computes for a table. *)
Definition sig_hash (t : table) : string := md5_repr (signature_of t).

(** The tables that survive, given the hashes seen so far. *)
Fixpoint unseen (seen : gset string) (tables : list table) : list table :=
  match tables with
  | [] => []
  | t :: tables' =>
      if decide (sig_hash t ∈ seen) then unseen seen tables'
      else t :: unseen (seen ∪ {[sig_hash t]}) tables'
  end.

Lemma dedupe_unseen (tables unique : list table) (seen : gset string) :
  dedupe md5_repr tables unique seen = unique ++ unseen seen tables.
Proof.
  revert unique seen. induction tables as [|t tables IH]; intros unique seen; simpl.
  - now rewrite app_nil_r.
  - fold (sig_hash t). destruct (decide (sig_hash t ∈ seen)); rewrite IH; [reflexivity|].
    now rewrite <- app_assoc.
Qed.

Lemma comparing_tables_unseen (tables : list table) :
  comparing_tables md5_repr tables = unseen ∅ tables.
Proof.
  destruct tables as [|t tables]; [reflexivity|].
  unfold comparing_tables. now rewrite dedupe_unseen.
Qed.

(** The survivors are tables of the input, in the order of the input. *)
Lemma unseen_sublist (seen : gset string) (tables : list table) :
  sublist (unseen seen tables) tables.
Proof.
  revert seen. induction tables as [|t tables IH]; intros seen; simpl; [constructor|].
  destruct (decide (sig_hash t ∈ seen)); [apply sublist_cons | apply sublist_skip]; apply IH.
Qed.

(** No survivor has a hash that was seen before. *)
Lemma unseen_fresh (seen : gset string) (tables : list table) (t : table) :
  t ∈ unseen seen tables → sig_hash t ∉ seen.
Proof.
  revert seen. induction tables as [|t0 tables IH]; intros seen; simpl.
  - intros H. now apply not_elem_of_nil in H.
  - destruct (decide (sig_hash t0 ∈ seen)) as [Hin|Hout]; [apply IH|].
    intros H. destruct (proj1 (elem_of_cons _ _ _) H) as [->|H']; [exact Hout|].
    apply IH in H'. intros Hs. apply H'. now apply elem_of_union_l.
Qed.

(** The survivors have pairwise different hashes. *)
Lemma unseen_NoDup (seen : gset string) (tables : list table) :
  NoDup (map sig_hash (unseen seen tables)).
Proof.
  revert seen. induction tables as [|t tables IH]; intros seen; simpl; [constructor|].
  destruct (decide (sig_hash t ∈ seen)); [apply IH|].
  simpl. constructor; [|apply IH].
  intros H. change (map sig_hash ?l) with (sig_hash <$> l) in H.
  destruct (list_elem_of_fmap_1 _ _ _ H) as (t' & Heq & Hin).
  apply unseen_fresh in Hin. rewrite <- Heq in Hin.
  apply Hin, elem_of_union_r, elem_of_singleton. reflexivity.
Qed.

(** A list of tables with different, unseen hashes survives whole. *)
Lemma unseen_id (seen : gset string) (tables : list table) :
  NoDup (map sig_hash tables) → (∀ t, t ∈ tables → sig_hash t ∉ seen) →
  unseen seen tables = tables.
Proof.
  revert seen. induction tables as [|t tables IH]; intros seen Hnd Hfresh; [reflexivity|].
  simpl in *. apply NoDup_cons in Hnd. destruct Hnd as [Hnotin Hnd].
  destruct (decide (sig_hash t ∈ seen)) as [Hin|_].
  - exfalso. apply (Hfresh t); [apply list_elem_of_here | exact Hin].
  - f_equal. apply IH; [exact Hnd|].
    intros t' Ht'. apply not_elem_of_union. split.
    + apply Hfresh. now apply list_elem_of_further.
    + intros Heq. apply elem_of_singleton in Heq. apply Hnotin.
      rewrite <- Heq. now apply (list_elem_of_fmap_2 sig_hash).
Qed.

(** For a table whose hash is unseen, the first table of the input with
    that hash survives. *)
Lemma unseen_first (seen : gset string) (tables : list table) (t : table) :
  t ∈ tables → sig_hash t ∉ seen →
  ∃ i t', list_find (fun x => sig_hash x = sig_hash t) tables = Some (i, t') ∧
          t' ∈ unseen seen tables.
Proof.
  revert seen. induction tables as [|t0 tables IH]; intros seen Hin Hfresh.
  - now apply not_elem_of_nil in Hin.
  - simpl.
    destruct (decide (sig_hash t0 = sig_hash t)) as [Heq|Hne].
    + exists 0, t0. split; [reflexivity|].
      destruct (decide (sig_hash t0 ∈ seen)) as [Hs|_]; [|apply list_elem_of_here].
      exfalso. apply Hfresh. now rewrite <- Heq.
    + destruct (proj1 (elem_of_cons _ _ _) Hin) as [->|Hin']; [congruence|].
      clear Hin. rename Hin' into Hin.
      destruct (decide (sig_hash t0 ∈ seen)) as [Hs|Hs].
      * destruct (IH seen Hin Hfresh) as (i & t' & Hfind & Hsurv).
        exists (S i), t'. rewrite Hfind. split; [reflexivity | exact Hsurv].
      * destruct (IH (seen ∪ {[sig_hash t0]}) Hin) as (i & t' & Hfind & Hsurv).
        { apply not_elem_of_union. split; [exact Hfresh|].
          intros Heq. apply elem_of_singleton in Heq. congruence. }
        exists (S i), t'. rewrite Hfind. split; [reflexivity | now apply list_elem_of_further].
Qed.

(** C8. [comparing_tables] is idempotent, and its result consists of
    tables of the input (the objects themselves), in the order of the
    input, one for each hash: the first table that has it. *)
Theorem comparing_tables_idempotent (tables : list table) :
  comparing_tables md5_repr (comparing_tables md5_repr tables)
  = comparing_tables md5_repr tables
  ∧ sublist (comparing_tables md5_repr tables) tables
  ∧ NoDup (map sig_hash (comparing_tables md5_repr tables))
  ∧ ∀ t, t ∈ tables →
      ∃ i t', list_find (fun x => sig_hash x = sig_hash t) tables = Some (i, t') ∧
              t' ∈ comparing_tables md5_repr tables.
Proof.
  rewrite !comparing_tables_unseen. split; [|split; [|split]].
  - apply unseen_id; [apply unseen_NoDup|]. intros t _. apply not_elem_of_empty.
  - apply unseen_sublist.
  - apply unseen_NoDup.
  - intros t Hin. apply unseen_first; [exact Hin | apply not_elem_of_empty].
Qed.

End Dedupe.

(** Two frames that differ in case and spacing only have one signature,
    and the second one is dropped whatever the hash function. *)
Example comparing_tables_normalizes (md5_repr : signature → string) :
  let a := Table 1 (Pandas (DataFrame ["Item"; "Total"] [["Pen"; " 99 "]])) in
  let b := Table 2 (Camelot (DataFrame [" item"; "TOTAL"] [["pen"; "99"]])) in
  comparing_tables md5_repr [a; b; a] = [a].
Proof.
  intros a b. unfold comparing_tables. simpl.
  change (signature_of b) with (signature_of a).
  destruct (decide (md5_repr (signature_of a) ∈ (∅ : gset string))) as [H|_];
    [now apply not_elem_of_empty in H|].
  destruct (decide (md5_repr (signature_of a) ∈ (∅ ∪ {[md5_repr (signature_of a)]} : gset string)))
    as [_|H]; [reflexivity|].
  exfalso. apply H. apply elem_of_union_r, elem_of_singleton. reflexivity.
Qed.

Section Fallback.
Variable E : engines.

Definition is_image (image_path : string) : bool :=
  in_list (lower (suffix image_path)) searching_files_extensions.

Definition is_pdf (image_path : string) : bool :=
  String.eqb (lower (suffix image_path)) ".pdf".

(** The PDF the engines are run on. *)
Definition pdf_path_of (image_path : string) : string :=
  if is_image image_path then with_suffix_pdf image_path else image_path.

(** The conversion of an image fails: the file is missing or drawing raises. *)
Definition conversion_fails (image_path : string) : Prop :=
  path_exists E image_path = false ∨
  ∃ exn, draw_pdf E image_path (with_suffix_pdf image_path) = Raise exn.

(** An engine fails: one of its two calls raises. *)
Definition engine_fails (read : flavor → outcome (option (list table))) : Prop :=
  (∃ exn, read Lattice = Raise exn) ∨ (∃ exn, read Stream = Raise exn).

Definition all_empty : gmap string (list table) := flavors_dict [] [] [] [].

Lemma flavors_dict_dom (a b c d : list table) :
  dom (flavors_dict a b c d)
  = ({["camelot_lattice"; "camelot_stream"; "tabula_lattice"; "tabula_stream"]} : gset string).
Proof.
  unfold flavors_dict. rewrite !dom_insert_L, dom_empty_L.
  apply set_eq. intros k. rewrite !elem_of_union, !elem_of_singleton, elem_of_empty. tauto.
Qed.

Lemma bind_ok {A B : Type} (a : A) (l : list log_record) (f : A → M B) :
  (Ok a, l) ≫= f = let '(r, l') := f a in (r, l ++ l').
Proof. reflexivity. Qed.

Lemma log_then_ret {A : Type} (lv : level) (message : string) (a : A) :
  (logging lv message ;; mret a) = ((Ok a, [(lv, message)]) : M A).
Proof. reflexivity. Qed.

Ltac run := unfold mbind, M_bind, bind, mret, M_ret, try_except, call, logging, raise; simpl.

(** The first step returns: the PDF, or [None] on the early returns. *)
Lemma pdf_for_returns (image_path : string) :
  ∃ pdf log, pdf_for E image_path = (Ok pdf, log) ∧
    (pdf = None ∨ pdf = Some (pdf_path_of image_path)) ∧
    (is_image image_path = false → is_pdf image_path = false →
       pdf = None ∧
       log = [(WARNING, "Unsupported file type for fallback_table_extraction")]) ∧
    (is_image image_path = true → conversion_fails image_path → pdf = None).
Proof.
  unfold pdf_for, pdf_path_of, conversion_fails, img_to_pdf.
  fold (is_image image_path). fold (is_pdf image_path).
  destruct (is_image image_path) eqn:Hi.
  - destruct (path_exists E image_path) eqn:Hex.
    + destruct (draw_pdf E image_path (with_suffix_pdf image_path)) as [[]|exn] eqn:Hd; run;
        rewrite ?Hd; simpl; eexists _, _; (split; [reflexivity|]);
        (split; [eauto|]); (split; [discriminate|]); intros _ [Hf|(exn' & Hf)];
        try discriminate; reflexivity.
    + run. eexists _, _. split; [reflexivity|]. split; [eauto|].
      split; [discriminate | reflexivity].
  - destruct (is_pdf image_path) eqn:Hp; run; eexists _, _; (split; [reflexivity|]);
      (split; [eauto|]); (split; [try discriminate; auto | discriminate]).
Qed.

(** The check for a scanned PDF returns, whatever PyMuPDF does. *)
Lemma is_scanned_returns (pdf_path : string) :
  ∃ scanned log,
    try_except (is_scanned_pdf E pdf_path)
      (fun e => logging WARNING "is_scanned_pdf failed" ;; mret false) = (Ok scanned, log).
Proof.
  unfold is_scanned_pdf.
  destruct (first_page_text E pdf_path) as [text|exn] eqn:Ht; run; rewrite ?Ht; simpl; eauto.
Qed.

(** Both flavors of an engine: two lists, empty when a call raised. *)
Lemma read_both_returns (read : flavor → outcome (option (list table))) (message : string) :
  ∃ lattice stream log, read_both read message = (Ok (lattice, stream), log) ∧
    (engine_fails read → lattice = [] ∧ stream = []).
Proof.
  unfold read_both, engine_fails.
  destruct (read Lattice) as [l|exn] eqn:Hl; [destruct (read Stream) as [s|exn] eqn:Hs|];
    run; rewrite ?Hl, ?Hs; simpl; eexists _, _, _; (split; [reflexivity|]).
  - intros [(exn & Hf)|(exn & Hf)]; discriminate.
  - auto.
  - auto.
Qed.

(** C9. For every path and whatever the engines do,
    [fallback_table_extraction] returns (it does not raise) a dict with
    exactly the four flavor keys, each bound to a list; for a path that is
    neither an image nor a PDF the four lists are empty and the log has
    the warning; when the conversion of an image fails the four lists are
    empty, and when an engine raises its two lists are empty. *)
Theorem fallback_table_extraction_total (image_path : string) :
  ∃ table_dict log,
    fallback_table_extraction E image_path = (Ok table_dict, log) ∧
    dom table_dict
    = ({["camelot_lattice"; "camelot_stream"; "tabula_lattice"; "tabula_stream"]} : gset string) ∧
    (is_image image_path = false → is_pdf image_path = false →
       table_dict = all_empty ∧
       (WARNING, "Unsupported file type for fallback_table_extraction") ∈ log) ∧
    (is_image image_path = true → conversion_fails image_path → table_dict = all_empty) ∧
    (engine_fails (camelot_read_pdf E (pdf_path_of image_path)) →
       table_dict !! "camelot_lattice" = Some [] ∧ table_dict !! "camelot_stream" = Some []) ∧
    (engine_fails (tabula_read_pdf E (pdf_path_of image_path)) →
       table_dict !! "tabula_lattice" = Some [] ∧ table_dict !! "tabula_stream" = Some []).
Proof.
  unfold fallback_table_extraction.
  destruct (pdf_for_returns image_path) as (pdf & log0 & Hpdf & Hwhich & Hunsup & Hconv).
  rewrite Hpdf. destruct Hwhich as [->| ->].
  - rewrite bind_ok. unfold mret, M_ret. cbv beta iota. eexists _, _. split; [reflexivity|]. split; [apply flavors_dict_dom|].
    split; [|split; [|split]]; try (intros; split; reflexivity); try reflexivity.
    intros Hi Hp. destruct (Hunsup Hi Hp) as [_ ->]. split; [reflexivity|].
    rewrite app_nil_r. apply list_elem_of_here.
  - set (pdf_path := pdf_path_of image_path) in *.
    destruct (is_scanned_returns pdf_path) as (scanned & log1 & Hscan).
    destruct (read_both_returns (camelot_read_pdf E pdf_path)
                "Error extracting tables with Camelot") as (cl & cs & log2 & Hcam & Hcamf).
    destruct (read_both_returns (tabula_read_pdf E pdf_path)
                "Error extracting tables with Tabula") as (tl & ts & log3 & Htab & Htabf).
    rewrite bind_ok, Hscan, bind_ok.
    destruct scanned; cbn [negb].
    + rewrite log_then_ret, bind_ok, Htab, bind_ok. unfold mret, M_ret. cbv beta iota.
      eexists _, _. split; [reflexivity|]. split; [apply flavors_dict_dom|].
      split; [intros Hi Hp; now destruct (Hunsup Hi Hp)|].
      split; [intros Hi Hf; now specialize (Hconv Hi Hf)|].
      split; [intros _; split; reflexivity|].
      intros Hf. destruct (Htabf Hf) as [-> ->]. split; reflexivity.
    + rewrite Hcam, bind_ok, Htab, bind_ok. unfold mret, M_ret. cbv beta iota.
      eexists _, _. split; [reflexivity|]. split; [apply flavors_dict_dom|].
      split; [intros Hi Hp; now destruct (Hunsup Hi Hp)|].
      split; [intros Hi Hf; now specialize (Hconv Hi Hf)|].
      split; [intros Hf; destruct (Hcamf Hf) as [-> ->]; split; reflexivity|].
      intros Hf. destruct (Htabf Hf) as [-> ->]. split; reflexivity.
Qed.

End Fallback.

End TableProps.

(** ** [extract_data_from_docs]: when the table fallback runs *)

Module DocProps.
Import PyStr Re SearchUtils Py OcrUtils GeneralUtils.

Section TermStep.
Variables (E : engines) (md5_repr : signature → string).
Variables (folder_path_ : path) (n : Z) (patterns : patterns_t).
Variables (image_name text : string) (serial : pyval).

(** The fallback adds its call to the calls made so far. *)
Lemma table_fallback_calls (dev : bool) (term : string) (st : state) :
  fallback_calls (table_fallback E md5_repr folder_path_ image_name serial term st)
  = fallback_calls st ++ [(image_name, term)].
Proof.
  unfold table_fallback.
  destruct (fallback_table_extraction E (path_join (str_of folder_path_) image_name)) as [[d|exn] log];
    reflexivity.
Qed.

(** Without trace mode, a term that chained search resolves is recorded
    once and the table fallback is not called for it. *)
Lemma term_step_resolved (st : state) (term key value : string) :
  chained_search term text n false patterns = Single (Pair (Some key) (Some value)) →
  truthy key = true → truthy value = true →
  term_step E md5_repr folder_path_ n false patterns image_name text serial st term
  = Ok (State (results st ++ [make_result image_name serial (lower (strip key)) value None])
              (fallback_calls st)).
Proof.
  intros Hs Hk Hv. unfold term_step. now rewrite Hs, Hk, Hv.
Qed.

(** In trace mode, a term that chained search resolves is recorded and
    the table fallback is called for it all the same: the [continue] of
    the other branch is missing. *)
Lemma term_step_resolved_trace (st : state) (term : string) (hop : string * string)
    (hops : list (string * string)) :
  chained_search term text n true patterns = Chain (hop :: hops) →
  ∃ st', term_step E md5_repr folder_path_ n true patterns image_name text serial st term = Ok st' ∧
         fallback_calls st' = fallback_calls st ++ [(image_name, term)].
Proof.
  intros Hs. unfold term_step. rewrite Hs.
  destruct (List.last hops hop) as [final_key final_value].
  eexists. split; [reflexivity|]. now rewrite (table_fallback_calls true).
Qed.

End TermStep.

(** A document whose text resolves the term, and engines that find a
    table with a "Total" column in its PDF. *)
Definition receipt_table : table :=
  Table 1 (Pandas (DataFrame ["Item"; "Total"] [["pen"; "99"]])).

Definition receipt_engines : engines :=
  Engines (fun _ => true) (fun _ _ => Ok tt) (fun _ => Ok "total: 45.99")
          (fun _ _ => Ok (Some [])) (fun _ _ => Ok (Some [receipt_table])).

(** A stand-in for the MD5 of the [repr]: the text of the signature. *)
Definition plain_hash (s : signature) : string :=
  match s with
  | SigFrame cols rws => join "," cols +:+ ";" +:+ join ";" (map (join ",") rws)
  | SigRepr repr => repr
  end.

(** What a result shows of itself. *)
Definition shown (r : gmap string pyval) : pyval * pyval * pyval :=
  (get r "Key", get r "Value", get r "Path").

(** C2. In trace mode the property fails.  The folder is the
    [pathlib.Path] "work", the document "doc.pdf" has the text
    "total: 45.99" and Tabula finds a table with a "Total" column in
    "work/doc.pdf": chained search resolves "total" from the text and the
    hop is recorded, and yet the table fallback is called for the same
    document and term and a row of the table is appended.  Without trace
    mode the same input records the one result and calls no fallback. *)
Theorem extract_data_trace_mode_falls_back :
  chained_search "total" "total: 45.99" 1 true None = Chain [("total", "45.99")] ∧
  match extract_data_run receipt_engines plain_hash (Path "work") 1 true None
          ["doc.pdf"] ["total: 45.99"] ["work/doc.pdf"] false ["total"] with
  | Ok st =>
      fallback_calls st = [("doc.pdf", "total")] ∧
      map shown (results st)
      = [(PStr "total", PStr "45.99", PStr "total:45.99"); (PStr "total", PStr "99", PNone)]
  | Raise _ => False
  end ∧
  match extract_data_run receipt_engines plain_hash (Path "work") 1 false None
          ["doc.pdf"] ["total: 45.99"] ["work/doc.pdf"] false ["total"] with
  | Ok st =>
      fallback_calls st = [] ∧
      map shown (results st) = [(PStr "total", PStr "45.99", PNone)]
  | Raise _ => False
  end.
Proof. vm_compute. repeat split; reflexivity. Qed.

(** The first end-to-end scenario of the specification: a receipt with the
    text "total: 45.99", the term list ["total"] and no hops give one
    result, and the summed totals are [{"total": 45.99}]. *)
Example receipt_end_to_end :
  match extract_data_from_docs receipt_engines plain_hash (Path "work") 0 false None
          ["receipt.png"] ["total: 45.99"] ["work/receipt.png"] false ["total"] with
  | Ok res =>
      map shown res = [(PStr "total", PStr "45.99", PNone)] ∧
      (final_dict res).1 = {[ "total" := 45.99%float ]} ∧
      (final_dict res).2 = ∅
  | Raise _ => False
  end.
Proof. vm_compute. repeat split; reflexivity. Qed.

End DocProps.

(** * Further properties of the code *)

(** ** What a match consumes *)

Module ReProps.
Import PyStr Re StrProps.

Lemma app_assoc_s (a b c : string) : (a +:+ b) +:+ c = a +:+ (b +:+ c).
Proof. induction a as [|x a IH]; [reflexivity|]. now rewrite !app_cons, IH. Qed.

Lemma app_empty_r (a : string) : a +:+ EmptyString = a.
Proof. induction a as [|x a IH]; [reflexivity|]. now rewrite app_cons, IH. Qed.

(** The words side by side. *)
Fixpoint sconcat (ws : list string) : string :=
  match ws with
  | [] => EmptyString
  | w :: ws' => w +:+ sconcat ws'
  end.

(** The words a pattern can consume, whatever stands around them: the
    assertions ([\b], the anchors) consume nothing, a repeat consumes a
    number of words of its body within its bounds. *)
Fixpoint lang (fl : flags) (r : regex) (w : string) : Prop :=
  match r with
  | Eps | WordB _ | Bos | Eos => w = EmptyString
  | Lit p => ∃ c, w = String c EmptyString ∧ lit_eq fl p c = true
  | Dot => ∃ c, w = String c EmptyString ∧ dotall fl || negb (code c =? 10) = true
  | CSet neg items => ∃ c, w = String c EmptyString ∧ set_mem fl neg items c = true
  | Seq a b => ∃ x y, w = x +:+ y ∧ lang fl a x ∧ lang fl b y
  | Alt a b => lang fl a w ∨ lang fl b w
  | Rep a lo hi _ =>
      ∃ ws, w = sconcat ws ∧ Forall (lang fl a) ws ∧ lo ≤ length ws ∧
            ∀ h, hi = Some h → length ws ≤ h
  | Grp a => lang fl a w
  end.

(** What the matcher hands to its continuation: a state further in the
    text, [pre] being what was consumed. *)
Definition reaches (fl : flags) (r : regex) (s : mstate) (k : mstate → option mstate)
    (res : mstate) : Prop :=
  ∃ s' pre, k s' = Some res ∧ rest s = pre +:+ rest s' ∧ lang fl r pre.

Lemma reaches_one (fl : flags) (r : regex) (ok : ascii → bool) (s : mstate)
    (k : mstate → option mstate) (res : mstate) :
  (∀ c, ok c = true → lang fl r (String c EmptyString)) →
  one s ok k = Some res → reaches fl r s k res.
Proof.
  intros Hr H. unfold one in H.
  destruct (rest s) as [|c tl] eqn:Hrest; [discriminate|].
  destruct (ok c) eqn:Hok; [|discriminate].
  exists (adv s c tl), (String c EmptyString).
  split; [exact H|]. split; [now rewrite Hrest | now apply Hr].
Qed.

Lemma reaches_here (fl : flags) (r : regex) (s : mstate) (k : mstate → option mstate)
    (res : mstate) :
  lang fl r EmptyString → k s = Some res → reaches fl r s k res.
Proof. intros Hr H. exists s, EmptyString. auto. Qed.

(** The loop of a repeat, by name. *)
Section RepLoop.
Variables (fl : flags) (a : regex) (lo : nat) (greedy : bool) (k : mstate → option mstate).

Fixpoint rep_loop (budget cnt : nat) (s : mstate) {struct budget} : option mstate :=
  match budget with
  | 0 => if lo <=? cnt then k s else None
  | S b =>
      if greedy then
        match mre fl a s (fun s' =>
                if (cnt <? lo) || (String.length (rest s') <? String.length (rest s))
                then rep_loop b (S cnt) s' else None) with
        | Some x => Some x
        | None => if lo <=? cnt then k s else None
        end
      else
        match (if lo <=? cnt then k s else None) with
        | Some x => Some x
        | None =>
            mre fl a s (fun s' =>
              if (cnt <? lo) || (String.length (rest s') <? String.length (rest s))
              then rep_loop b (S cnt) s' else None)
        end
  end.

End RepLoop.

Lemma mre_rep (fl : flags) (a : regex) (lo : nat) (hi : option nat) (greedy : bool)
    (s : mstate) (k : mstate → option mstate) :
  mre fl (Rep a lo hi greedy) s k = rep_loop fl a lo greedy k (rep_budget lo hi s) 0 s.
Proof. reflexivity. Qed.

(** Soundness of the matcher: every match goes through the continuation,
    at a state reached by consuming a word of the pattern. *)
Lemma mre_reaches (fl : flags) (r : regex) (s : mstate) (k : mstate → option mstate)
    (res : mstate) :
  mre fl r s k = Some res → reaches fl r s k res.
Proof.
  revert s k res.
  induction r as [| p | | neg items | a IHa b IHb | a IHa b IHb | a IHa lo hi greedy
                 | a IHa | neg | | ]; intros s k res H;
    [simpl in H | simpl in H | simpl in H | simpl in H | simpl in H | simpl in H | |
     simpl in H | simpl in H | simpl in H | simpl in H].
  - now apply reaches_here.
  - apply (reaches_one fl (Lit p) _ _ _ _) in H; [exact H|].
    intros c Hc. exists c. auto.
  - apply (reaches_one fl Dot _ _ _ _) in H; [exact H|].
    intros c Hc. exists c. auto.
  - apply (reaches_one fl (CSet neg items) _ _ _ _) in H; [exact H|].
    intros c Hc. exists c. auto.
  - apply IHa in H. destruct H as (s1 & pre1 & H & Hr1 & Hl1).
    apply IHb in H. destruct H as (s2 & pre2 & H & Hr2 & Hl2).
    exists s2, (pre1 +:+ pre2). split; [exact H|].
    split; [now rewrite Hr1, Hr2, app_assoc_s|].
    exists pre1, pre2. auto.
  - destruct (mre fl a s k) as [x|] eqn:Ha.
    + injection H as ->. apply IHa in Ha. destruct Ha as (s' & pre & Hk & Hr & Hl).
      exists s', pre. split; [exact Hk|]. split; [exact Hr|]. now left.
    + apply IHb in H. destruct H as (s' & pre & Hk & Hr & Hl).
      exists s', pre. split; [exact Hk|]. split; [exact Hr|]. now right.
  - (* the repeat: by induction on the turns left *)
    rewrite mre_rep in H.
    assert (Hloop : ∀ budget cnt s0,
      rep_loop fl a lo greedy k budget cnt s0 = Some res →
      ∃ s' ws, k s' = Some res ∧ rest s0 = sconcat ws +:+ rest s' ∧
               Forall (lang fl a) ws ∧ lo ≤ cnt + length ws ∧ length ws ≤ budget).
    { clear H. intros budget. induction budget as [|b IHb]; intros cnt s0 H.
      - simpl in H. destruct (lo <=? cnt) eqn:Hlo; [|discriminate]. apply Nat.leb_le in Hlo.
        exists s0, []. split; [exact H|]. split; [reflexivity|].
        split; [constructor|]. simpl. lia.
      - assert (Hstop : (if lo <=? cnt then k s0 else None) = Some res →
                  ∃ s' ws, k s' = Some res ∧ rest s0 = sconcat ws +:+ rest s' ∧
                    Forall (lang fl a) ws ∧ lo ≤ cnt + length ws ∧ length ws ≤ S b).
        { intros Hs. destruct (lo <=? cnt) eqn:Hlo; [|discriminate]. apply Nat.leb_le in Hlo.
          exists s0, []. split; [exact Hs|]. split; [reflexivity|].
          split; [constructor|]. simpl. lia. }
        assert (Hmore :
                  mre fl a s0 (fun s' =>
                     if (cnt <? lo) || (String.length (rest s') <? String.length (rest s0))
                     then rep_loop fl a lo greedy k b (S cnt) s' else None) = Some res →
                  ∃ s' ws, k s' = Some res ∧ rest s0 = sconcat ws +:+ rest s' ∧
                    Forall (lang fl a) ws ∧ lo ≤ cnt + length ws ∧ length ws ≤ S b).
        { intros Hx. apply IHa in Hx.
          destruct Hx as (s1 & pre1 & Hk1 & Hr1 & Hl1).
          destruct ((cnt <? lo) || _) ; [|discriminate].
          apply IHb in Hk1. destruct Hk1 as (s2 & ws & Hk2 & Hr2 & Hall & Hlo & Hhi).
          exists s2, (pre1 :: ws). split; [exact Hk2|].
          split; [simpl; now rewrite Hr1, Hr2, app_assoc_s|].
          split; [now constructor|]. simpl. lia. }
        simpl in H. destruct greedy.
        + match type of H with match ?e with _ => _ end = _ => destruct e as [x|] eqn:Hx end.
          * injection H as ->. now apply Hmore.
          * now apply Hstop.
        + match type of H with match ?e with _ => _ end = _ => destruct e as [x|] eqn:Hx end.
          * injection H as ->. now apply Hstop.
          * now apply Hmore. }
    apply Hloop in H. destruct H as (s' & ws & Hk & Hr & Hall & Hlo & Hhi).
    exists s', (sconcat ws). split; [exact Hk|]. split; [exact Hr|].
    exists ws. split; [reflexivity|]. split; [exact Hall|]. split; [lia|].
    intros h ->. exact Hhi.
  - apply IHa in H. destruct H as (s' & pre & Hk & Hr & Hl).
    eexists _, pre. split; [exact Hk|]. split; [exact Hr | exact Hl].
  - destruct (xorb neg (at_word_boundary s)); [|discriminate]. now apply reaches_here.
  - destruct (prev s); [discriminate|]. now apply reaches_here.
  - destruct (at_end s); [|discriminate]. now apply reaches_here.
Qed.

(** The least and the greatest number of characters a pattern consumes
    ([None]: no bound). *)
Fixpoint min_len (r : regex) : nat :=
  match r with
  | Eps | WordB _ | Bos | Eos => 0
  | Lit _ | Dot | CSet _ _ => 1
  | Seq a b => min_len a + min_len b
  | Alt a b => min (min_len a) (min_len b)
  | Rep a lo _ _ => lo * min_len a
  | Grp a => min_len a
  end.

Fixpoint max_len (r : regex) : option nat :=
  match r with
  | Eps | WordB _ | Bos | Eos => Some 0
  | Lit _ | Dot | CSet _ _ => Some 1
  | Seq a b =>
      match max_len a, max_len b with
      | Some m1, Some m2 => Some (m1 + m2)
      | _, _ => None
      end
  | Alt a b =>
      match max_len a, max_len b with
      | Some m1, Some m2 => Some (max m1 m2)
      | _, _ => None
      end
  | Rep a _ hi _ =>
      match hi, max_len a with
      | Some h, Some m => Some (h * m)
      | _, _ => None
      end
  | Grp a => max_len a
  end.

Lemma sconcat_length_ge (n : nat) (ws : list string) :
  Forall (fun w => n ≤ String.length w) ws → length ws * n ≤ String.length (sconcat ws).
Proof.
  induction 1 as [|w ws Hw _ IH]; simpl; [lia|]. rewrite length_app. lia.
Qed.

Lemma sconcat_length_le (n : nat) (ws : list string) :
  Forall (fun w => String.length w ≤ n) ws → String.length (sconcat ws) ≤ length ws * n.
Proof.
  induction 1 as [|w ws Hw _ IH]; simpl; [lia|]. rewrite length_app. lia.
Qed.

Lemma lang_min_len (fl : flags) (r : regex) (w : string) :
  lang fl r w → min_len r ≤ String.length w.
Proof.
  revert w.
  induction r as [| p | | neg items | a IHa b IHb | a IHa b IHb | a IHa lo hi greedy
                 | a IHa | neg | | ]; intros w H; simpl in *;
    try (subst; simpl; lia); try (destruct H as (c & -> & _); simpl; lia).
  - destruct H as (x & y & -> & Hx & Hy). rewrite length_app.
    specialize (IHa _ Hx). specialize (IHb _ Hy). lia.
  - destruct H as [H|H]; [specialize (IHa _ H) | specialize (IHb _ H)]; lia.
  - destruct H as (ws & -> & Hall & Hlo & _).
    assert (Hge : length ws * min_len a ≤ String.length (sconcat ws)).
    { apply sconcat_length_ge. eapply Forall_impl; [exact Hall | exact IHa]. }
    nia.
  - now apply IHa.
Qed.

Lemma lang_max_len (fl : flags) (r : regex) (w : string) (m : nat) :
  lang fl r w → max_len r = Some m → String.length w ≤ m.
Proof.
  revert w m.
  induction r as [| p | | neg items | a IHa b IHb | a IHa b IHb | a IHa lo hi greedy
                 | a IHa | neg | | ]; intros w m H Hm; simpl in *;
    try (injection Hm as <-; subst; simpl; lia);
    try (injection Hm as <-; destruct H as (c & -> & _); simpl; lia).
  - destruct H as (x & y & -> & Hx & Hy). rewrite length_app.
    destruct (max_len a) as [m1|]; [|discriminate].
    destruct (max_len b) as [m2|]; [|discriminate]. injection Hm as <-.
    specialize (IHa _ _ Hx eq_refl). specialize (IHb _ _ Hy eq_refl). lia.
  - destruct (max_len a) as [m1|]; [|discriminate].
    destruct (max_len b) as [m2|]; [|discriminate]. injection Hm as <-.
    destruct H as [H|H]; [specialize (IHa _ _ H eq_refl) | specialize (IHb _ _ H eq_refl)]; lia.
  - destruct H as (ws & -> & Hall & _ & Hhi).
    destruct hi as [h|]; [|discriminate].
    destruct (max_len a) as [ma|]; [|discriminate]. injection Hm as <-.
    specialize (Hhi _ eq_refl).
    assert (Hle : String.length (sconcat ws) ≤ length ws * ma).
    { apply sconcat_length_le. eapply Forall_impl; [exact Hall|].
      intros x Hx. simpl. exact (IHa _ _ Hx eq_refl). }
    nia.
  - now apply (IHa _ _ H).
Qed.

Lemma take_split (s pre t : string) :
  s = pre +:+ t → take (String.length s - String.length t) s = pre.
Proof. intros ->. apply take_app. Qed.

(** One attempt at the cursor, seen through [mre_reaches]: the state it
    returns is the state reached. *)
Lemma match_at_reaches (fl : flags) (r : regex) (ma : bool) (pv : option ascii)
    (s : string) (st : mstate) :
  match_at fl r ma pv s = Some st →
  ∃ pre, s = pre +:+ rest st ∧ lang fl r pre.
Proof.
  intros H. unfold match_at in H. apply mre_reaches in H.
  destruct H as (s' & pre & Hk & Hr & Hl). simpl in Hk, Hr.
  destruct (ma && _); [discriminate|]. injection Hk as <-. eauto.
Qed.

(** A match found by a search splits the text: what precedes it, what it
    matched (a word of the pattern) and what follows. *)
Lemma search_from_split (fl : flags) (r : regex) (ma : bool) (pos : nat)
    (pv : option ascii) (s : string) (m : rmatch) :
  search_from fl r ma pos pv s = Some m →
  ∃ pre, s = pre +:+ m_group0 m +:+ m_after m ∧ lang fl r (m_group0 m).
Proof.
  assert (Hhere : ∀ ma pos pv s st,
    match_at fl r ma pv s = Some st →
    let m := RMatch pos (take (String.length s - String.length (rest st)) s)
                    (grp st) (prev st) (rest st) in
    ∃ pre, s = pre +:+ m_group0 m +:+ m_after m ∧ lang fl r (m_group0 m)).
  { intros ma0 pos0 pv0 s0 st Hm. simpl.
    destruct (match_at_reaches _ _ _ _ _ _ Hm) as (pre & Hs & Hl).
    rewrite (take_split _ _ _ Hs).
    exists EmptyString. rewrite app_empty. auto. }
  revert ma pos pv. induction s as [|c s IH]; intros ma pos pv H; simpl in H.
  - destruct (match_at fl r ma pv EmptyString) as [st|] eqn:Hm; [|discriminate].
    injection H as <-. exact (Hhere _ _ _ _ _ Hm).
  - destruct (match_at fl r ma pv (String c s)) as [st|] eqn:Hm.
    + injection H as <-. exact (Hhere _ _ _ _ _ Hm).
    + apply IH in H. destruct H as (pre & Hs & Hb).
      exists (String c pre). rewrite app_cons, <- Hs. split; [reflexivity | exact Hb].
Qed.

(** A sequence: the first part consumes a word of its own and the second
    part goes on from there. *)
Lemma mre_seq (fl : flags) (a b : regex) (s : mstate) (k : mstate → option mstate)
    (res : mstate) :
  mre fl (Seq a b) s k = Some res →
  ∃ s1 x, rest s = x +:+ rest s1 ∧ lang fl a x ∧ mre fl b s1 k = Some res.
Proof.
  intros H. simpl in H. apply mre_reaches in H.
  destruct H as (s1 & x & Hk & Hr & Hl). eauto.
Qed.

(** A group records what its body consumed. *)
Lemma mre_grp (fl : flags) (g : regex) (s : mstate) (k : mstate → option mstate)
    (res : mstate) :
  mre fl (Grp g) s k = Some res →
  ∃ s2 y, rest s = y +:+ rest s2 ∧ lang fl g y ∧ k (set_grp s2 y) = Some res.
Proof.
  intros H. simpl in H. apply mre_reaches in H.
  destruct H as (s2 & y & Hk & Hr & Hl).
  rewrite (take_split _ _ _ Hr) in Hk. eauto.
Qed.

(** The group a pattern ends with. *)
Fixpoint tail_group (r : regex) : option regex :=
  match r with
  | Grp g => Some g
  | Seq _ b => tail_group b
  | _ => None
  end.

(** A pattern that ends with its group: when it matches, the group holds
    the end of what was consumed, a word of the body of the group. *)
Lemma mre_tail_group (fl : flags) (r g : regex) (s : mstate) (k : mstate → option mstate)
    (res : mstate) :
  tail_group r = Some g → mre fl r s k = Some res →
  ∃ s2 x y, rest s = x +:+ y +:+ rest s2 ∧ lang fl g y ∧ k (set_grp s2 y) = Some res.
Proof.
  revert s. induction r as [| | | | a _ b IHb | | | a _ | | | ]; intros s Hg H;
    try discriminate Hg.
  - apply mre_seq in H. destruct H as (s1 & x & Hr & _ & H).
    destruct (IHb s1 Hg H) as (s2 & x' & y & Hr' & Hl & Hk).
    exists s2, (x +:+ x'), y. split; [|auto]. now rewrite Hr, Hr', app_assoc_s.
  - injection Hg as ->. apply mre_grp in H. destruct H as (s2 & y & Hr & Hl & Hk).
    exists s2, EmptyString, y. auto.
Qed.

(** What a match of a pattern [Seq a b], [b] ending with the group, tells:
    the text splits into what precedes the match, a word of [a], what [b]
    consumed before its group, the group, and the rest. *)
Lemma search_from_group (fl : flags) (a b g : regex) (ma : bool) (pos : nat)
    (pv : option ascii) (s : string) (m : rmatch) :
  tail_group b = Some g →
  search_from fl (Seq a b) ma pos pv s = Some m →
  ∃ pre x x' y, s = pre +:+ x +:+ x' +:+ y +:+ m_after m ∧
                lang fl a x ∧ lang fl g y ∧ m_group1 m = Some y.
Proof.
  intros Hg.
  assert (Hhere : ∀ ma pv s st,
    match_at fl (Seq a b) ma pv s = Some st →
    ∃ x x' y, s = x +:+ x' +:+ y +:+ rest st ∧ lang fl a x ∧ lang fl g y ∧ grp st = Some y).
  { intros ma0 pv0 s0 st Hm. unfold match_at in Hm.
    apply mre_seq in Hm. destruct Hm as (s1 & x & Hr & Hx & Hm). simpl in Hr.
    destruct (mre_tail_group _ _ _ _ _ _ Hg Hm) as (s2 & x' & y & Hr' & Hy & Hk).
    destruct (ma0 && _); [discriminate|]. injection Hk as <-.
    exists x, x', y. simpl. rewrite Hr, Hr'. auto. }
  revert ma pos pv. induction s as [|c s IH]; intros ma pos pv H; simpl in H.
  - destruct (match_at fl (Seq a b) ma pv EmptyString) as [st|] eqn:Hm; [|discriminate].
    injection H as <-. simpl.
    destruct (Hhere _ _ _ _ Hm) as (x & x' & y & Hs & Hx & Hy & Hgr).
    exists EmptyString, x, x', y. rewrite app_empty. auto.
  - destruct (match_at fl (Seq a b) ma pv (String c s)) as [st|] eqn:Hm.
    + injection H as <-. simpl.
      destruct (Hhere _ _ _ _ Hm) as (x & x' & y & Hs & Hx & Hy & Hgr).
      exists EmptyString, x, x', y. rewrite app_empty. auto.
    + apply IH in H. destruct H as (pre & x & x' & y & Hs & Hb).
      exists (String c pre), x, x', y. rewrite app_cons, <- Hs. auto.
Qed.

(** The words of an escaped string, case ignored: the string, up to case. *)
Lemma lang_escape (fl : flags) (term w : string) :
  ignorecase fl = true → lang fl (escape term) w → lower w = lower term.
Proof.
  intros Hfl. revert w. induction term as [|c term IH]; intros w H; simpl in H.
  - now subst.
  - destruct H as (x & y & -> & (c' & -> & Hc) & Hy).
    rewrite app_cons, app_empty. simpl. rewrite (IH _ Hy). f_equal.
    unfold lit_eq in Hc. rewrite Hfl in Hc. now apply Ascii.eqb_eq in Hc.
Qed.

Lemma lang_of_lower (fl : flags) (term w : string) :
  ignorecase fl = true → lower w = lower term → lang fl (escape term) w.
Proof.
  intros Hfl. revert w. induction term as [|p term IH]; intros [|c w] H;
    try discriminate H; [reflexivity|].
  simpl in H. injection H as Hc Hw.
  exists (String c EmptyString), w. split; [reflexivity|]. split; [|exact (IH _ Hw)].
  exists c. split; [reflexivity|]. unfold lit_eq. rewrite Hfl, Hc. apply Ascii.eqb_refl.
Qed.

(** [mid] is the term with case ignored, as [re] has it: a string that
    [re.escape(term)] matches under [re.IGNORECASE]. *)
Definition matches_ci (term mid : string) : Prop := lang IGNORECASE (escape term) mid.

(** On the strings of the embedding this is equality of the lowercase
    forms. *)
Lemma matches_ci_lower (term mid : string) : matches_ci term mid ↔ lower mid = lower term.
Proof.
  split; [now apply (lang_escape IGNORECASE) | now apply (lang_of_lower IGNORECASE)].
Qed.

Lemma has_chr_app (c : ascii) (a b : string) :
  has_chr c (a +:+ b) = has_chr c a || has_chr c b.
Proof.
  induction a as [|x a IH]; [reflexivity|].
  rewrite app_cons. simpl. destruct (Ascii.eqb x c); [reflexivity | exact IH].
Qed.

(** A character every word of the pattern holds: a literal that no
    alternative and no empty repeat lets a match go around. *)
Fixpoint needs (c : ascii) (r : regex) : bool :=
  match r with
  | Lit p => Ascii.eqb p c
  | Seq a b => needs c a || needs c b
  | Alt a b => needs c a && needs c b
  | Rep a lo _ _ => (0 <? lo) && needs c a
  | Grp a => needs c a
  | _ => false
  end.

Lemma lang_needs (fl : flags) (c : ascii) (r : regex) (w : string) :
  (∀ x, lit_eq fl c x = true → x = c) →
  needs c r = true → lang fl r w → has_chr c w = true.
Proof.
  intros Hc. revert w.
  induction r as [| p | | neg items | a IHa b IHb | a IHa b IHb | a IHa lo hi greedy
                 | a IHa | neg | | ]; intros w Hn H; simpl in Hn, H; try discriminate Hn.
  - destruct H as (x & -> & Hx). apply Ascii.eqb_eq in Hn. subst p.
    apply Hc in Hx. subst x. simpl. now rewrite Ascii.eqb_refl.
  - destruct H as (x & y & -> & Hx & Hy). rewrite has_chr_app.
    apply orb_true_iff in Hn. destruct Hn as [Hn|Hn].
    + now rewrite (IHa _ Hn Hx).
    + rewrite (IHb _ Hn Hy). apply orb_true_r.
  - apply andb_prop in Hn. destruct Hn as [Hna Hnb].
    destruct H as [H|H]; [now apply IHa | now apply IHb].
  - apply andb_prop in Hn. destruct Hn as [Hlo Hna]. apply Nat.ltb_lt in Hlo.
    destruct H as (ws & -> & Hall & Hlen & _).
    destruct ws as [|w0 ws]; [simpl in Hlen; lia|].
    simpl. rewrite has_chr_app.
    apply Forall_cons in Hall. destruct Hall as [Hw0 _].
    now rewrite (IHa _ Hna Hw0).
  - now apply IHa.
Qed.

End ReProps.

(** ** [searching]: what the proximity heuristic and the custom patterns return *)

Module HeuristicProps.
Import PyStr Re SearchUtils StrProps ReProps SearchProps.

(** The key of the heuristic is the matched slice: the term up to case,
    as it stands in the text. *)
Lemma search_escape_slice (term text : string) (m : rmatch) :
  search IGNORECASE (escape term) text = Some m →
  lower (m_group0 m) = lower term ∧ contains (m_group0 m) text = true.
Proof.
  intros H. apply search_from_split in H. destruct H as (pre & Hs & Hl).
  split; [now apply (lang_escape IGNORECASE)|].
  rewrite Hs. apply contains_app.
Qed.

Lemma proximity_key (term text : string) (key : string) (value : option string) :
  proximity term text = Pair (Some key) value →
  ∃ m, search IGNORECASE (escape term) text = Some m ∧ key = m_group0 m.
Proof.
  unfold proximity. intros H.
  destruct (search IGNORECASE (escape term) text) as [m|]; [|discriminate].
  exists m. split; [reflexivity|].
  destruct (search IGNORECASE_DOTALL _ text) as [a|]; [|congruence].
  destruct (first_value _ _); congruence.
Qed.

(** X1. Called without custom patterns, [searching] returns a key exactly
    when the term occurs in the text (literally, case ignored); the key is
    then the occurrence as it is written in the text, equal to the term up
    to case. *)
Theorem searching_finds_occurrence (term text : string) (return_all : bool) :
  occurs_in term text ↔
  ∃ key value, searching term text None return_all = Pair (Some key) value ∧
               lower key = lower term ∧ contains key text = true.
Proof.
  unfold searching, bound_patterns. split.
  - intros (pre & mid & post & -> & Hmid).
    destruct (search_from_escape_found term 0 None pre mid post Hmid) as (m & Hm & _).
    fold (search IGNORECASE (escape term) (pre +:+ mid +:+ post)) in Hm.
    destruct (search_escape_slice _ _ _ Hm) as [Hkey Hin].
    unfold proximity. rewrite Hm.
    destruct (search IGNORECASE_DOTALL _ _) as [a|]; [|eauto].
    destruct (first_value _ _); eauto.
  - intros (key & value & H & _). apply proximity_key in H.
    destruct H as (m & Hm & _). eapply search_from_escape. exact Hm.
Qed.

(** The three value patterns consume at least one character. *)
Lemma first_value_slice (snippet : string) (m : rmatch) :
  first_value [number_regex; alnum_regex; word_regex] snippet = Some m →
  m_group0 m ≠ EmptyString ∧ ∃ a b, snippet = a +:+ m_group0 m +:+ b.
Proof.
  assert (Hone : ∀ r, min_len r = 1 → search NOFLAGS r snippet = Some m →
            m_group0 m ≠ EmptyString ∧ ∃ a b, snippet = a +:+ m_group0 m +:+ b).
  { intros r Hr H. apply search_from_split in H. destruct H as (a & Hs & Hl).
    apply lang_min_len in Hl. rewrite Hr in Hl.
    split; [intros He; rewrite He in Hl; simpl in Hl; lia | eauto]. }
  simpl. intros H.
  destruct (search NOFLAGS number_regex snippet) as [m1|] eqn:H1.
  { injection H as <-. exact (Hone number_regex eq_refl H1). }
  destruct (search NOFLAGS alnum_regex snippet) as [m2|] eqn:H2.
  { injection H as <-. exact (Hone alnum_regex eq_refl H2). }
  destruct (search NOFLAGS word_regex snippet) as [m3|] eqn:H3; [|discriminate].
  injection H as <-. exact (Hone word_regex eq_refl H3).
Qed.

(** The loop with [return_all] off, read forwards: the first pattern in
    list order that matches gives its first match. *)
Lemma first_or_all_one_found (fl : flags) (l : list regex) (text : string)
    (res : list string) (i : nat) (r : regex) (m : string) (ms : list string) :
  l !! i = Some r → findall fl r text = m :: ms →
  (∀ j r', j < i → l !! j = Some r' → findall fl r' text = []) →
  first_or_all fl l text false res = inl m.
Proof.
  revert i. induction l as [|r0 l IH]; intros i Hi Hm Hbefore; [discriminate|].
  destruct i as [|i]; simpl in Hi.
  - injection Hi as ->. simpl. now rewrite Hm.
  - simpl. rewrite (Hbefore 0 r0); [|lia|reflexivity].
    apply (IH i Hi Hm). intros j r' Hj Hr'. apply (Hbefore (S j) r'); [lia | exact Hr'].
Qed.

Lemma first_or_all_none (fl : flags) (l : list regex) (text : string) (return_all : bool)
    (res : list string) :
  Forall (fun r => findall fl r text = []) l →
  first_or_all fl l text return_all res = inr res.
Proof.
  induction 1 as [|r l Hr _ IH]; [reflexivity|]. simpl. now rewrite Hr.
Qed.

(** X3. Custom patterns bound to the term come first: the first pattern
    in list order that matches the text decides, and the answer is the
    term as it was given together with the first match of that pattern,
    stripped; whether the term itself occurs in the text plays no part.
    When none of the patterns matches the answer is that of the call
    without patterns. *)
Theorem searching_custom_patterns_first (term text : string) (patterns : patterns_t)
    (regex_list : list regex) :
  bound_patterns patterns (lower term) = Some regex_list →
  let found := fun r => findall IGNORECASE_DOTALL r text in
  (∀ i r m ms, regex_list !! i = Some r → found r = m :: ms →
     (∀ j r', j < i → regex_list !! j = Some r' → found r' = []) →
     searching term text patterns false = Pair (Some term) (Some (strip m))) ∧
  (Forall (fun r => found r = []) regex_list →
     ∀ return_all, searching term text patterns return_all
                   = searching term text None return_all).
Proof.
  intros Hb found. unfold searching. rewrite Hb. split.
  - intros i r m ms Hi Hm Hbefore.
    now rewrite (first_or_all_one_found _ _ _ _ i r m ms Hi Hm Hbefore).
  - intros Hall return_all. now rewrite (first_or_all_none _ _ _ _ _ Hall).
Qed.

Definition nit_patterns : list regex :=
  [Seq (escape "rut ") (Grp (Plus digit)); Seq (escape "id ") (Grp (Plus Dot))].

Lemma searching_custom_patterns_first_witness :
  bound_patterns (Some {[ "nit" := nit_patterns ]}) (lower "NIT") = Some nit_patterns ∧
  searching "NIT" "id 900 123  " (Some {[ "nit" := nit_patterns ]}) false
  = Pair (Some "NIT") (Some "900 123").
Proof.
  split; [reflexivity|].
  refine (proj1 (searching_custom_patterns_first "NIT" "id 900 123  "
                   (Some {[ "nit" := nit_patterns ]}) nit_patterns eq_refl)
                1 (Seq (escape "id ") (Grp (Plus Dot))) "900 123  " [] eq_refl _ _).
  - vm_compute. reflexivity.
  - intros [|j] r' Hj Hr'; [|lia]. injection Hr' as <-. vm_compute. reflexivity.
Defined.

(** Whatever the patterns, the key of a tuple is the term up to case. *)
Lemma searching_key_lower (term text : string) (patterns : patterns_t) (return_all : bool)
    (key : string) (value : option string) :
  searching term text patterns return_all = Pair (Some key) value → lower key = lower term.
Proof.
  assert (Hprox : proximity term text = Pair (Some key) value → lower key = lower term).
  { intros H. apply proximity_key in H. destruct H as (m & Hm & ->).
    now apply search_escape_slice in Hm. }
  unfold searching. destruct (bound_patterns patterns (lower term)) as [l|]; [|exact Hprox].
  destruct (first_or_all IGNORECASE_DOTALL l text return_all []) as [m0|[|r res]].
  - intros [= <- _]. reflexivity.
  - exact Hprox.
  - discriminate.
Qed.

End HeuristicProps.

(** ** [date_finder] *)

Module DateProps.
Import PyStr Re SearchUtils StrProps ReProps.

Lemma brace_only (x : ascii) : lit_eq IGNORECASE "{" x = true → x = "{"%char.
Proof.
  destruct x as [[] [] [] [] [] [] [] []]; vm_compute; intros H;
    try discriminate H; reflexivity.
Qed.

Lemma date_regex_needs_brace (term : string) : needs "{" (date_regex term) = true.
Proof.
  unfold date_regex. cbn [seq needs]. apply orb_true_iff. right. reflexivity.
Qed.

(** X4. The dates [date_finder] looks for are never found: in its pattern
    the doubled braces of the quantifiers are literal braces, so that a
    text with no opening brace in it, such as any text with ordinary
    dates, gives [None] for every term. *)
Theorem date_finder_needs_brace (text term : string) :
  has_chr "{" text = false → date_finder text term = None.
Proof.
  intros Hno. unfold date_finder.
  destruct (search IGNORECASE (date_regex term) text) as [m|] eqn:Hm; [|reflexivity].
  exfalso. apply search_from_split in Hm. destruct Hm as (pre & Hs & Hl).
  apply (lang_needs _ "{" _ _ brace_only (date_regex_needs_brace term)) in Hl.
  rewrite Hs, !has_chr_app, Hl, orb_true_r in Hno. discriminate Hno.
Qed.

Lemma date_finder_needs_brace_witness :
  has_chr "{" "Fecha: 12/03/2024, vence 2024-04-01" = false ∧
  date_finder "Fecha: 12/03/2024, vence 2024-04-01" "fecha" = None.
Proof.
  split; [reflexivity|].
  apply (date_finder_needs_brace "Fecha: 12/03/2024, vence 2024-04-01" "fecha"). reflexivity.
Defined.

(** What the pattern does match: a digit, one or two opening braces and a
    closing one, where the day, the month and the year should stand. *)
Example date_finder_braces :
  date_finder "fecha: 1{}/2{{}-3{{}" "Fecha" = Some "1{}/2{{}-3{{}".
Proof. vm_compute. reflexivity. Qed.

End DateProps.

(** ** [serial_number]: the shape of a serial *)

Module SerialProps.
Import PyStr Re SearchUtils StrProps ReProps SearchProps.

(** Every character of the string passes the test. *)
Fixpoint all_chars (ok : ascii → bool) (s : string) : bool :=
  match s with
  | EmptyString => true
  | String c s' => ok c && all_chars ok s'
  end.

Lemma all_chars_app (ok : ascii → bool) (a b : string) :
  all_chars ok (a +:+ b) = all_chars ok a && all_chars ok b.
Proof.
  induction a as [|c a IH]; [reflexivity|].
  rewrite app_cons. simpl. now rewrite IH, andb_assoc.
Qed.

(** One or more characters of a set: a non-empty string of members. *)
Lemma lang_plus_set (fl : flags) (neg : bool) (items : list citem) (w : string) :
  lang fl (Plus (CSet neg items)) w →
  w ≠ EmptyString ∧ all_chars (set_mem fl neg items) w = true.
Proof.
  intros (ws & -> & Hall & Hlen & _).
  assert (Hws : all_chars (set_mem fl neg items) (sconcat ws) = true ∧
                (ws ≠ [] → sconcat ws ≠ EmptyString)).
  { clear Hlen. induction Hall as [|w ws (c & -> & Hc) _ [IH _]].
    - split; [reflexivity | congruence].
    - cbn [sconcat]. rewrite app_cons, app_empty. split; [|discriminate].
      simpl. now rewrite Hc, IH. }
  destruct Hws as [Hok Hne]. split; [|exact Hok].
  apply Hne. destruct ws; [simpl in Hlen; lia | discriminate].
Qed.

(** What holds of every match found from any position holds of every
    item [findall] lists. *)
Lemma findall_items (fl : flags) (r : regex) (P : string → Prop) (text : string) :
  (∀ ma pos pv s m, search_from fl r ma pos pv s = Some m → P (item r m)) →
  Forall P (findall fl r text).
Proof.
  intros HP. unfold findall.
  assert (H : ∀ fuel ma pv s, Forall P (findall_from fuel fl r ma pv s)); [|apply H].
  intros fuel. induction fuel as [|fuel IH]; intros ma pv s; simpl; [constructor|].
  destruct (search_from fl r ma 0 pv s) as [m|] eqn:Hm; [|constructor].
  constructor; [exact (HP _ _ _ _ _ Hm) | apply IH].
Qed.

(** A letter of [[A-Z]] as [re.IGNORECASE] takes the range: a character
    that the range holds in one of its cases. *)
Definition letter_ci (c : ascii) : bool := item_mem IGNORECASE c (CRange "A" "Z").

(** The characters a serial is made of: the digits, the letters of
    [[A-Z]] with case ignored, the hyphen and the slash. *)
Definition serial_char (c : ascii) : bool :=
  in_range 48 57 c || letter_ci c || (code c =? 45) || (code c =? 47).

Definition not_space (c : ascii) : bool := negb (is_space c).

Definition serial_set : list citem := [CRange "A" "Z"; CRange "0" "9"; CChr "-"; CChr "/"].

Lemma serial_set_char (c : ascii) : set_mem IGNORECASE false serial_set c = serial_char c.
Proof. destruct c as [[] [] [] [] [] [] [] []]; vm_compute; reflexivity. Qed.

Lemma serial_char_not_space (c : ascii) : serial_char c = true → not_space c = true.
Proof. destruct c as [[] [] [] [] [] [] [] []]; vm_compute; intros H; congruence. Qed.

(** Among the code points below 256, the letters of [[A-Z]] with case
    ignored are the 52 ASCII letters.  (Past that range Python's
    IGNORECASE lets the set match four more characters, U+0130, U+0131,
    U+017F and U+212A, which a string of this embedding cannot hold.) *)
Lemma letter_ci_latin1 (c : ascii) : letter_ci c = in_range 65 90 c || in_range 97 122 c.
Proof. destruct c as [[] [] [] [] [] [] [] []]; vm_compute; reflexivity. Qed.

Lemma all_chars_ext (f g : ascii → bool) (s : string) :
  (∀ c, f c = g c) → all_chars f s = all_chars g s.
Proof. intros H. induction s as [|c s IH]; [reflexivity|]. simpl. now rewrite H, IH. Qed.

Lemma all_chars_impl (f g : ascii → bool) (s : string) :
  (∀ c, f c = true → g c = true) → all_chars f s = true → all_chars g s = true.
Proof.
  intros H. induction s as [|c s IH]; [reflexivity|]. simpl. intros Hs.
  apply andb_prop in Hs. destruct Hs as [Hc Hs]. now rewrite (H c Hc), (IH Hs).
Qed.

(** A serial: not empty, made of serial characters, none of them
    whitespace. *)
Definition well_formed (m : string) : Prop :=
  m ≠ EmptyString ∧ all_chars serial_char m = true ∧ all_chars not_space m = true.

Lemma serial_regex_items (w text : string) :
  Forall well_formed (findall IGNORECASE (serial_regex w) text).
Proof.
  apply findall_items. intros ma pos pv s m H.
  assert (Hhg : has_group (serial_regex w) = true).
  { unfold serial_regex. cbn [seq has_group]. now rewrite !orb_true_r. }
  unfold item. rewrite Hhg.
  unfold serial_regex in H. cbn [seq] in H.
  apply (search_from_group _ _ _ (Plus (CSet false serial_set))) in H; [|reflexivity].
  destruct H as (pre & x & x' & y & _ & _ & Hy & Hg).
  rewrite Hg. simpl.
  apply lang_plus_set in Hy. destruct Hy as [Hne Hok].
  rewrite (all_chars_ext _ _ _ serial_set_char) in Hok.
  split; [exact Hne|]. split; [exact Hok|].
  exact (all_chars_impl _ _ _ serial_char_not_space Hok).
Qed.

Lemma first_or_all_Forall (fl : flags) (P : string → Prop) (l : list regex) (text : string)
    (return_all : bool) (res : list string) :
  Forall (fun r => Forall P (findall fl r text)) l → Forall P res →
  match first_or_all fl l text return_all res with
  | inl m => P m
  | inr res' => Forall P res'
  end.
Proof.
  intros Hl. revert res. induction Hl as [|r l Hr _ IH]; intros res Hres; simpl; [exact Hres|].
  destruct (findall fl r text) as [|m0 ms] eqn:E; [now apply IH|].
  destruct return_all.
  - apply IH. apply Forall_app. split; [exact Hres | exact Hr].
  - now apply Forall_cons in Hr.
Qed.

(** X5. Without custom ["serial"] patterns, whatever [serial_number]
    returns is well formed: a serial is not empty, holds no whitespace,
    and each of its characters is a digit, a hyphen, a slash or a letter
    that [[A-Z]] matches under [re.IGNORECASE]; with [return_all] this
    holds of every serial of the list, which is not empty. *)
Theorem serial_number_well_formed (text : string) (patterns : patterns_t) (return_all : bool) :
  bound_patterns patterns "serial" = None →
  match serial_number text patterns return_all with
  | SNone => True
  | SOne m => return_all = false ∧ well_formed m
  | SAll l => return_all = true ∧ l ≠ [] ∧ Forall well_formed l
  end.
Proof.
  intros Hb. unfold serial_number. rewrite Hb.
  assert (Hall : Forall (fun r => Forall well_formed (findall IGNORECASE r text))
                   (map serial_regex serial_words)).
  { generalize serial_words. intros ws.
    induction ws as [|w ws IH]; simpl; constructor; [apply serial_regex_items | exact IH]. }
  revert Hall. generalize (map serial_regex serial_words). intros l Hall.
  pose proof (first_or_all_Forall IGNORECASE well_formed l text return_all [] Hall
                (Forall_nil_2 _)) as H.
  destruct return_all.
  - rewrite first_or_all_all in *. rewrite app_nil_l in *.
    destruct (concat _) as [|m ms]; [exact I|].
    split; [reflexivity|]. split; [discriminate | exact H].
  - destruct (first_or_all IGNORECASE l text false []) as [m|res] eqn:E.
    + split; [reflexivity | exact H].
    + apply first_or_all_one_inr in E. destruct E as [-> _]. exact I.
Qed.

Lemma serial_number_well_formed_witness :
  bound_patterns None "serial" = None ∧
  match serial_number "Factura # F/2024-9 pagada" None false with
  | SNone => True
  | SOne m => false = false ∧ well_formed m
  | SAll l => false = true ∧ l ≠ [] ∧ Forall well_formed l
  end.
Proof.
  split; [reflexivity|].
  apply (serial_number_well_formed "Factura # F/2024-9 pagada" None false). reflexivity.
Defined.

(** X6. With [return_all] and no custom ["serial"] patterns,
    [serial_number] returns the serials of all the labels, label after
    label in the order of [serial_words], and [None] when there is none:
    a serial that stands after a label which contains another label (as
    "serial number" contains "serial") is listed once for each of them. *)
Theorem serial_number_return_all (text : string) (patterns : patterns_t) :
  bound_patterns patterns "serial" = None →
  serial_number text patterns true
  = results_or_none
      (concat (map (fun w => findall IGNORECASE (serial_regex w) text) serial_words)).
Proof.
  intros Hb. unfold serial_number. now rewrite Hb, first_or_all_all, app_nil_l, map_map.
Qed.

Lemma serial_number_return_all_witness :
  bound_patterns None "serial" = None ∧
  serial_number "no. de serie: A-1" None true = SAll ["A-1"; "A-1"].
Proof.
  split; [reflexivity|].
  rewrite (serial_number_return_all "no. de serie: A-1" None eq_refl).
  vm_compute. reflexivity.
Defined.

End SerialProps.

(** ** [normalize_number]: what is left of a string that is no number *)

Module NumberProps.
Import PyStr SearchUtils StrProps ReProps.

Lemma replace_chr_drops (c : ascii) (s : string) :
  has_chr c (replace_chr c EmptyString s) = false.
Proof.
  induction s as [|x s IH]; [reflexivity|]. simpl.
  destruct (Ascii.eqb x c) eqn:E; [now rewrite app_empty|].
  simpl. now rewrite E.
Qed.

Lemma replace_chr_other (c d : ascii) (by_ s : string) :
  has_chr d by_ = false → has_chr d s = false → has_chr d (replace_chr c by_ s) = false.
Proof.
  intros Hby. induction s as [|x s IH]; intros Hs; [reflexivity|]. simpl in *.
  destruct (Ascii.eqb x d) eqn:Exd; [discriminate|].
  destruct (Ascii.eqb x c).
  - rewrite has_chr_app, Hby. now apply IH.
  - simpl. rewrite Exd. now apply IH.
Qed.

Lemma replace_chr_swaps (c : ascii) (by_ s : string) :
  has_chr c by_ = false → has_chr c (replace_chr c by_ s) = false.
Proof.
  intros Hby. induction s as [|x s IH]; [reflexivity|]. simpl.
  destruct (Ascii.eqb x c) eqn:E.
  - now rewrite has_chr_app, Hby.
  - simpl. now rewrite E.
Qed.

(** X7. When [normalize_number] returns a string, the string holds no
    blank and no comma (it is the input only when the input had neither),
    and it is a string that [float] refuses. *)
Theorem normalize_number_string (num_str s : string) :
  normalize_number num_str = NStr s →
  has_chr " " s = false ∧ has_chr "," s = false ∧ PyFloat.float_of_str s = None.
Proof.
  unfold normalize_number.
  set (s0 := replace_chr " " EmptyString num_str).
  assert (H0 : has_chr " " s0 = false) by apply replace_chr_drops.
  set (s1 := if has_chr "," s0 && has_chr "." s0 then replace_chr "," EmptyString s0
             else if has_chr "," s0 then replace_chr "," "." s0 else s0).
  assert (H1 : has_chr " " s1 = false ∧ has_chr "," s1 = false).
  { unfold s1. destruct (has_chr "," s0) eqn:Hc; [destruct (has_chr "." s0)|]; simpl.
    - split; [now apply replace_chr_other | apply replace_chr_drops].
    - split; [now apply replace_chr_other | now apply replace_chr_swaps].
    - split; [exact H0 | exact Hc]. }
  destruct (PyFloat.float_of_str s1) as [f|] eqn:Hf; [discriminate|].
  intros [= <-]. destruct H1 as [Hsp Hco]. auto.
Qed.

Lemma normalize_number_string_witness :
  normalize_number "N 12, rev 3" = NStr "N12.rev3" ∧
  has_chr " " "N12.rev3" = false ∧ has_chr "," "N12.rev3" = false ∧
  PyFloat.float_of_str "N12.rev3" = None.
Proof.
  split; [vm_compute; reflexivity|].
  apply (normalize_number_string "N 12, rev 3" "N12.rev3"). vm_compute. reflexivity.
Defined.

End NumberProps.

(** ** [chained_search]: the chain of hops *)

Module ChainProps.
Import PyStr Re SearchUtils StrProps SearchProps HeuristicProps.

(** A chain that starts from a term: the key of each hop is the term
    searched for, up to case, and its value, which is not empty, is the
    term of the next hop. *)
Fixpoint linked (term : string) (hops : list (string * string)) : Prop :=
  match hops with
  | [] => True
  | (key, value) :: hops' =>
      lower key = lower term ∧ value ≠ EmptyString ∧ linked value hops'
  end.

Lemma hops_from_linked (text : string) (patterns : patterns_t) (term : string) (budget : nat)
    (hops : list (string * string)) (terms : list string) :
  hops_from text patterns term budget hops terms →
  linked term hops ∧ length hops ≤ budget.
Proof.
  induction 1 as [term | term budget key value Hs Hf
                 | term budget key value hops terms Hs Hk Hv Hrest [IHl IHn]]; simpl.
  - split; [exact I | lia].
  - split; [exact I | lia].
  - split; [|lia]. split; [exact (searching_key_lower _ _ _ _ _ _ Hs)|].
    split; [|exact IHl]. intros ->. discriminate Hv.
Qed.

(** X8. The trace of a chained search is a chain: it has at most [n]
    hops, the key of the first hop is the initial term up to case, the key
    of every later hop is the value of the hop before it up to case, and
    no value is empty; this holds with and without custom patterns. *)
Theorem chained_search_linked (initial_term text : string) (n : Z) (patterns : patterns_t)
    (hops : list (string * string)) :
  chained_search initial_term text n true patterns = Chain hops →
  linked initial_term hops ∧ length hops ≤ Z.to_nat n.
Proof.
  unfold chained_search, chained_search_run.
  destruct (Z.eqb_spec n 0) as [->|Hn]; [discriminate|]. simpl.
  destruct (chain_loop_hops text patterns (Z.to_nat n) (ChainState initial_term None [] []))
    as (hops' & terms & Hh & Hc & _ & _).
  simpl in Hc. rewrite Hc. intros [= <-].
  apply hops_from_linked in Hh. destruct Hh as [Hl Hlen]. split; [exact Hl | exact Hlen].
Qed.

Lemma chained_search_linked_witness :
  chained_search "Owner" "OWNER: acme bob" 5 true None
  = Chain [("OWNER", "acme"); ("acme", "bob")] ∧
  linked "Owner" [("OWNER", "acme"); ("acme", "bob")] ∧
  length [("OWNER", "acme"); ("acme", "bob")] ≤ Z.to_nat 5.
Proof.
  split; [vm_compute; reflexivity|].
  apply (chained_search_linked "Owner" "OWNER: acme bob" 5 None). vm_compute. reflexivity.
Defined.

(** X9. A negative hop bound makes no search at all: the result is
    [(None, None)], or the empty chain in trace mode, whatever the text
    holds. *)
Theorem chained_search_negative (initial_term text : string) (n : Z) (dev : bool)
    (patterns : patterns_t) :
  (n < 0)%Z →
  chained_search_run initial_term text n dev patterns
  = (if dev then Chain [] else Single (Pair None None), []).
Proof.
  intros Hn. unfold chained_search_run.
  destruct (Z.eqb_spec n 0) as [->|_]; [lia|].
  replace (Z.to_nat n) with 0 by lia. reflexivity.
Qed.

Lemma chained_search_negative_witness :
  (-1 < 0)%Z ∧
  chained_search_run "total" "total: 45.99" (-1) false None = (Single (Pair None None), []).
Proof.
  split; [lia|]. apply (chained_search_negative "total" "total: 45.99" (-1) false None). lia.
Defined.

End ChainProps.

(** ** [final_dict] and [save_results_if_any]: what counts as a match *)

Module SaveProps.
Import PyStr SearchUtils Py ExcelUtils AggregateProps.

(** A result counts when neither its key nor its value is [None]. *)
Definition counts (r : gmap string pyval) : Prop :=
  get r "Key" ≠ PNone ∧ get r "Value" ≠ PNone.

Lemma counts_entry (r : gmap string pyval) : counts r ↔ is_Some (entry r).
Proof.
  unfold counts, entry. destruct (get r "Key") as [|k], (get r "Value") as [|v]; split;
    try (intros [H1 H2]; congruence); try (intros [x Hx]; discriminate);
    try (intros _; eauto); try (intros _; split; discriminate).
Qed.

Lemma no_entry_nothing (results : list (gmap string pyval)) :
  Forall (fun r => entry r = None) results → final_dict results = (∅, ∅).
Proof.
  intros Hall. unfold final_dict.
  assert (H : fold_left final_step results (∅, ∅) = (∅, ∅)).
  { generalize (∅ : gmap string float, ∅ : gmap string (gset string)).
    induction Hall as [|r results Hr _ IH]; intros acc; [reflexivity|].
    simpl. now rewrite final_step_entry, Hr. }
  rewrite H. simpl. now rewrite fmap_empty.
Qed.

Lemma some_entry_something (results : list (gmap string pyval)) :
  Exists (fun r => is_Some (entry r)) results →
  (final_dict results).1 ≠ ∅ ∨ (final_dict results).2 ≠ ∅.
Proof.
  intros Hex. apply Exists_exists in Hex. destruct Hex as (r & Hin & [[k v] Hr]).
  apply list_elem_of_split in Hin. destruct Hin as (l1 & l2 & ->).
  unfold final_dict. cbn [fst snd]. destruct v as [f|s].
  - left. intros He.
    apply (f_equal (fun m => m !! k)) in He. rewrite lookup_empty, fold_sums in He.
    rename He into Hk.
    assert (Hn : f ∈ numbers_of k (l1 ++ r :: l2)).
    { unfold numbers_of. rewrite omap_app. apply elem_of_app. right. simpl.
      rewrite Hr. destruct (decide (k = k)); [|congruence]. apply list_elem_of_here. }
    destruct (numbers_of k (l1 ++ r :: l2)); [now apply elem_of_nil in Hn | discriminate].
  - right. intros He.
    apply (f_equal (fun m => m !! k)) in He.
    rewrite lookup_empty, lookup_fmap, fold_strings in He. rename He into Hk.
    assert (Hn : s ∈ strings_of k (l1 ++ r :: l2)).
    { unfold strings_of. rewrite omap_app. apply elem_of_app. right. simpl.
      rewrite Hr. destruct (decide (k = k)); [|congruence]. apply list_elem_of_here. }
    destruct (strings_of k (l1 ++ r :: l2)); [now apply elem_of_nil in Hn | discriminate].
Qed.

(** The workbook asked for: the results and the two maps of [final_dict]. *)
Definition workbook_of (results : list (gmap string pyval)) (excel_file : string) : workbook :=
  Workbook (excel_file +:+ ".xlsx") results (final_dict results).1 (final_dict results).2.

Lemma save_some (write : workbook → outcome unit) (results : list (gmap string pyval))
    (excel_file : string) :
  Exists counts results →
  save_results_if_any write results excel_file
  = (call (write (workbook_of results excel_file)) ;; logging INFO "Results saved" ;; mret true).
Proof.
  unfold save_results_if_any, workbook_of. intros Hex.
  assert (Hex' : Exists (fun r => is_Some (entry r)) results).
  { eapply Exists_impl; [exact Hex|]. intros r. apply counts_entry. }
  apply some_entry_something in Hex'.
  destruct (final_dict results) as [summed strings]. simpl in *.
  destruct Hex' as [H|H].
  - rewrite (bool_decide_eq_false_2 _ H). reflexivity.
  - rewrite (bool_decide_eq_false_2 _ H), orb_true_r. reflexivity.
Qed.

Lemma save_none (write : workbook → outcome unit) (results : list (gmap string pyval))
    (excel_file : string) :
  ¬ Exists counts results →
  save_results_if_any write results excel_file = (Ok false, [(INFO, "No matches found.")]).
Proof.
  unfold save_results_if_any. intros Hno.
  rewrite no_entry_nothing.
  - rewrite !bool_decide_eq_true_2 by reflexivity. reflexivity.
  - apply Forall_forall. intros r Hin.
    destruct (entry r) as [e|] eqn:He; [|reflexivity].
    exfalso. apply Hno. apply Exists_exists. exists r. split; [exact Hin|].
    apply counts_entry. eauto.
Qed.

(** X10. [save_results_if_any] asks for the workbook to be written, under
    the name [excel_file] with ".xlsx" added and with the results and the
    two maps of [final_dict] as its sheets, exactly when some result has
    both a key and a value; otherwise nothing is written, "No matches
    found." is logged and [False] is returned. *)
Theorem save_results_if_any_writes (write : workbook → outcome unit)
    (results : list (gmap string pyval)) (excel_file : string) :
  (Exists counts results →
     save_results_if_any write results excel_file
     = (call (write (workbook_of results excel_file)) ;;
        logging INFO "Results saved" ;; mret true)) ∧
  (¬ Exists counts results →
     save_results_if_any write results excel_file = (Ok false, [(INFO, "No matches found.")])).
Proof. split; [apply save_some | apply save_none]. Qed.

(** What a permutation of the results leaves as it is. *)
Lemma strings_of_Permutation (key : string) (results results' : list (gmap string pyval)) :
  results ≡ₚ results' → strings_of key results ≡ₚ strings_of key results'.
Proof. intros H. unfold strings_of. now rewrite H. Qed.

Lemma numbers_of_Permutation (key : string) (results results' : list (gmap string pyval)) :
  results ≡ₚ results' → numbers_of key results ≡ₚ numbers_of key results'.
Proof. intros H. unfold numbers_of. now rewrite H. Qed.

(** The strings collected under a key are those of the results. *)
Lemma strings_lookup (results : list (gmap string pyval)) (key s : string) :
  s ∈ default [] ((final_dict results).2 !! key) ↔ s ∈ strings_of key results.
Proof.
  unfold final_dict. cbn [snd]. rewrite lookup_fmap, fold_strings. cbn [snd].
  rewrite lookup_empty.
  destruct (strings_of key results) as [|x xs]; [reflexivity|].
  remember (x :: xs) as ss. simpl.
  rewrite elem_of_elements, elem_of_union, elem_of_list_to_set.
  split; [intros [H|H]; [now apply not_elem_of_empty in H | exact H] | auto].
Qed.

(** A key has a sum when one of the results gives it a number. *)
Lemma sums_lookup (results : list (gmap string pyval)) (key : string) :
  key ∈ dom (final_dict results).1 ↔ numbers_of key results ≠ [].
Proof.
  unfold final_dict. cbn [fst]. rewrite elem_of_dom, fold_sums. cbn [fst].
  rewrite lookup_empty.
  destruct (numbers_of key results) as [|f fs].
  - split; [intros [x Hx]; discriminate | congruence].
  - split; [discriminate | eauto].
Qed.

(** X11. The order of the results does not change which keys have a sum
    nor which strings are collected under a key.  (The sums themselves are
    floating-point sums taken in the order of the results.) *)
Theorem final_dict_order (results results' : list (gmap string pyval)) :
  results ≡ₚ results' →
  dom (final_dict results).1 = dom (final_dict results').1 ∧
  ∀ key s, s ∈ default [] ((final_dict results).2 !! key)
           ↔ s ∈ default [] ((final_dict results').2 !! key).
Proof.
  intros Hp. split.
  - apply set_eq. intros key. rewrite !sums_lookup.
    pose proof (numbers_of_Permutation key _ _ Hp) as Hn.
    split; intros H He; apply H.
    + rewrite He in Hn. now apply Permutation_nil_r in Hn.
    + rewrite He in Hn. now apply Permutation_nil_l in Hn.
  - intros key s. rewrite !strings_lookup.
    now rewrite (strings_of_Permutation key _ _ Hp).
Qed.

Lemma final_dict_order_witness :
  [example_result "unit" "kg"; example_result "total" "7"; example_result "unit" "lb"]
  ≡ₚ [example_result "unit" "lb"; example_result "unit" "kg"; example_result "total" "7"] ∧
  dom (final_dict [example_result "unit" "kg"; example_result "total" "7";
                   example_result "unit" "lb"]).1
  = dom (final_dict [example_result "unit" "lb"; example_result "unit" "kg";
                     example_result "total" "7"]).1 ∧
  ∀ key s,
    s ∈ default [] ((final_dict [example_result "unit" "kg"; example_result "total" "7";
                                 example_result "unit" "lb"]).2 !! key)
    ↔ s ∈ default [] ((final_dict [example_result "unit" "lb"; example_result "unit" "kg";
                                   example_result "total" "7"]).2 !! key).
Proof.
  assert (H : [example_result "unit" "kg"; example_result "total" "7";
               example_result "unit" "lb"]
              ≡ₚ [example_result "unit" "lb"; example_result "unit" "kg";
                  example_result "total" "7"]).
  { symmetry.
    apply (Permutation_cons_append [example_result "unit" "kg"; example_result "total" "7"]). }
  split; [exact H | exact (final_dict_order _ _ H)].
Defined.

(** The sums do depend on the order: binary64 addition is not associative. *)
Example final_dict_sum_order :
  (final_dict [example_result "t" "0.1"; example_result "t" "0.2"; example_result "t" "0.3"]).1
    !! "t" = Some 0.6000000000000001%float ∧
  (final_dict [example_result "t" "0.3"; example_result "t" "0.2"; example_result "t" "0.1"]).1
    !! "t" = Some 0.6%float.
Proof. split; vm_compute; reflexivity. Qed.

End SaveProps.

(** ** [comparing_tables]: what makes two tables duplicates *)

Module DedupeProps.
Import PyStr Py OcrUtils GeneralUtils TableProps.

Section SameHead.
Variable md5_repr : signature → string.

Lemma unseen_app (seen : gset string) (l1 l2 : list table) :
  unseen md5_repr seen (l1 ++ l2)
  = unseen md5_repr seen l1
    ++ unseen md5_repr (seen ∪ list_to_set (map (sig_hash md5_repr) l1)) l2.
Proof.
  revert seen. induction l1 as [|t l1 IH]; intros seen; simpl.
  - now rewrite ?list_to_set_nil, (right_id_L ∅ (∪)).
  - rewrite ?list_to_set_cons.
    destruct (decide (sig_hash md5_repr t ∈ seen)) as [Hs|Hs]; rewrite IH.
    + do 2 f_equal. apply set_eq. intros x.
      rewrite !elem_of_union, elem_of_singleton. split; [tauto|].
      intros [H|[->|H]]; tauto.
    + simpl. do 2 f_equal. now rewrite (assoc_L (∪)).
Qed.

(** Two frames with the same header (up to case and outer blanks) and the
    same first eight rows (up to case and spacing) have one signature. *)
Definition same_head (df1 df2 : dataframe) : Prop :=
  map (fun c => lower (strip c)) (columns df1) = map (fun c => lower (strip c)) (columns df2) ∧
  firstn 8 (map (map normalize_cell) (rows df1)) = firstn 8 (map (map normalize_cell) (rows df2)).

Lemma same_head_signature (t1 t2 : table) (df1 df2 : dataframe) :
  df_of t1 = Some df1 → df_of t2 = Some df2 → same_head df1 df2 →
  signature_of t1 = signature_of t2.
Proof.
  unfold df_of, signature_of, same_head, _normalize_dataframe_for_signature.
  intros H1 H2 [Hc Hr].
  destruct (body t1) as [d1|d1|?], (body t2) as [d2|d2|?]; try discriminate;
    injection H1 as ->; injection H2 as ->; simpl; now rewrite Hc, Hr.
Qed.

(** X12. Only the header and the first eight rows of a table are
    compared: a table that agrees on them with a table standing before it
    in the list is dropped as its duplicate, whatever its later rows hold
    and whichever engine it comes from; taking it out of the list does not
    change the result. *)
Theorem comparing_tables_first_rows (l1 l2 l3 : list table) (t1 t2 : table)
    (df1 df2 : dataframe) :
  df_of t1 = Some df1 → df_of t2 = Some df2 → same_head df1 df2 →
  comparing_tables md5_repr (l1 ++ t1 :: l2 ++ t2 :: l3)
  = comparing_tables md5_repr (l1 ++ t1 :: l2 ++ l3).
Proof.
  intros H1 H2 Hs. pose proof (same_head_signature _ _ _ _ H1 H2 Hs) as Hsig.
  rewrite !comparing_tables_unseen.
  change (l1 ++ t1 :: l2 ++ t2 :: l3) with (l1 ++ (t1 :: l2) ++ t2 :: l3).
  change (l1 ++ t1 :: l2 ++ l3) with (l1 ++ (t1 :: l2) ++ l3).
  rewrite !(unseen_app _ l1), !(unseen_app _ (t1 :: l2)). do 2 f_equal.
  simpl unseen at 1.
  destruct (decide (sig_hash md5_repr t2 ∈ _)) as [_|Hn]; [reflexivity|].
  exfalso. apply Hn. apply elem_of_union_r. simpl. rewrite ?list_to_set_cons.
  apply elem_of_union_l, elem_of_singleton. unfold sig_hash. now rewrite Hsig.
Qed.

End SameHead.

(** Two statements of nine lines that differ in the ninth line only. *)
Definition nine_rows (last : string) : dataframe :=
  DataFrame ["Item"; "Total"]
    [["a"; "1"]; ["b"; "2"]; ["c"; "3"]; ["d"; "4"]; ["e"; "5"]; ["f"; "6"]; ["g"; "7"];
     ["h"; "8"]; ["total"; last]].

Lemma comparing_tables_first_rows_witness :
  df_of (Table 1 (Camelot (nine_rows "36"))) = Some (nine_rows "36") ∧
  df_of (Table 2 (Pandas (nine_rows "99"))) = Some (nine_rows "99") ∧
  same_head (nine_rows "36") (nine_rows "99") ∧
  comparing_tables DocProps.plain_hash
    ([] ++ Table 1 (Camelot (nine_rows "36")) :: [] ++ Table 2 (Pandas (nine_rows "99")) :: [])
  = comparing_tables DocProps.plain_hash ([] ++ Table 1 (Camelot (nine_rows "36")) :: [] ++ []).
Proof.
  split; [reflexivity|]. split; [reflexivity|].
  assert (H : same_head (nine_rows "36") (nine_rows "99")) by (split; reflexivity).
  split; [exact H|].
  exact (comparing_tables_first_rows DocProps.plain_hash [] [] []
           (Table 1 (Camelot (nine_rows "36"))) (Table 2 (Pandas (nine_rows "99")))
           (nine_rows "36") (nine_rows "99") eq_refl eq_refl H).
Defined.

End DedupeProps.

(** ** [fallback_table_extraction]: what the engines return is handed on *)

Module FallbackProps.
Import PyStr Py OcrUtils TableProps.

Section Engines.
Variable E : engines.

(** The PDF is taken for a scan: PyMuPDF returned the text of the first
    page, and it is blank. *)
Definition scanned (pdf_path : string) : Prop :=
  ∃ text, first_page_text E pdf_path = Ok text ∧ strip text = EmptyString.

Lemma is_pdf_not_image (image_path : string) :
  is_pdf image_path = true → is_image image_path = false.
Proof.
  unfold is_pdf, is_image. intros H. apply String.eqb_eq in H. now rewrite H.
Qed.

Lemma pdf_for_pdf (image_path : string) :
  is_pdf image_path = true → pdf_for E image_path = (Ok (Some image_path), []).
Proof.
  intros H. pose proof (is_pdf_not_image _ H) as Hi.
  unfold is_image in Hi. unfold is_pdf in H. unfold pdf_for. now rewrite Hi, H.
Qed.

Lemma scanned_check (pdf_path : string) :
  ∃ log,
    try_except (is_scanned_pdf E pdf_path)
      (fun e => logging WARNING "is_scanned_pdf failed" ;; mret false)
    = (Ok (match first_page_text E pdf_path with
           | Ok text => String.length (strip text) =? 0
           | Raise _ => false
           end), log).
Proof.
  unfold is_scanned_pdf.
  destruct (first_page_text E pdf_path) as [text|exn]; eexists; reflexivity.
Qed.

Lemma read_both_ok (read : flavor → outcome (option (list table))) (message : string)
    (lattice stream : option (list table)) :
  read Lattice = Ok lattice → read Stream = Ok stream →
  read_both read message = (Ok (or_empty lattice, or_empty stream), []).
Proof. intros Hl Hs. unfold read_both. now rewrite Hl, Hs. Qed.

(** X13. For a PDF, the lists Tabula returns are handed on as they are
    (with [None] read as the empty list) whether or not the PDF is
    scanned.  When the first page is blank the two Camelot lists are empty
    whatever Camelot would return, and the log says that Camelot was
    skipped; when the first page has text, or PyMuPDF fails, the lists
    Camelot returns are handed on as well. *)
Theorem fallback_table_extraction_pdf (image_path : string)
    (tl ts : option (list table)) :
  is_pdf image_path = true →
  tabula_read_pdf E image_path Lattice = Ok tl →
  tabula_read_pdf E image_path Stream = Ok ts →
  ∃ table_dict log,
    fallback_table_extraction E image_path = (Ok table_dict, log) ∧
    table_dict !! "tabula_lattice" = Some (or_empty tl) ∧
    table_dict !! "tabula_stream" = Some (or_empty ts) ∧
    (scanned image_path →
       table_dict !! "camelot_lattice" = Some [] ∧ table_dict !! "camelot_stream" = Some [] ∧
       (INFO, "appears to be scanned (image-only); skipping Camelot.") ∈ log) ∧
    (¬ scanned image_path →
       ∀ cl cs, camelot_read_pdf E image_path Lattice = Ok cl →
                camelot_read_pdf E image_path Stream = Ok cs →
                table_dict !! "camelot_lattice" = Some (or_empty cl) ∧
                table_dict !! "camelot_stream" = Some (or_empty cs)).
Proof.
  intros Hpdf Htl Hts. unfold fallback_table_extraction.
  rewrite (pdf_for_pdf _ Hpdf), bind_ok. cbv beta iota.
  destruct (scanned_check image_path) as (log1 & Hscan). rewrite Hscan, bind_ok.
  rewrite (read_both_ok _ "Error extracting tables with Tabula" _ _ Htl Hts).
  destruct (first_page_text E image_path) as [text|exn] eqn:Hfp.
  - destruct (String.length (strip text) =? 0) eqn:Hlen; cbn [negb].
    + rewrite log_then_ret, !bind_ok. unfold mret, M_ret. cbv beta iota.
      eexists _, _. split; [reflexivity|]. split; [reflexivity|]. split; [reflexivity|].
      split.
      * intros _. split; [reflexivity|]. split; [reflexivity|].
        repeat first [apply list_elem_of_here | apply elem_of_app; right].
      * intros Hno. exfalso. apply Hno. exists text. split; [exact Hfp|].
        apply Nat.eqb_eq in Hlen. destruct (strip text); [reflexivity | discriminate].
    + assert (Hno : ¬ scanned image_path).
      { intros (text' & Ht & Hs). rewrite Hfp in Ht. injection Ht as <-.
        rewrite Hs in Hlen. discriminate. }
      destruct (read_both_returns (camelot_read_pdf E image_path)
                  "Error extracting tables with Camelot") as (cl0 & cs0 & log2 & Hcam & _).
      rewrite Hcam, !bind_ok. unfold mret, M_ret. cbv beta iota.
      eexists _, _. split; [reflexivity|]. split; [reflexivity|]. split; [reflexivity|].
      split; [intros Hs; now destruct (Hno Hs)|].
      intros _ cl cs Hcl Hcs.
      rewrite (read_both_ok _ "Error extracting tables with Camelot" _ _ Hcl Hcs) in Hcam.
      injection Hcam as <- <- _. split; reflexivity.
  - assert (Hno : ¬ scanned image_path).
    { intros (text' & Ht & _). rewrite Hfp in Ht. discriminate. }
    cbn [negb].
    destruct (read_both_returns (camelot_read_pdf E image_path)
                "Error extracting tables with Camelot") as (cl0 & cs0 & log2 & Hcam & _).
    rewrite Hcam, !bind_ok. unfold mret, M_ret. cbv beta iota.
    eexists _, _. split; [reflexivity|]. split; [reflexivity|]. split; [reflexivity|].
    split; [intros Hs; now destruct (Hno Hs)|].
    intros _ cl cs Hcl Hcs.
    rewrite (read_both_ok _ "Error extracting tables with Camelot" _ _ Hcl Hcs) in Hcam.
    injection Hcam as <- <- _. split; reflexivity.
Qed.

End Engines.

(** A scanned PDF: a blank first page; Camelot would return a table. *)
Definition scan_engines : engines :=
  Engines (fun _ => true) (fun _ _ => Ok tt) (fun _ => Ok "  ")
          (fun _ _ => Ok (Some [DocProps.receipt_table])) (fun _ _ => Ok (Some [DocProps.receipt_table])).

Lemma fallback_table_extraction_pdf_witness :
  is_pdf "work/scan.PDF" = true ∧
  ∃ table_dict log,
    fallback_table_extraction scan_engines "work/scan.PDF" = (Ok table_dict, log) ∧
    table_dict !! "tabula_lattice" = Some (or_empty (Some [DocProps.receipt_table])) ∧
    table_dict !! "tabula_stream" = Some (or_empty (Some [DocProps.receipt_table])) ∧
    (scanned scan_engines "work/scan.PDF" →
       table_dict !! "camelot_lattice" = Some [] ∧ table_dict !! "camelot_stream" = Some [] ∧
       (INFO, "appears to be scanned (image-only); skipping Camelot.") ∈ log) ∧
    (¬ scanned scan_engines "work/scan.PDF" →
       ∀ cl cs, camelot_read_pdf scan_engines "work/scan.PDF" Lattice = Ok cl →
                camelot_read_pdf scan_engines "work/scan.PDF" Stream = Ok cs →
                table_dict !! "camelot_lattice" = Some (or_empty cl) ∧
                table_dict !! "camelot_stream" = Some (or_empty cs)).
Proof.
  split; [reflexivity|].
  exact (fallback_table_extraction_pdf scan_engines "work/scan.PDF" _ _ eq_refl eq_refl eq_refl).
Defined.

End FallbackProps.

(** ** [extract_data_from_docs]: what the results hold *)

Module ExtractProps.
Import PyStr Re SearchUtils Py OcrUtils GeneralUtils StrProps SearchProps HeuristicProps.

(** [res'] is [res] with results added at its end, all of them with [P]. *)
Definition extends (P : gmap string pyval → Prop) (res res' : list (gmap string pyval)) : Prop :=
  ∃ added, res' = res ++ added ∧ Forall P added.

Lemma extends_refl (P : gmap string pyval → Prop) (res : list (gmap string pyval)) :
  extends P res res.
Proof. exists []. split; [now rewrite app_nil_r | constructor]. Qed.

Lemma extends_trans (P : gmap string pyval → Prop) (a b c : list (gmap string pyval)) :
  extends P a b → extends P b c → extends P a c.
Proof.
  intros (x & -> & Hx) (y & -> & Hy). exists (x ++ y).
  split; [now rewrite app_assoc | now apply Forall_app].
Qed.

Lemma extends_snoc (P : gmap string pyval → Prop) (res : list (gmap string pyval))
    (r : gmap string pyval) :
  P r → extends P res (res ++ [r]).
Proof. intros Hr. exists [r]. split; [reflexivity | now constructor]. Qed.

Lemma extends_weaken (P Q : gmap string pyval → Prop) (a b : list (gmap string pyval)) :
  (∀ r, P r → Q r) → extends P a b → extends Q a b.
Proof.
  intros HPQ (x & -> & Hx). exists x. split; [reflexivity|].
  eapply Forall_impl; [exact Hx | exact HPQ].
Qed.

Lemma extends_Forall (P : gmap string pyval → Prop) (a b : list (gmap string pyval)) :
  Forall P a → extends P a b → Forall P b.
Proof. intros Ha (x & -> & Hx). now apply Forall_app. Qed.

(** A result of a document under a key: it names the document, carries
    its serial, has the key and has a value. *)
Definition result_of (image_name : string) (serial : pyval) (key : string)
    (r : gmap string pyval) : Prop :=
  get r "Image" = PStr image_name ∧ get r "Serial" = serial ∧ get r "Key" = PStr key ∧
  ∃ value, get r "Value" = PStr value.

Lemma make_result_of (image_name : string) (serial : pyval) (key value : string)
    (path : option string) :
  result_of image_name serial key (make_result image_name serial key value path).
Proof.
  unfold result_of, make_result, get. destruct path as [p|]; simplify_map_eq; eauto 10.
Qed.

Section Tables.
Variables (image_name : string) (serial : pyval) (term : string).

Abbreviation added := (extends (result_of image_name serial (lower term))).

Lemma header_rows_extends (df : dataframe) (col : string) (rws : list (list string))
    (res : list (gmap string pyval)) (found : bool) :
  added res (header_rows image_name serial term df col rws res found).1.1.
Proof.
  revert res found. induction rws as [|row rws IH]; intros res found; simpl.
  - apply extends_refl.
  - destruct (cell df row col) as [value|exn]; [|apply extends_refl].
    destruct (truthy value && negb (recorded res image_name (lower term) value)).
    + eapply extends_trans; [|apply IH].
      apply extends_snoc. exact (make_result_of image_name serial (lower term) value None).
    + apply IH.
Qed.

Lemma header_cols_extends (df : dataframe) (cols : list string)
    (res : list (gmap string pyval)) (found : bool) :
  added res (header_cols image_name serial term df cols res found).1.1.
Proof.
  revert res found. induction cols as [|col cols IH]; intros res found; simpl.
  - apply extends_refl.
  - destruct (contains (lower term) (lower col)); [|apply IH].
    pose proof (header_rows_extends df col (rows df) res found) as H.
    destruct (header_rows image_name serial term df col (rows df) res found)
      as [[res' found'] raised]. simpl in H.
    destruct raised; [exact H|]. destruct found'; [exact H|].
    eapply extends_trans; [exact H | apply IH].
Qed.

Lemma cell_row_extends (cells : list string) (res res' : list (gmap string pyval)) :
  cell_row image_name serial term cells res = Some res' → added res res'.
Proof.
  induction cells as [|c cells IH]; simpl; [discriminate|].
  destruct (contains (lower term) (lower c) && negb (recorded res image_name (lower term) c)).
  - intros [= <-].
    apply extends_snoc. exact (make_result_of image_name serial (lower term) c None).
  - exact IH.
Qed.

Lemma cell_rows_extends (rws : list (list string)) (res : list (gmap string pyval))
    (found : bool) :
  added res (cell_rows image_name serial term rws res found).1.
Proof.
  revert res found. induction rws as [|row rws IH]; intros res found; simpl.
  - apply extends_refl.
  - destruct (cell_row image_name serial term row res) as [r|] eqn:E.
    + simpl. now apply cell_row_extends in E.
    + destruct found; [apply extends_refl | apply IH].
Qed.

Lemma tables_loop_extends (tables : list table) (res : list (gmap string pyval))
    (found : bool) :
  added res (tables_loop image_name serial term tables res found).1.
Proof.
  revert res found. induction tables as [|t tables IH]; intros res found; simpl.
  - apply extends_refl.
  - destruct (df_of t) as [df|]; [|apply IH].
    pose proof (header_cols_extends df (columns df) res found) as H1.
    destruct (header_cols image_name serial term df (columns df) res found)
      as [[res1 found1] raised]. simpl in H1.
    destruct (negb raised && found1); [exact H1|].
    pose proof (cell_rows_extends (rows df) res1 found1) as H2.
    destruct (cell_rows image_name serial term (rows df) res1 found1) as [res2 found2].
    simpl in H2. pose proof (extends_trans _ _ _ _ H1 H2) as H12.
    destruct found2; [exact H12|].
    eapply extends_trans; [exact H12 | apply IH].
Qed.

Lemma flavors_loop_extends (md5_repr : signature → string) (flavors : list string)
    (table_dict : gmap string (list table)) (res : list (gmap string pyval)) :
  added res (flavors_loop image_name serial term md5_repr flavors table_dict res).
Proof.
  revert res. induction flavors as [|fl flavors IH]; intros res; simpl.
  - apply extends_refl.
  - pose proof (tables_loop_extends
                  (comparing_tables md5_repr (default [] (table_dict !! fl))) res false) as H.
    destruct (tables_loop image_name serial term _ res false) as [res' found]. simpl in H.
    destruct found; [exact H|]. eapply extends_trans; [exact H | apply IH].
Qed.

End Tables.

Lemma is_space_lower (c : ascii) : is_space (lower_chr c) = is_space c.
Proof. destruct c as [[] [] [] [] [] [] [] []]; vm_compute; reflexivity. Qed.

Lemma lower_lstrip (s : string) : lower (lstrip s) = lstrip (lower s).
Proof.
  induction s as [|c s IH]; [reflexivity|]. simpl. rewrite is_space_lower.
  destruct (is_space c); [exact IH | reflexivity].
Qed.

Lemma lower_rstrip (s : string) : lower (rstrip s) = rstrip (lower s).
Proof.
  induction s as [|c s IH]; [reflexivity|]. simpl. rewrite <- IH, is_space_lower.
  destruct (rstrip s); simpl; [destruct (is_space c)|]; reflexivity.
Qed.

(** Lowering and stripping commute. *)
Lemma lower_strip (s : string) : lower (strip s) = strip (lower s).
Proof. unfold strip. now rewrite lower_rstrip, lower_lstrip. Qed.

Lemma lower_length (s : string) : String.length (lower s) = String.length s.
Proof. induction s as [|c s IH]; [reflexivity|]. simpl. now rewrite IH. Qed.

Section Documents.
Variables (E : engines) (md5_repr : signature → string).
Variables (folder_path_ : path) (n : Z) (patterns : patterns_t).

Lemma table_fallback_extends (image_name : string) (serial : pyval) (term : string)
    (st : state) :
  extends (result_of image_name serial (lower term)) (results st)
    (results (table_fallback E md5_repr folder_path_ image_name serial term st)).
Proof.
  unfold table_fallback.
  destruct (fallback_table_extraction E (path_join (str_of folder_path_) image_name)) as [[d|exn] log];
    cbn [results]; [apply flavors_loop_extends | apply extends_refl].
Qed.

(** Without trace mode chained search returns a tuple, and the key of the
    tuple is the term up to case. *)
Lemma chained_search_tuple (term text : string) :
  ∃ key value, chained_search term text n false patterns = Single (Pair key value) ∧
               ∀ k, key = Some k → lower k = lower term.
Proof.
  unfold chained_search, chained_search_run. destruct (n =? 0)%Z; simpl.
  - destruct (searching_pair term text patterns) as (k & v & H). rewrite H.
    exists k, v. split; [reflexivity|]. intros k' ->.
    exact (searching_key_lower _ _ _ _ _ _ H).
  - destruct (otruthy _); eexists _, _; (split; [reflexivity|]); [intros k [= <-] | intros k [=]].
    reflexivity.
Qed.

(** Whether chained search leaves the term unresolved. *)
Definition unresolved (text term : string) : bool :=
  match chained_search term text n false patterns with
  | Single (Pair (Some key) (Some value)) => negb (truthy key && truthy value)
  | _ => true
  end.

(** A result of a document for a term: its key is the term in lowercase,
    stripped when the text gave the value and as it is when a table did. *)
Definition result_for (image_name : string) (serial : pyval) (term : string)
    (r : gmap string pyval) : Prop :=
  result_of image_name serial (lower (strip term)) r ∨ result_of image_name serial (lower term) r.

Lemma term_step_plain (image_name text : string) (serial : pyval) (st : state)
    (term : string) :
  ∃ st', term_step E md5_repr folder_path_ n false patterns image_name text serial st term
         = Ok st' ∧
         extends (result_for image_name serial term) (results st) (results st') ∧
         fallback_calls st'
         = fallback_calls st ++ (if unresolved text term then [(image_name, term)] else []).
Proof.
  unfold term_step, unresolved.
  destruct (chained_search_tuple term text) as (key & value & Hs & Hkey). rewrite Hs.
  assert (Hfall : ∃ st',
    Ok (table_fallback E md5_repr folder_path_ image_name serial term st) = Ok st' ∧
    extends (result_for image_name serial term) (results st) (results st') ∧
    fallback_calls st' = fallback_calls st ++ [(image_name, term)]).
  { eexists. split; [reflexivity|]. split.
    - eapply extends_weaken; [|apply table_fallback_extends]. intros r Hr. now right.
    - unfold table_fallback.
      destruct (fallback_table_extraction E (path_join (str_of folder_path_) image_name))
        as [[d|exn] log]; reflexivity. }
  destruct key as [k|]; [|exact Hfall]. destruct value as [v|]; [|exact Hfall].
  destruct (truthy k && truthy v); [|exact Hfall].
  assert (Hk : lower (strip k) = lower (strip term))
    by (now rewrite !lower_strip, (Hkey k eq_refl)).
  rewrite Hk. eexists. split; [reflexivity|]. cbn [results fallback_calls].
  split; [|now rewrite app_nil_r].
  apply extends_snoc. left.
  exact (make_result_of image_name serial (lower (strip term)) v None).
Qed.

Lemma terms_loop_plain (image_name text : string) (serial : pyval) (terms : list string)
    (st : state) :
  ∃ st', terms_loop E md5_repr folder_path_ n false patterns image_name text serial terms st
         = Ok st' ∧
         extends (fun r => ∃ t, t ∈ terms ∧ result_for image_name serial t r) (results st) (results st') ∧
         fallback_calls st'
         = fallback_calls st ++ map (pair image_name) (List.filter (unresolved text) terms).
Proof.
  revert st. induction terms as [|term terms IH]; intros st; cbn [terms_loop filter List.filter map].
  - exists st. split; [reflexivity|]. split; [apply extends_refl | now rewrite app_nil_r].
  - destruct (term_step_plain image_name text serial st term) as (st1 & H1 & He1 & Hc1).
    rewrite H1. destruct (IH st1) as (st2 & H2 & He2 & Hc2).
    exists st2. split; [exact H2|]. split.
    + eapply extends_trans.
      * eapply extends_weaken; [|exact He1]. intros r Hr. exists term.
        split; [apply list_elem_of_here | exact Hr].
      * eapply extends_weaken; [|exact He2]. intros r (t & Ht & Hr). exists t.
        split; [now apply list_elem_of_further | exact Hr].
    + rewrite Hc2, Hc1, <- app_assoc. f_equal.
      destruct (unresolved text term); reflexivity.
Qed.

(** The serial recorded for a document. *)
Definition serial_for (searching_serial : bool) (text : string) : pyval :=
  if searching_serial then serial_value (serial_number text patterns false) else PNone.

(** The calls of the table fallback for a list of documents: for each
    document in turn, the terms that its text leaves unresolved. *)
Definition expected_calls (terms : list string) (docs : list (string * string * string))
    : list (string * string) :=
  flat_map (fun d => map (pair d.1.1) (List.filter (unresolved d.1.2) terms)) docs.

Lemma docs_loop_plain (searching_serial : bool) (terms : list string)
    (docs : list (string * string * string)) (st : state) :
  ∃ st', docs_loop E md5_repr folder_path_ n false patterns searching_serial terms docs st
         = Ok st' ∧
         extends (fun r => ∃ d t, d ∈ docs ∧ t ∈ terms ∧
                              result_for d.1.1 (serial_for searching_serial d.1.2) t r)
           (results st) (results st') ∧
         fallback_calls st' = fallback_calls st ++ expected_calls terms docs.
Proof.
  revert st. induction docs as [|[[image_name text] image_path] docs IH]; intros st;
    cbn [docs_loop expected_calls flat_map].
  - exists st. split; [reflexivity|]. split; [apply extends_refl | now rewrite app_nil_r].
  - fold (serial_for searching_serial text).
    destruct (terms_loop_plain image_name text (serial_for searching_serial text) terms st)
      as (st1 & H1 & He1 & Hc1).
    rewrite H1. destruct (IH st1) as (st2 & H2 & He2 & Hc2).
    exists st2. split; [exact H2|]. split.
    + eapply extends_trans.
      * eapply extends_weaken; [|exact He1]. intros r (t & Ht & Hr).
        exists (image_name, text, image_path), t.
        split; [apply list_elem_of_here|]. split; [exact Ht | exact Hr].
      * eapply extends_weaken; [|exact He2]. intros r (d & t & Hd & Ht & Hr).
        exists d, t. split; [now apply list_elem_of_further|]. split; [exact Ht | exact Hr].
    + now rewrite Hc2, Hc1, <- app_assoc.
Qed.

(** X14. Without trace mode [extract_data_from_docs] returns (the loop
    raises nothing), and the table fallback is called exactly for the
    documents and terms that chained search leaves unresolved, document
    after document and term after term. *)
Theorem extract_data_fallback_calls (image_names texts image_paths : list string)
    (searching_serial : bool) (terms : list string) :
  ∃ st,
    extract_data_run E md5_repr folder_path_ n false patterns
      image_names texts image_paths searching_serial terms = Ok st ∧
    extract_data_from_docs E md5_repr folder_path_ n false patterns
      image_names texts image_paths searching_serial terms = Ok (results st) ∧
    fallback_calls st = expected_calls terms (zip (zip image_names texts) image_paths).
Proof.
  unfold extract_data_from_docs, extract_data_run.
  destruct (docs_loop_plain searching_serial terms (zip (zip image_names texts) image_paths)
              (State [] [])) as (st & H & _ & Hc).
  exists st. rewrite H. split; [reflexivity|]. split; [reflexivity | exact Hc].
Qed.

(** What chained search returns without trace mode: the tuple of
    [searching] when the hop bound is zero, and otherwise the term itself
    with the last value of the chain, or the pair of [None]s. *)
Lemma chained_search_cases (term text : string) :
  ∃ key value, chained_search term text n false patterns = Single (Pair key value) ∧
               (n ≠ 0%Z → ∀ k, key = Some k → k = term) ∧
               (n = 0%Z → searching term text patterns false = Pair key value).
Proof.
  unfold chained_search, chained_search_run. destruct (n =? 0)%Z eqn:Hn; simpl.
  - destruct (searching_pair term text patterns) as (k & v & H). rewrite H.
    exists k, v. split; [reflexivity|]. split; [|intros _; reflexivity].
    apply Z.eqb_eq in Hn. intros Hne. contradiction.
  - apply Z.eqb_neq in Hn.
    destruct (otruthy _); eexists _, _; (split; [reflexivity|]);
      (split; [|intros H0; contradiction]); intros _ k [=]. congruence.
Qed.

(** The results of one document for one term.  Either chained search
    resolves the term from the text, and there is one result: its value is
    the value chained search returned, and its key the key chained search
    returned, stripped and in lowercase.  Or the term is unresolved, and
    the results are those read from the tables: each has the term in
    lowercase, not stripped, as its key. *)
Definition step_results (image_name : string) (serial : pyval) (text term : string)
    (g : list (gmap string pyval)) : Prop :=
  (∃ key value,
     chained_search term text n false patterns = Single (Pair (Some key) (Some value)) ∧
     truthy key = true ∧ truthy value = true ∧
     (n ≠ 0%Z → key = term) ∧
     (n = 0%Z → searching term text patterns false = Pair (Some key) (Some value)) ∧
     g = [make_result image_name serial (lower (strip key)) value None])
  ∨ (unresolved text term = true ∧ Forall (result_of image_name serial (lower term)) g).

Lemma term_step_group (image_name text : string) (serial : pyval) (st : state)
    (term : string) :
  ∃ st' g, term_step E md5_repr folder_path_ n false patterns image_name text serial st term
           = Ok st' ∧
           results st' = results st ++ g ∧ step_results image_name serial text term g.
Proof.
  unfold term_step, step_results, unresolved.
  destruct (chained_search_cases term text) as (key & value & Hs & Hn & H0). rewrite Hs.
  destruct (table_fallback_extends image_name serial term st) as (added & Hres & Hall).
  destruct key as [k|]; [|eauto 10]. destruct value as [v|]; [|eauto 10].
  destruct (truthy k) eqn:Hk; [|eauto 10]. destruct (truthy v) eqn:Hv.
  - eexists _, _. split; [reflexivity|]. split; [reflexivity|]. left.
    exists k, v. repeat split; auto.
  - rewrite andb_false_r. eauto 10.
Qed.

Lemma terms_loop_groups (image_name text : string) (serial : pyval) (terms : list string)
    (st : state) :
  ∃ st' gs, terms_loop E md5_repr folder_path_ n false patterns image_name text serial terms st
            = Ok st' ∧
            results st' = results st ++ concat gs ∧
            Forall2 (step_results image_name serial text) terms gs.
Proof.
  revert st. induction terms as [|term terms IH]; intros st; cbn [terms_loop].
  - exists st, []. split; [reflexivity|]. split; [now rewrite app_nil_r | constructor].
  - destruct (term_step_group image_name text serial st term) as (st1 & g & H1 & Hr1 & Hg).
    rewrite H1. destruct (IH st1) as (st2 & gs & H2 & Hr2 & Hgs).
    exists st2, (g :: gs). split; [exact H2|]. split.
    + rewrite Hr2, Hr1, <- app_assoc. reflexivity.
    + now constructor.
Qed.

(** The documents paired with the terms, in the order of the two loops. *)
Definition searches (terms : list string) (docs : list (string * string * string))
    : list (string * string * string) :=
  flat_map (fun d => map (fun term => (d.1.1, d.1.2, term)) terms) docs.

(** The results of the search [(image_name, text, term)]. *)
Definition search_results (searching_serial : bool) (p : string * string * string)
    (g : list (gmap string pyval)) : Prop :=
  step_results p.1.1 (serial_for searching_serial p.1.2) p.1.2 p.2 g.

Lemma docs_loop_groups (searching_serial : bool) (terms : list string)
    (docs : list (string * string * string)) (st : state) :
  ∃ st' gs, docs_loop E md5_repr folder_path_ n false patterns searching_serial terms docs st
            = Ok st' ∧
            results st' = results st ++ concat gs ∧
            Forall2 (search_results searching_serial) (searches terms docs) gs.
Proof.
  revert st. induction docs as [|[[image_name text] image_path] docs IH]; intros st;
    cbn [docs_loop searches flat_map].
  - exists st, []. split; [reflexivity|]. split; [now rewrite app_nil_r | constructor].
  - fold (serial_for searching_serial text).
    destruct (terms_loop_groups image_name text (serial_for searching_serial text) terms st)
      as (st1 & gs1 & H1 & Hr1 & Hg1).
    rewrite H1. destruct (IH st1) as (st2 & gs2 & H2 & Hr2 & Hg2).
    exists st2, (gs1 ++ gs2). split; [exact H2|]. split.
    + rewrite Hr2, Hr1, concat_app, <- app_assoc. reflexivity.
    + apply Forall2_app; [|exact Hg2]. cbn [fst snd].
      clear -Hg1. induction Hg1; constructor; assumption.
Qed.

(** X15. Without trace mode the results are those of the searches, one
    document after the other and, for each document, one term after the
    other.  A search of a term that chained search resolves from the text
    gives one result: its value is the value chained search returned, and
    its key is the key chained search returned, stripped of outer blanks
    and in lowercase (with a hop bound other than zero that key is the
    term itself; with a hop bound of zero it is the key of [searching]).
    A search of a term that is left unresolved gives the results read
    from the tables of the document, whose key is the term in lowercase,
    not stripped.  Every result names its document, carries the serial
    found in the text of that document ([None] when serials are not
    searched for) and has a value. *)
Theorem extract_data_result_keys (image_names texts image_paths : list string)
    (searching_serial : bool) (terms : list string) (res : list (gmap string pyval)) :
  extract_data_from_docs E md5_repr folder_path_ n false patterns
    image_names texts image_paths searching_serial terms = Ok res →
  ∃ groups,
    res = concat groups ∧
    Forall2 (search_results searching_serial)
      (searches terms (zip (zip image_names texts) image_paths)) groups ∧
    Forall (fun r => ∃ image_name text key,
              (image_name, text) ∈ zip image_names texts ∧
              result_of image_name (serial_for searching_serial text) key r) res.
Proof.
  unfold extract_data_from_docs, extract_data_run.
  destruct (docs_loop_groups searching_serial terms (zip (zip image_names texts) image_paths)
              (State [] [])) as (st & gs & H & Hr & Hgs).
  rewrite H. intros [= <-]. simpl in Hr. exists gs. split; [exact Hr|]. split; [exact Hgs|].
  rewrite Hr. clear H Hr.
  assert (Hin : ∀ p, p ∈ searches terms (zip (zip image_names texts) image_paths) →
                     (p.1.1, p.1.2) ∈ zip image_names texts).
  { intros p Hp. unfold searches in Hp. apply list_elem_of_In, in_flat_map in Hp.
    destruct Hp as ([[image_name text] image_path] & Hd & Hp).
    apply in_map_iff in Hp. destruct Hp as (t & <- & _). cbn [fst snd].
    apply list_elem_of_In, list_elem_of_lookup in Hd. destruct Hd as (i & Hi).
    apply lookup_zip_with_Some in Hi. destruct Hi as (x & y & Hxy & Hx & _).
    injection Hxy as -> ->. apply list_elem_of_lookup. eauto. }
  revert Hin. induction Hgs as [|p g ps gs Hg _ IH]; intros Hin; [constructor|].
  cbn [concat]. apply Forall_app. split.
  - assert (Hp := Hin p (list_elem_of_here _ _)).
    destruct Hg as [(key & value & _ & _ & _ & _ & _ & ->)|[_ Hall]].
    + constructor; [|constructor].
      exists p.1.1, p.1.2, (lower (strip key)).
      split; [exact Hp | apply make_result_of].
    + eapply Forall_impl; [exact Hall|]. intros r Hres.
      exists p.1.1, p.1.2, (lower p.2). split; [exact Hp | exact Hres].
  - apply IH. intros q Hq. apply Hin. now apply list_elem_of_further.
Qed.

(** In either mode, a step that returns has added results of the document. *)
Lemma term_step_extends (dev : bool) (image_name text : string) (serial : pyval)
    (st st' : state) (term : string) :
  term_step E md5_repr folder_path_ n dev patterns image_name text serial st term = Ok st' →
  extends (fun r => ∃ key, result_of image_name serial key r) (results st) (results st').
Proof.
  assert (Hfall : ∀ st0,
    extends (fun r => ∃ key, result_of image_name serial key r) (results st0)
      (results (table_fallback E md5_repr folder_path_ image_name serial term st0))).
  { intros st0. eapply extends_weaken; [|apply table_fallback_extends]. intros r Hr. eauto. }
  assert (Hrec : ∀ key value path,
    extends (fun r => ∃ key, result_of image_name serial key r) (results st)
      (results (table_fallback E md5_repr folder_path_ image_name serial term
         (State (results st ++ [make_result image_name serial key value path])
                (fallback_calls st))))).
  { intros key value path. eapply extends_trans; [|apply Hfall]. cbn [results].
    apply extends_snoc. exists key. apply make_result_of. }
  destruct dev.
  - unfold term_step.
    destruct (chained_search term text n true patterns) as [[key value|l]|[|hop hops]].
    + destruct (unpack2 value) as [[final_key final_value]|]; [|discriminate].
      destruct (unpack2 key) as [[k1 k2]|]; [|discriminate].
      intros [= <-]. refine (Hrec _ _ (Some _)).
    + discriminate.
    + intros [= <-]. apply Hfall.
    + destruct (List.last hops hop) as [final_key final_value]. intros [= <-].
      refine (Hrec _ _ (Some _)).
  - destruct (term_step_plain image_name text serial st term) as (st1 & H1 & He & _).
    rewrite H1. intros [= <-]. eapply extends_weaken; [|exact He].
    intros r [Hr|Hr]; eauto.
Qed.

Lemma terms_loop_extends (dev : bool) (image_name text : string) (serial : pyval)
    (terms : list string) (st st' : state) :
  terms_loop E md5_repr folder_path_ n dev patterns image_name text serial terms st = Ok st' →
  extends (fun r => ∃ key, result_of image_name serial key r) (results st) (results st').
Proof.
  revert st. induction terms as [|term terms IH]; intros st; cbn [terms_loop].
  - intros [= <-]. apply extends_refl.
  - destruct (term_step E md5_repr folder_path_ n dev patterns image_name text serial st term)
      as [st1|exn] eqn:H1; [|discriminate].
    intros H2. eapply extends_trans; [exact (term_step_extends _ _ _ _ _ _ _ H1) | exact (IH _ H2)].
Qed.

Lemma docs_loop_extends (dev searching_serial : bool) (terms : list string)
    (docs : list (string * string * string)) (st st' : state) :
  docs_loop E md5_repr folder_path_ n dev patterns searching_serial terms docs st = Ok st' →
  extends (fun r => ∃ d key, d ∈ docs ∧
                       result_of d.1.1 (serial_for searching_serial d.1.2) key r)
    (results st) (results st').
Proof.
  revert st. induction docs as [|[[image_name text] image_path] docs IH]; intros st;
    cbn [docs_loop].
  - intros [= <-]. apply extends_refl.
  - fold (serial_for searching_serial text).
    destruct (terms_loop E md5_repr folder_path_ n dev patterns image_name text
                (serial_for searching_serial text) terms st)
      as [st1|exn] eqn:H1; [|discriminate].
    intros H2. eapply extends_trans.
    + eapply extends_weaken; [|exact (terms_loop_extends _ _ _ _ _ _ _ H1)].
      intros r (key & Hr). exists (image_name, text, image_path), key.
      split; [apply list_elem_of_here | exact Hr].
    + eapply extends_weaken; [|exact (IH _ H2)].
      intros r (d & key & Hd & Hr). exists d, key.
      split; [now apply list_elem_of_further | exact Hr].
Qed.

(** X16. In either mode, every result that [extract_data_from_docs]
    returns has an image name, a key and a value, none of them [None]:
    [final_dict] skips none of them, and [save_results_if_any] asks for the
    workbook to be written exactly when the list of results is not empty. *)
Theorem extract_data_results_count (dev : bool) (image_names texts image_paths : list string)
    (searching_serial : bool) (terms : list string) (res : list (gmap string pyval))
    (write : ExcelUtils.workbook → outcome unit) (excel_file : string) :
  extract_data_from_docs E md5_repr folder_path_ n dev patterns
    image_names texts image_paths searching_serial terms = Ok res →
  Forall (fun r => get r "Image" ≠ PNone ∧ SaveProps.counts r) res ∧
  filter (fun r => is_Some (AggregateProps.entry r)) res = res ∧
  ExcelUtils.save_results_if_any write res excel_file
  = match res with
    | [] => (Ok false, [(INFO, "No matches found.")])
    | _ => call (write (SaveProps.workbook_of res excel_file)) ;;
           logging INFO "Results saved" ;; mret true
    end.
Proof.
  unfold extract_data_from_docs, extract_data_run.
  destruct (docs_loop _ _ _ _ _ _ _ _ _ _) as [st|exn] eqn:H; [|discriminate].
  intros [= <-]. apply docs_loop_extends in H.
  assert (Hall : Forall (fun r => get r "Image" ≠ PNone ∧ SaveProps.counts r) (results st)).
  { apply (extends_Forall _ [] _ (Forall_nil_2 _)).
    eapply extends_weaken; [|exact H].
    intros r (d & key & _ & Hi & _ & Hk & v & Hv). unfold SaveProps.counts.
    rewrite Hi, Hk, Hv. repeat split; discriminate. }
  split; [exact Hall|]. split.
  - clear H. induction Hall as [|r l [_ Hr] _ IH]; [reflexivity|].
    rewrite filter_cons, decide_True by (now apply SaveProps.counts_entry). now rewrite IH.
  - destruct (results st) as [|r l] eqn:Hres.
    + apply SaveProps.save_none. intros Hex. now apply Exists_nil in Hex.
    + apply SaveProps.save_some. apply Exists_cons_hd.
      apply Forall_cons in Hall. now destruct Hall as [[_ Hr] _].
Qed.

End Documents.

Lemma unpack2_length (x : option string) (p : string * string) :
  unpack2 x = Ok p → ∃ s, x = Some s ∧ String.length s = 2.
Proof.
  destruct x as [[|a [|b [|c s]]]|]; simpl; try discriminate. intros _. eauto.
Qed.

(** X17. Trace mode with a hop bound of zero: chained search then returns
    the tuple of [searching], and the loop unpacks its value, and then its
    key, as if each were a hop.  For a term whose length is not two
    characters this fails on the first document: the extraction raises
    (a [TypeError] when the term has no value, a [ValueError] otherwise)
    and returns no result at all. *)
Theorem extract_data_trace_zero_hops (E : engines) (md5_repr : signature → string)
    (folder_path_ : path) (patterns : patterns_t)
    (image_name text image_path term : string) (image_names texts image_paths terms : list string)
    (searching_serial : bool) :
  String.length term ≠ 2 →
  ∃ exn,
    extract_data_from_docs E md5_repr folder_path_ 0 true patterns
      (image_name :: image_names) (text :: texts) (image_path :: image_paths)
      searching_serial (term :: terms) = Raise exn ∧
    (exn = "TypeError" ∨ exn = "ValueError").
Proof.
  intros Hlen.
  assert (Hstep : ∀ serial st, ∃ exn,
    term_step E md5_repr folder_path_ 0 true patterns image_name text serial st term
    = Raise exn ∧ (exn = "TypeError" ∨ exn = "ValueError")).
  { intros serial st. unfold term_step.
    change (chained_search term text 0 true patterns)
      with (Single (searching term text patterns false)).
    destruct (searching_pair term text patterns) as (key & value & Hs). rewrite Hs.
    destruct (unpack2 value) as [[final_key final_value]|exn] eqn:Hv.
    - destruct (unpack2 key) as [[k1 k2]|exn] eqn:Hk.
      + exfalso. apply unpack2_length in Hk. destruct Hk as (k & -> & Hk).
        apply searching_key_lower in Hs. apply Hlen.
        rewrite <- (lower_length term), <- Hs, lower_length. exact Hk.
      + exists exn. split; [reflexivity|].
        destruct key as [[|a [|b [|c s]]]|]; simpl in Hk; try discriminate;
          injection Hk as <-; auto.
    - exists exn. split; [reflexivity|].
      destruct value as [[|a [|b [|c s]]]|]; simpl in Hv; try discriminate;
        injection Hv as <-; auto. }
  unfold extract_data_from_docs, extract_data_run. cbn [zip zip_with docs_loop terms_loop].
  match goal with |- context [term_step _ _ _ _ _ _ _ _ ?ser ?st _] =>
    destruct (Hstep ser st) as (exn & H & Hexn)
  end.
  rewrite H. eauto.
Qed.

Lemma extract_data_trace_zero_hops_witness :
  String.length "total" ≠ 2 ∧
  ∃ exn,
    extract_data_from_docs DocProps.receipt_engines DocProps.plain_hash (Path "work") 0 true None
      ("doc.pdf" :: []) ("total: 45.99" :: []) ("work/doc.pdf" :: []) false ("total" :: [])
    = Raise exn ∧ (exn = "TypeError" ∨ exn = "ValueError").
Proof.
  assert (H : String.length "total" ≠ 2) by (simpl; lia).
  split; [exact H|].
  exact (extract_data_trace_zero_hops DocProps.receipt_engines DocProps.plain_hash (Path "work") None
           "doc.pdf" "total: 45.99" "work/doc.pdf" "total" [] [] [] [] false H).
Defined.

Lemma extract_data_result_keys_witness :
  extract_data_from_docs DocProps.receipt_engines DocProps.plain_hash (Path "work") 0 false None
    ["doc.pdf"] ["Sub total : 45.99"] ["work/doc.pdf"] false [" TOTAL "; "item"]
  = Ok [make_result "doc.pdf" PNone "total" "45.99" None;
        make_result "doc.pdf" PNone "item" "pen" None] ∧
  ∃ groups,
    [make_result "doc.pdf" PNone "total" "45.99" None;
     make_result "doc.pdf" PNone "item" "pen" None] = concat groups ∧
    Forall2 (search_results 0 None false)
      (searches [" TOTAL "; "item"]
         (zip (zip ["doc.pdf"] ["Sub total : 45.99"]) ["work/doc.pdf"])) groups ∧
    Forall (fun r => ∃ image_name text key,
              (image_name, text) ∈ zip ["doc.pdf"] ["Sub total : 45.99"] ∧
              result_of image_name (serial_for None false text) key r)
      [make_result "doc.pdf" PNone "total" "45.99" None;
       make_result "doc.pdf" PNone "item" "pen" None].
Proof.
  assert (H : extract_data_from_docs DocProps.receipt_engines DocProps.plain_hash (Path "work") 0 false
                None ["doc.pdf"] ["Sub total : 45.99"] ["work/doc.pdf"] false [" TOTAL "; "item"]
              = Ok [make_result "doc.pdf" PNone "total" "45.99" None;
                    make_result "doc.pdf" PNone "item" "pen" None])
    by (vm_compute; reflexivity).
  split; [exact H|].
  exact (extract_data_result_keys _ _ _ _ _ _ _ _ _ _ _ H).
Defined.

Lemma extract_data_results_count_witness :
  extract_data_from_docs DocProps.receipt_engines DocProps.plain_hash (Path "work") 1 true None
    ["doc.pdf"] ["total: 45.99"] ["work/doc.pdf"] false ["total"]
  = Ok [make_result "doc.pdf" PNone "total" "45.99" (Some "total:45.99");
        make_result "doc.pdf" PNone "total" "99" None] ∧
  Forall (fun r => get r "Image" ≠ PNone ∧ SaveProps.counts r)
    [make_result "doc.pdf" PNone "total" "45.99" (Some "total:45.99");
     make_result "doc.pdf" PNone "total" "99" None].
Proof.
  assert (H : extract_data_from_docs DocProps.receipt_engines DocProps.plain_hash (Path "work") 1 true
                None ["doc.pdf"] ["total: 45.99"] ["work/doc.pdf"] false ["total"]
              = Ok [make_result "doc.pdf" PNone "total" "45.99" (Some "total:45.99");
                    make_result "doc.pdf" PNone "total" "99" None])
    by (vm_compute; reflexivity).
  split; [exact H|].
  exact (proj1 (extract_data_results_count _ _ _ _ _ _ _ _ _ _ _ _ (fun _ => Ok tt) "out" H)).
Defined.

End ExtractProps.

(** ** [get_files_name]: the files the scanner takes from the folder *)

Module FolderProps.
Import PyStr Py OcrUtils GeneralUtils TableProps StrProps ReProps.

Lemma slash_code (c : ascii) : (code c =? 47) = Ascii.eqb c "/".
Proof. destruct c as [[] [] [] [] [] [] [] []]; vm_compute; reflexivity. Qed.

Lemma path_name_go_plain (cur name : string) :
  has_chr "/" name = false → path_name_go cur name = cur +:+ name.
Proof.
  revert cur. induction name as [|c name IH]; intros cur H; simpl in *.
  - now rewrite app_empty_r.
  - rewrite slash_code. destruct (Ascii.eqb c "/"); [discriminate|].
    rewrite (IH _ H), app_assoc_s. reflexivity.
Qed.

(** The name of a file of a folder is the last component of its path. *)
Lemma path_name_join (folder name : string) :
  name ≠ EmptyString → has_chr "/" name = false →
  path_name (path_join folder name) = name.
Proof.
  intros Hne Hno. unfold path_name, path_join. generalize EmptyString at 1 as cur.
  induction folder as [|c folder IH]; intros cur.
  - rewrite app_empty. change ("/" +:+ name) with (String "/" name). simpl.
    destruct name; [congruence|]. simpl truthy. cbv iota.
    now rewrite path_name_go_plain.
  - rewrite app_cons. simpl. destruct (code c =? 47); apply IH.
Qed.

Lemma suffix_join (folder name : string) :
  name ≠ EmptyString → has_chr "/" name = false →
  suffix (path_join folder name) = suffix name.
Proof.
  intros Hne Hno. unfold suffix. rewrite (path_name_join _ _ Hne Hno).
  unfold path_name. now rewrite (path_name_go_plain EmptyString name Hno).
Qed.

(** The table fallback takes the file for an image or for a PDF. *)
Definition supported (image_path : string) : bool := is_image image_path || is_pdf image_path.

Lemma kept_supported (folder name : string) :
  name ≠ EmptyString → has_chr "/" name = false →
  in_list (lower (suffix name)) ImageUtils.searching_files_extensions
  = supported (path_join folder name).
Proof.
  intros Hne Hno. unfold supported, is_image, is_pdf. rewrite (suffix_join _ _ Hne Hno).
  unfold in_list, ImageUtils.searching_files_extensions, searching_files_extensions. simpl.
  now rewrite !orb_false_r, !orb_assoc.
Qed.

Lemma filter_sublist {A : Type} (f : A → bool) (l : list A) : sublist (List.filter f l) l.
Proof.
  induction l as [|x l IH]; simpl; [constructor|].
  destruct (f x); [now apply sublist_skip | now apply sublist_cons].
Qed.

(** X18. [get_files_name] never raises.  When the folder can not be
    listed it returns the empty list and logs one error.  Otherwise it
    keeps the listed names in their order, and keeps a name exactly when
    the table fallback supports a file of that name (whatever the folder):
    no file the scanner takes is later refused as an unsupported type. *)
Theorem get_files_name_supported (listdir : outcome (list string)) :
  ∃ names log,
    ImageUtils.get_files_name listdir = (Ok names, log) ∧
    (∀ exn, listdir = Raise exn → names = [] ∧ ∃ message, log = [(ERROR, message)]) ∧
    (∀ listing, listdir = Ok listing →
       log = [] ∧ sublist names listing ∧
       ∀ folder name, name ∈ listing → name ≠ EmptyString → has_chr "/" name = false →
         (name ∈ names ↔ supported (path_join folder name) = true)).
Proof.
  unfold ImageUtils.get_files_name. destruct listdir as [listing|exn].
  - eexists _, _. split; [reflexivity|]. split; [discriminate|].
    intros listing' [= <-]. split; [reflexivity|]. split; [apply filter_sublist|].
    intros folder name Hin Hne Hno.
    rewrite <- (kept_supported folder name Hne Hno).
    rewrite list_elem_of_In, filter_In, <- list_elem_of_In. tauto.
  - eexists _, _. split; [reflexivity|]. split; [|discriminate].
    intros exn' _. split; [reflexivity|]. eexists. reflexivity.
Qed.

End FolderProps.

(** ** [normalize_keywords] and [get_search_terms]: keywords given as a list *)

Module KeywordProps.
Import PyStr Re SearchUtils Py GeneralUtils Main StrProps ReProps SearchProps SerialProps.

Lemma dict_get_set {V : Type} (k k' : string) (v : V) (d : list (string * V)) :
  dict_get (dict_set k v d) k' = if String.eqb k k' then Some v else dict_get d k'.
Proof.
  induction d as [|[k0 v0] d IH]; simpl.
  - reflexivity.
  - destruct (String.eqb_spec k0 k) as [->|Hne]; simpl.
    + destruct (String.eqb k k'); reflexivity.
    + rewrite IH. destruct (String.eqb_spec k0 k') as [->|Hne'].
      * destruct (String.eqb_spec k k'); [congruence | reflexivity].
      * reflexivity.
Qed.

Lemma keys_dict_set {V : Type} (k : string) (v : V) (d : list (string * V)) :
  map fst (dict_set k v d) = if decide (k ∈ map fst d) then map fst d else map fst d ++ [k].
Proof.
  induction d as [|[k0 v0] d IH]; simpl.
  - destruct (decide (k ∈ [])) as [H|_]; [now apply elem_of_nil in H | reflexivity].
  - destruct (String.eqb_spec k0 k) as [->|Hne]; simpl.
    + rewrite decide_True by apply list_elem_of_here. reflexivity.
    + rewrite IH. destruct (decide (k ∈ map fst d)) as [Hin|Hout].
      * rewrite decide_True by (now apply list_elem_of_further). reflexivity.
      * rewrite decide_False; [reflexivity|].
        intros H. apply elem_of_cons in H. destruct H as [->|H]; [congruence | auto].
Qed.

Lemma dict_get_None {V : Type} (d : list (string * V)) (k : string) :
  k ∉ map fst d → dict_get d k = None.
Proof.
  induction d as [|[k0 v0] d IH]; simpl; intros H; [reflexivity|].
  destruct (String.eqb_spec k0 k) as [->|Hne].
  - exfalso. apply H. apply list_elem_of_here.
  - apply IH. intros Hin. apply H. now apply list_elem_of_further.
Qed.

(** A dict read as a finite map. *)
Lemma list_to_map_get {V : Type} (d : list (string * V)) (k : string) :
  (list_to_map d : gmap string V) !! k = dict_get d k.
Proof.
  induction d as [|[k0 v0] d IH]; simpl; [apply lookup_empty|].
  destruct (String.eqb_spec k0 k) as [->|Hne].
  - apply lookup_insert_eq.
  - now rewrite lookup_insert_ne.
Qed.

(** The loop that builds [term_dict], from any dict. *)
Definition term_dict_from (d : list (string * list regex)) (patterns : list string)
    : list (string * list regex) :=
  fold_left (fun d term => dict_set (lower term) [keyword_regex term] d) patterns d.

Lemma term_dict_from_keys (patterns : list string) (d : list (string * list regex)) :
  NoDup (map fst d) →
  NoDup (map fst (term_dict_from d patterns)) ∧
  (∀ t, t ∈ map fst (term_dict_from d patterns)
        ↔ t ∈ map fst d ∨ ∃ t', t' ∈ patterns ∧ lower t' = t) ∧
  (∀ t v, dict_get (term_dict_from d patterns) t = Some v →
          dict_get d t = Some v ∨ ∃ t', t' ∈ patterns ∧ lower t' = t ∧ v = [keyword_regex t']).
Proof.
  revert d. induction patterns as [|term patterns IH]; intros d Hd; simpl.
  - split; [exact Hd|]. split; [|auto].
    intros t. split; [auto|]. intros [H|(t' & H & _)]; [exact H | now apply elem_of_nil in H].
  - assert (Hd' : NoDup (map fst (dict_set (lower term) [keyword_regex term] d))).
    { rewrite keys_dict_set. destruct (decide (lower term ∈ map fst d)) as [Hin|Hout];
        [exact Hd|]. apply NoDup_app. split; [exact Hd|]. split; [|apply NoDup_singleton].
      intros x Hx Hx'. apply list_elem_of_singleton in Hx'. now subst. }
    destruct (IH _ Hd') as (Hnd & Hkeys & Hget). split; [exact Hnd|]. split.
    + intros t. rewrite Hkeys, keys_dict_set.
      destruct (decide (lower term ∈ map fst d)) as [Hin|Hout].
      * split.
        -- intros [H|(t' & Ht' & Hl)]; [now left|]. right. exists t'.
           split; [now apply list_elem_of_further | exact Hl].
        -- intros [H|(t' & Ht' & Hl)]; [now left|].
           apply elem_of_cons in Ht'. destruct Ht' as [-> | Ht'].
           ++ left. now rewrite <- Hl.
           ++ right. eauto.
      * rewrite elem_of_app, list_elem_of_singleton. split.
        -- intros [[H | ->] | (t' & Ht' & Hl)].
           ++ now left.
           ++ right. exists term. split; [apply list_elem_of_here | reflexivity].
           ++ right. exists t'. split; [now apply list_elem_of_further | exact Hl].
        -- intros [H|(t' & Ht' & Hl)]; [left; now left|].
           apply elem_of_cons in Ht'. destruct Ht' as [-> | Ht'].
           ++ left. now right.
           ++ right. eauto.
    + intros t v Hv. apply Hget in Hv. destruct Hv as [Hv|(t' & Ht' & Hl & ->)].
      * rewrite dict_get_set in Hv. destruct (String.eqb_spec (lower term) t) as [<-|Hne].
        -- injection Hv as <-. right. exists term.
           split; [apply list_elem_of_here|]. split; reflexivity.
        -- now left.
      * right. exists t'. split; [now apply list_elem_of_further|]. split; [exact Hl | reflexivity].
Qed.

(** What [normalize_keywords] makes of the keywords of a document type. *)
Definition normalized_entry (e : keywords) : keywords :=
  match e with
  | KwList l => KwDict (term_dict l)
  | KwDict d => KwDict d
  | KwOther => KwDict []
  end.

Lemma normalize_keywords_loop_get (items acc : list (string * keywords)) :
  NoDup (map fst items) →
  ∃ normalized log,
    normalize_keywords_loop items acc = (Ok normalized, log) ∧
    ∀ doc, dict_get normalized doc
           = match dict_get items doc with
             | Some e => Some (normalized_entry e)
             | None => dict_get acc doc
             end.
Proof.
  revert acc. induction items as [|[d e] items IH]; intros acc Hnd; simpl.
  - eexists _, _. split; [reflexivity | reflexivity].
  - apply NoDup_cons in Hnd. destruct Hnd as [Hd Hnd]. simpl in Hd.
    destruct (IH (dict_set d (normalized_entry e) acc) Hnd) as (nk & log & Hrun & Hget).
    assert (Hdoc : ∀ doc, dict_get nk doc
                          = match (if String.eqb d doc then Some e else dict_get items doc) with
                            | Some e0 => Some (normalized_entry e0)
                            | None => dict_get acc doc
                            end).
    { intros doc. rewrite Hget, dict_get_set.
      destruct (String.eqb_spec d doc) as [<-|Hne]; [|reflexivity].
      now rewrite (dict_get_None _ _ Hd). }
    destruct e as [l|dd|]; simpl in Hrun.
    + rewrite Hrun. eauto.
    + rewrite Hrun. eauto.
    + unfold mbind, M_bind, bind, logging. simpl. rewrite Hrun. eauto.
Qed.

(** The extra terms of the command line: the pieces between the commas,
    stripped, those that are not empty. *)
Definition extras_of (extra : option string) : list string :=
  match extra with
  | Some v => List.filter truthy (map strip (split "," v))
  | None => []
  end.

(** X19. Keywords given as a list of terms: after [normalize_keywords],
    [get_search_terms] returns the terms in lowercase, each once, followed
    by the extra terms of the command line (stripped, case kept, the empty
    ones left out); and each of the lowercase terms has a pattern of its
    own bound to it, built from a term of the list that it is the
    lowercase form of. *)
Theorem get_search_terms_list_form (all_keywords : list (string * keywords)) (doc : string)
    (l : list string) (extra : option string) :
  NoDup (map fst all_keywords) → dict_get all_keywords doc = Some (KwList l) →
  ∃ normalized log keys,
    normalize_keywords all_keywords = (Ok normalized, log) ∧
    get_search_terms (Args doc extra) normalized = keys ++ extras_of extra ∧
    NoDup keys ∧
    (∀ t, t ∈ keys ↔ ∃ t', t' ∈ l ∧ lower t' = t) ∧
    (∀ t, t ∈ keys →
       ∃ t', t' ∈ l ∧ lower t' = t ∧
             bound_patterns (doc_patterns normalized doc) t = Some [keyword_regex t']).
Proof.
  intros Hnd Hdoc. unfold normalize_keywords.
  destruct (normalize_keywords_loop_get all_keywords [] Hnd) as (nk & log & Hrun & Hget).
  specialize (Hget doc). rewrite Hdoc in Hget. simpl in Hget.
  destruct (term_dict_from_keys l [] (NoDup_nil_2)) as (Hk1 & Hk2 & Hk3).
  fold (term_dict l) in Hk1, Hk2, Hk3.
  exists nk, log, (map fst (term_dict l)). split; [exact Hrun|]. split.
  { unfold get_search_terms. simpl. rewrite Hget. simpl.
    destruct extra as [[|c v]|]; simpl; rewrite ?app_nil_r; reflexivity. }
  split; [exact Hk1|]. split.
  { intros t. rewrite Hk2. split; [|auto].
    intros [H|H]; [now apply elem_of_nil in H | exact H]. }
  intros t Ht. unfold doc_patterns. rewrite Hget. simpl. rewrite list_to_map_get.
  destruct (dict_get (term_dict l) t) as [v|] eqn:Hv.
  - apply Hk3 in Hv. destruct Hv as [Hv|(t' & Ht' & Hl & ->)]; [discriminate|]. eauto.
  - exfalso. apply list_elem_of_fmap in Ht. destruct Ht as ([k v] & -> & Hin). simpl in Hv.
    clear -Hin Hv. induction (term_dict l) as [|[k0 v0] d IH]; [now apply elem_of_nil in Hin|].
    simpl in Hv. destruct (String.eqb_spec k0 k) as [->|Hne]; [discriminate|].
    apply elem_of_cons in Hin. destruct Hin as [[= -> ->]|Hin]; [congruence | auto].
Qed.

Lemma get_search_terms_list_form_witness :
  NoDup (map fst [("facturas", KwList ["NIT"; "Total"; "nit"]); ("recibos", KwOther)]) ∧
  dict_get [("facturas", KwList ["NIT"; "Total"; "nit"]); ("recibos", KwOther)] "facturas"
  = Some (KwList ["NIT"; "Total"; "nit"]) ∧
  ∃ normalized log keys,
    normalize_keywords [("facturas", KwList ["NIT"; "Total"; "nit"]); ("recibos", KwOther)]
    = (Ok normalized, log) ∧
    get_search_terms (Args "facturas" (Some " Fecha ,, iva")) normalized
    = keys ++ extras_of (Some " Fecha ,, iva") ∧
    NoDup keys ∧
    (∀ t, t ∈ keys ↔ ∃ t', t' ∈ ["NIT"; "Total"; "nit"] ∧ lower t' = t) ∧
    (∀ t, t ∈ keys →
       ∃ t', t' ∈ ["NIT"; "Total"; "nit"] ∧ lower t' = t ∧
             bound_patterns (doc_patterns normalized "facturas") t = Some [keyword_regex t']).
Proof.
  assert (H : NoDup (map fst [("facturas", KwList ["NIT"; "Total"; "nit"]); ("recibos", KwOther)])).
  { apply (bool_decide_unpack _). vm_compute. exact I. }
  split; [exact H|]. split; [reflexivity|].
  exact (get_search_terms_list_form _ "facturas" ["NIT"; "Total"; "nit"] _ H eq_refl).
Defined.

(** What the example gives: the terms once each, in the order in which
    they first stand in the list, and then the extra terms. *)
Example get_search_terms_example :
  match normalize_keywords [("facturas", KwList ["NIT"; "Total"; "nit"]); ("recibos", KwOther)] with
  | (Ok normalized, _) =>
      get_search_terms (Args "facturas" (Some " Fecha ,, iva")) normalized
  | (Raise _, _) => []
  end = ["nit"; "total"; "Fecha"; "iva"].
Proof. vm_compute. reflexivity. Qed.

Lemma lstrip_not_space (s : string) : all_chars not_space s = true → lstrip s = s.
Proof.
  destruct s as [|c s]; [reflexivity|]. unfold not_space. simpl.
  destruct (is_space c); [discriminate | reflexivity].
Qed.

Lemma rstrip_not_space (s : string) : all_chars not_space s = true → rstrip s = s.
Proof.
  induction s as [|c s IH]; [reflexivity|]. unfold not_space in *. simpl.
  destruct (is_space c) eqn:Hc; [discriminate|]. simpl. intros H. rewrite (IH H).
  destruct s; reflexivity.
Qed.

Lemma keyword_regex_items (t' text : string) :
  Forall (fun m => m ≠ EmptyString ∧ all_chars not_space m = true)
    (findall IGNORECASE_DOTALL (keyword_regex t') text).
Proof.
  apply findall_items. intros ma pos pv s m H.
  assert (Hhg : has_group (keyword_regex t') = true).
  { unfold keyword_regex. cbn [seq has_group]. now rewrite !orb_true_r. }
  unfold item. rewrite Hhg.
  unfold keyword_regex in H. cbn [seq] in H.
  apply (search_from_group _ _ _ (Plus (CSet false [CCat true CatSpace]))) in H; [|reflexivity].
  destruct H as (pre & x & x' & y & _ & _ & Hy & Hg).
  rewrite Hg. simpl.
  apply lang_plus_set in Hy. destruct Hy as [Hne Hok].
  split; [exact Hne|]. rewrite <- Hok. apply all_chars_ext. intros c.
  unfold not_space, set_mem. simpl. now destruct (is_space c).
Qed.

End KeywordProps.

(** ** [searching]: the heuristic in terms of the text *)

Module SnippetProps.
Import PyStr Re SearchUtils StrProps ReProps HeuristicProps SerialProps.

(** What is left after the first [n] characters. *)
Fixpoint drop (n : nat) (s : string) : string :=
  match n, s with
  | S n', String _ s' => drop n' s'
  | _, _ => s
  end.

Lemma take_drop (n : nat) (s : string) : take n s +:+ drop n s = s.
Proof.
  revert s. induction n as [|n IH]; intros [|c s]; try reflexivity.
  simpl. now rewrite app_cons, IH.
Qed.

(** The first occurrence of the term in the text, case ignored: the
    slice of the text that is the occurrence, and what follows it. *)
Fixpoint find_ci (term text : string) : option (string * string) :=
  if starts_with (lower term) (lower text)
  then Some (take (String.length term) text, drop (String.length term) text)
  else match text with
       | EmptyString => None
       | String _ text' => find_ci term text'
       end.

Lemma find_ci_unfold (term text : string) :
  find_ci term text =
  if starts_with (lower term) (lower text)
  then Some (take (String.length term) text, drop (String.length term) text)
  else match text with
       | EmptyString => None
       | String _ text' => find_ci term text'
       end.
Proof. destruct text; reflexivity. Qed.

Lemma starts_with_slice (term text : string) :
  starts_with (lower term) (lower text) = true →
  lower (take (String.length term) text) = lower term.
Proof.
  revert text. induction term as [|c term IH]; intros text H; [reflexivity|].
  destruct text as [|x text]; [discriminate|]. simpl in *.
  apply andb_prop in H. destruct H as [Hc H]. apply Ascii.eqb_eq in Hc.
  now rewrite (IH _ H), Hc.
Qed.

Lemma slice_starts_with (term mid post : string) :
  lower mid = lower term → starts_with (lower term) (lower (mid +:+ post)) = true.
Proof. intros H. rewrite lower_app, H. apply starts_with_app. Qed.

(** The escaped term at the cursor, case ignored: it consumes the slice. *)
Lemma mre_escape_ci (fl : flags) (term : string) (s : mstate) (k : mstate → option mstate)
    (mid post : string) :
  ignorecase fl = true → rest s = mid +:+ post → lower mid = lower term →
  mre fl (escape term) s k = k (MState (last_chr (prev s) mid) post (grp s)).
Proof.
  intros Hfl. revert s mid. induction term as [|c term IH]; intros s mid Hrest Hmid.
  - destruct mid; [|discriminate]. destruct s. simpl in *. now subst.
  - destruct mid as [|x mid]; [discriminate|]. simpl in Hmid. injection Hmid as Hx Hmid.
    rewrite app_cons in Hrest. simpl. unfold one. rewrite Hrest.
    unfold lit_eq. rewrite Hfl, Hx, Ascii.eqb_refl.
    now rewrite (IH (adv s x (mid +:+ post)) mid eq_refl Hmid).
Qed.

Lemma mre_escape_starts (fl : flags) (term : string) (s : mstate)
    (k : mstate → option mstate) (res : mstate) :
  ignorecase fl = true → mre fl (escape term) s k = Some res →
  starts_with (lower term) (lower (rest s)) = true.
Proof.
  intros Hfl H. apply mre_reaches in H. destruct H as (s' & pre & _ & Hr & Hl).
  rewrite Hr. apply slice_starts_with. now apply (lang_escape fl).
Qed.

(** The state after the longest run, of at most [budget] characters,
    that pass the test. *)
Fixpoint run (ok : ascii → bool) (budget : nat) (s : mstate) : mstate :=
  match budget with
  | 0 => s
  | S b =>
      match rest s with
      | String c tl => if ok c then run ok b (adv s c tl) else s
      | EmptyString => s
      end
  end.

(** A greedy repeat, from zero times on, of a pattern that is one
    character with a test: when what follows accepts the state after the
    longest run, that is the match. *)
Lemma rep_greedy_run (fl : flags) (a : regex) (ok : ascii → bool)
    (k : mstate → option mstate) (res : mstate) :
  (∀ s k', mre fl a s k' = one s ok k') →
  ∀ budget cnt s, k (run ok budget s) = Some res →
                  rep_loop fl a 0 true k budget cnt s = Some res.
Proof.
  intros Hone budget. induction budget as [|b IH]; intros cnt s H; simpl in *.
  - exact H.
  - rewrite Hone. unfold one. destruct (rest s) as [|c tl] eqn:Hrest; [exact H|].
    destruct (ok c); [|exact H].
    assert (Hlt : (String.length (rest (adv s c tl)) <? String.length (String c tl)) = true)
      by (apply Nat.ltb_lt; simpl; lia).
    simpl in Hlt. simpl. rewrite Hlt. now rewrite (IH _ _ H).
Qed.

(** What is left after the leading characters that pass the test. *)
Fixpoint skip (ok : ascii → bool) (s : string) : string :=
  match s with
  | String c s' => if ok c then skip ok s' else s
  | EmptyString => EmptyString
  end.

Lemma run_skip (ok : ascii → bool) (budget : nat) (s : mstate) :
  String.length (rest s) ≤ budget → rest (run ok budget s) = skip ok (rest s).
Proof.
  revert s. induction budget as [|b IH]; intros s H; simpl.
  - destruct (rest s); [reflexivity | simpl in H; lia].
  - destruct (rest s) as [|c tl] eqn:Hrest; [now rewrite Hrest|]. simpl.
    destruct (ok c); [|exact Hrest]. apply IH. simpl in *. lia.
Qed.

Lemma run_all (ok : ascii → bool) (budget : nat) (s : mstate) :
  (∀ c, ok c = true) → rest s = take budget (rest s) +:+ rest (run ok budget s).
Proof.
  intros Hok. revert s. induction budget as [|b IH]; intros s; simpl.
  - now destruct (rest s).
  - destruct (rest s) as [|c tl] eqn:Hrest; [now rewrite Hrest|].
    rewrite Hok, app_cons. f_equal. exact (IH (adv s c tl)).
Qed.

(** The characters the heuristic passes over after the term. *)
Definition is_sep (c : ascii) : bool :=
  is_space c || (code c =? 58) || (code c =? 61) || (code c =? 45).

Lemma sep_chars_one (s : mstate) (k : mstate → option mstate) :
  mre IGNORECASE_DOTALL
    (CSet false [CCat false CatSpace; CChr ":"; CChr "="; CChr "-"]) s k
  = one s is_sep k.
Proof.
  simpl. unfold one. destruct (rest s) as [|c tl]; [reflexivity|].
  replace (set_mem IGNORECASE_DOTALL false
             [CCat false CatSpace; CChr ":"; CChr "="; CChr "-"] c) with (is_sep c);
    [reflexivity|].
  destruct c as [[] [] [] [] [] [] [] []]; vm_compute; reflexivity.
Qed.

(** The snippet: the 100 characters, or fewer, after the separators. *)
Definition snippet_of (rest : string) : string := take 100 (skip is_sep rest).

(** At an occurrence of the slice the second pattern matches, and its
    group is the snippet. *)
Lemma match_after_term (matched mid post : string) (pv : option ascii) :
  lower mid = lower matched →
  ∃ st, match_at IGNORECASE_DOTALL (after_term_regex matched) false pv (mid +:+ post) = Some st ∧
        grp st = Some (snippet_of post).
Proof.
  intros Hmid. unfold match_at, after_term_regex. cbn [seq].
  change (mre IGNORECASE_DOTALL (Seq ?a ?b) ?s ?k)
    with (mre IGNORECASE_DOTALL a s (fun s' => mre IGNORECASE_DOTALL b s' k)).
  rewrite (mre_escape_ci IGNORECASE_DOTALL matched (MState pv (mid +:+ post) None) _ mid post
             eq_refl eq_refl Hmid).
  cbn [prev grp].
  set (s1 := MState (last_chr pv mid) post None).
  set (s2 := run is_sep (rep_budget 0 None s1) s1).
  set (s3 := run (fun _ => true) 100 s2).
  exists (set_grp s3 (take (String.length (rest s2) - String.length (rest s3)) (rest s2))).
  split.
  - change (mre IGNORECASE_DOTALL (Seq ?a ?b) ?s ?k)
      with (mre IGNORECASE_DOTALL a s (fun s' => mre IGNORECASE_DOTALL b s' k)).
    unfold sep_chars, Star. rewrite mre_rep.
    apply (rep_greedy_run _ _ is_sep); [exact sep_chars_one|]. fold s2.
    change (mre IGNORECASE_DOTALL (Grp ?a) ?s ?k)
      with (mre IGNORECASE_DOTALL a s
              (fun s' => k (set_grp s' (take (String.length (rest s)
                                               - String.length (rest s')) (rest s))))).
    unfold Times. rewrite mre_rep.
    apply (rep_greedy_run _ _ (fun _ => true)); [reflexivity|]. reflexivity.
  - cbn [grp set_grp]. f_equal. unfold snippet_of.
    assert (H2 : rest s2 = skip is_sep post).
    { unfold s2. rewrite run_skip; [reflexivity|]. simpl. lia. }
    rewrite <- H2. apply take_split. apply (run_all (fun _ => true)). reflexivity.
Qed.

(** Where the text does not start with the term, the second pattern does
    not match. *)
Lemma no_match_after_term (matched text : string) (pv : option ascii) :
  starts_with (lower matched) (lower text) = false →
  match_at IGNORECASE_DOTALL (after_term_regex matched) false pv text = None.
Proof.
  intros Hno.
  destruct (match_at IGNORECASE_DOTALL (after_term_regex matched) false pv text) as [st|] eqn:H;
    [|reflexivity].
  exfalso. unfold match_at, after_term_regex in H. cbn [seq] in H.
  apply mre_seq in H. destruct H as (s1 & x & Hr & Hx & _). simpl in Hr.
  apply (lang_escape IGNORECASE_DOTALL) in Hx; [|reflexivity].
  rewrite Hr, (slice_starts_with _ _ _ Hx) in Hno. discriminate.
Qed.

(** The second search finds the first occurrence, and its group is the
    snippet after that occurrence. *)
Lemma search_after_term (term matched text : string) (pos : nat) (pv : option ascii) :
  lower matched = lower term →
  match find_ci term text with
  | Some (slice, rest) =>
      ∃ m, search_from IGNORECASE_DOTALL (after_term_regex matched) false pos pv text = Some m ∧
           m_group1 m = Some (snippet_of rest)
  | None => search_from IGNORECASE_DOTALL (after_term_regex matched) false pos pv text = None
  end.
Proof.
  intros Hm. revert pos pv. induction text as [|c text IH]; intros pos pv;
    rewrite find_ci_unfold; rewrite <- Hm;
    destruct (starts_with (lower matched) (lower _)) eqn:Hs.
  - rewrite Hm in Hs. apply starts_with_slice in Hs. rewrite <- Hm in Hs.
    destruct (match_after_term matched _ (drop (String.length term) EmptyString) pv Hs)
      as (st & Hst & Hg).
    rewrite take_drop in Hst. simpl. rewrite Hst. eexists. split; [reflexivity | exact Hg].
  - simpl. now rewrite (no_match_after_term _ _ pv Hs).
  - rewrite Hm in Hs. apply starts_with_slice in Hs. rewrite <- Hm in Hs.
    destruct (match_after_term matched _ (drop (String.length term) (String c text)) pv Hs)
      as (st & Hst & Hg).
    rewrite take_drop in Hst. simpl search_from. rewrite Hst.
    eexists. split; [reflexivity | exact Hg].
  - simpl search_from. rewrite (no_match_after_term _ _ pv Hs). apply IH.
Qed.

(** The first search finds the first occurrence too. *)
Lemma search_term (term text : string) (pos : nat) (pv : option ascii) :
  match find_ci term text with
  | Some (slice, rest) =>
      ∃ m, search_from IGNORECASE (escape term) false pos pv text = Some m ∧
           m_group0 m = slice
  | None => search_from IGNORECASE (escape term) false pos pv text = None
  end.
Proof.
  assert (Hyes : ∀ pv text, starts_with (lower term) (lower text) = true →
    ∃ st, match_at IGNORECASE (escape term) false pv text = Some st ∧
          take (String.length text - String.length (rest st)) text
          = take (String.length term) text).
  { intros pv0 text0 Hs. apply starts_with_slice in Hs.
    unfold match_at.
    rewrite (mre_escape_ci IGNORECASE term (MState pv0 text0 None) _
               (take (String.length term) text0) (drop (String.length term) text0)
               eq_refl (eq_sym (take_drop _ _)) Hs).
    eexists. split; [reflexivity|]. simpl. apply take_split. symmetry. apply take_drop. }
  assert (Hno : ∀ pv text, starts_with (lower term) (lower text) = false →
    match_at IGNORECASE (escape term) false pv text = None).
  { intros pv0 text0 Hs.
    destruct (match_at IGNORECASE (escape term) false pv0 text0) as [st|] eqn:H; [|reflexivity].
    unfold match_at in H. apply (mre_escape_starts IGNORECASE) in H; [|reflexivity].
    simpl in H. congruence. }
  revert pos pv. induction text as [|c text IH]; intros pos pv;
    rewrite find_ci_unfold; destruct (starts_with (lower term) (lower _)) eqn:Hs.
  - destruct (Hyes pv _ Hs) as (st & Hst & Hg). simpl search_from. rewrite Hst.
    eexists. split; [reflexivity | exact Hg].
  - simpl. now rewrite (Hno pv _ Hs).
  - destruct (Hyes pv _ Hs) as (st & Hst & Hg). simpl search_from. rewrite Hst.
    eexists. split; [reflexivity | exact Hg].
  - simpl search_from. rewrite (Hno pv _ Hs). apply IH.
Qed.

(** X22. The heuristic of [searching] in terms of the text alone.  The
    key is the first occurrence of the term, case ignored, as the text
    writes it.  The value is read from the snippet, which is what follows
    that occurrence once the whitespace, colons, equals signs and hyphens
    after it are passed over, cut at 100 characters: the first number in
    the snippet if there is one, else its first alphanumeric word, else
    its first run of letters; [None] when the snippet has none of them. *)
Theorem searching_heuristic (term text : string) (return_all : bool) :
  searching term text None return_all
  = match find_ci term text with
    | None => Pair None None
    | Some (slice, rest) =>
        match first_value [number_regex; alnum_regex; word_regex] (snippet_of rest) with
        | Some m => Pair (Some slice) (Some (m_group0 m))
        | None => Pair (Some slice) None
        end
    end.
Proof.
  unfold searching, bound_patterns, proximity, search.
  pose proof (search_term term text 0 None) as H1.
  destruct (find_ci term text) as [[slice rest]|] eqn:Hf; [|now rewrite H1].
  destruct H1 as (m & Hm & Hslice). rewrite Hm.
  assert (Hl : lower (m_group0 m) = lower term).
  { apply (search_escape_slice term text m). exact Hm. }
  pose proof (search_after_term term (m_group0 m) text 0 None Hl) as H2.
  rewrite Hf in H2. destruct H2 as (a & Ha & Hg).
  rewrite Ha, Hg, Hslice. reflexivity.
Qed.

Lemma take_length_le (n : nat) (s : string) : String.length (take n s) ≤ n.
Proof.
  revert s. induction n as [|n IH]; intros [|c s]; simpl; try lia.
  specialize (IH s). lia.
Qed.

(** A string is its leading run of characters that pass the test, and
    what [skip] leaves, which does not begin with such a character. *)
Lemma skip_split (ok : ascii → bool) (s : string) :
  ∃ sep, s = sep +:+ skip ok s ∧ all_chars ok sep = true ∧
         ∀ c tl, skip ok s = String c tl → ok c = false.
Proof.
  induction s as [|c s (sep & Hs & Hall & Hhd)].
  - exists EmptyString. repeat split. discriminate.
  - simpl. destruct (ok c) eqn:Hc.
    + exists (String c sep). rewrite app_cons, <- Hs. simpl. rewrite Hc. auto.
    + exists EmptyString. repeat split. intros c' tl [= <- _]. exact Hc.
Qed.

(** [find_ci] cuts the text at the first occurrence: no slice of the text
    that is the term up to case begins further left. *)
Lemma find_ci_first (term text slice rest : string) :
  find_ci term text = Some (slice, rest) →
  ∃ pre, text = pre +:+ slice +:+ rest ∧ lower slice = lower term ∧
         ∀ pre' mid' post', text = pre' +:+ mid' +:+ post' → lower mid' = lower term →
                            String.length pre ≤ String.length pre'.
Proof.
  revert slice rest. induction text as [|c text IH]; intros slice rest;
    rewrite find_ci_unfold; destruct (starts_with (lower term) (lower _)) eqn:Hs;
    try discriminate.
  - intros [= <- <-]. exists EmptyString. rewrite take_drop.
    split; [reflexivity|]. split; [now apply starts_with_slice | simpl; lia].
  - intros [= <- <-]. exists EmptyString. rewrite take_drop.
    split; [reflexivity|]. split; [now apply starts_with_slice | simpl; lia].
  - intros H. destruct (IH _ _ H) as (pre & Ht & Hl & Hfirst).
    exists (String c pre). rewrite app_cons, <- Ht.
    split; [reflexivity|]. split; [exact Hl|].
    intros [|c' pre'] mid' post' Ht' Hl'.
    + rewrite Ht' in Hs.
      change (starts_with (lower term) (lower (mid' +:+ post')) = false) in Hs.
      rewrite (slice_starts_with _ _ post' Hl') in Hs. discriminate.
    + rewrite app_cons in Ht'. injection Ht' as _ Ht'.
      specialize (Hfirst pre' mid' post' Ht' Hl'). simpl. lia.
Qed.

(** X2. A value returned by [searching] without custom patterns is not
    empty and stands in the text within the 100 characters that follow the
    term and its separators.  In full: the text reads [pre], [mid], [sep],
    [a], the value, [b], [post], where [mid] is the key, the first
    occurrence of the term with case ignored; [sep] is the whole run of
    whitespace, colons, equals signs and hyphens after it; and [a], the
    value and [b] together are the first 100 characters of what follows
    [sep], or all of it when it is shorter. *)
Theorem searching_value_near_term (term text : string) (return_all : bool)
    (key : option string) (value : string) :
  searching term text None return_all = Pair key (Some value) →
  value ≠ EmptyString ∧
  ∃ pre mid sep a b post,
    text = pre +:+ mid +:+ sep +:+ (a +:+ value +:+ b) +:+ post ∧
    key = Some mid ∧ matches_ci term mid ∧
    (∀ pre' mid' post', text = pre' +:+ mid' +:+ post' → matches_ci term mid' →
                        String.length pre ≤ String.length pre') ∧
    all_chars is_sep sep = true ∧
    (∀ c tl, (a +:+ value +:+ b) +:+ post = String c tl → is_sep c = false) ∧
    a +:+ value +:+ b = take 100 ((a +:+ value +:+ b) +:+ post) ∧
    String.length (a +:+ value +:+ b) ≤ 100.
Proof.
  unfold searching, bound_patterns, proximity, search.
  pose proof (search_term term text 0 None) as H1.
  destruct (find_ci term text) as [[slice rest]|] eqn:Hf; [|now rewrite H1].
  destruct H1 as (m & Hm & Hslice). rewrite Hm.
  assert (Hl : lower (m_group0 m) = lower term).
  { apply (search_escape_slice term text m). exact Hm. }
  pose proof (search_after_term term (m_group0 m) text 0 None Hl) as H2.
  rewrite Hf in H2. destruct H2 as (am & Ha & Hg).
  rewrite Ha, Hg, Hslice.
  change (default EmptyString (Some (snippet_of rest))) with (snippet_of rest).
  destruct (first_value _ (snippet_of rest)) as [v|] eqn:Hv; [|discriminate].
  intros [= <- <-].
  destruct (first_value_slice _ _ Hv) as (Hne & a & b & Hsn).
  destruct (find_ci_first _ _ _ _ Hf) as (pre & Ht & Hmid & Hfirst).
  destruct (skip_split is_sep rest) as (sep & Hrest & Hsep & Hhd).
  split; [exact Hne|].
  exists pre, slice, sep, a, b, (drop 100 (skip is_sep rest)).
  rewrite <- Hsn. unfold snippet_of. rewrite take_drop, <- Hrest.
  repeat split; try assumption.
  - now apply matches_ci_lower.
  - intros pre' mid' post' Ht' Hm'. apply matches_ci_lower in Hm'. eauto.
  - apply take_length_le.
Qed.

Lemma searching_value_near_term_witness :
  searching "Total" "Sub TOTAL = 45.99 EUR" None false = Pair (Some "TOTAL") (Some "45.99") ∧
  "45.99" ≠ EmptyString ∧
  ∃ pre mid sep a b post,
    "Sub TOTAL = 45.99 EUR" = pre +:+ mid +:+ sep +:+ (a +:+ "45.99" +:+ b) +:+ post ∧
    Some "TOTAL" = Some mid ∧ matches_ci "Total" mid ∧
    (∀ pre' mid' post', "Sub TOTAL = 45.99 EUR" = pre' +:+ mid' +:+ post' →
                        matches_ci "Total" mid' →
                        String.length pre ≤ String.length pre') ∧
    all_chars is_sep sep = true ∧
    (∀ c tl, (a +:+ "45.99" +:+ b) +:+ post = String c tl → is_sep c = false) ∧
    a +:+ "45.99" +:+ b = take 100 ((a +:+ "45.99" +:+ b) +:+ post) ∧
    String.length (a +:+ "45.99" +:+ b) ≤ 100.
Proof.
  split; [vm_compute; reflexivity|].
  apply (searching_value_near_term "Total" "Sub TOTAL = 45.99 EUR" false (Some "TOTAL")).
  vm_compute. reflexivity.
Defined.

(** A number further on in the snippet is preferred to a word that
    stands right after the term. *)
Example searching_prefers_number :
  searching "cliente" "Cliente: Juan Perez, NIT 900" None false
  = Pair (Some "Cliente") (Some "900").
Proof. vm_compute. reflexivity. Qed.

End SnippetProps.

(** ** [searching] with the pattern of [normalize_keywords] *)

Module PatternProps.
Import PyStr Re SearchUtils Py GeneralUtils Main StrProps ReProps SearchProps.
Import HeuristicProps SerialProps KeywordProps SnippetProps.

(** A search that finds a match found it by an attempt at some position
    of the text. *)
Lemma search_from_at (fl : flags) (r : regex) (pos : nat) (pv : option ascii) (s : string)
    (m : rmatch) :
  search_from fl r false pos pv s = Some m →
  ∃ pre s' pv' st, s = pre +:+ s' ∧ match_at fl r false pv' s' = Some st ∧
                   m_group1 m = grp st ∧ m_after m = rest st.
Proof.
  revert pos pv. induction s as [|c s IH]; intros pos pv H; simpl in H.
  - destruct (match_at fl r false pv EmptyString) as [st|] eqn:Hm; [|discriminate].
    injection H as <-. exists EmptyString, EmptyString, pv, st. auto.
  - destruct (match_at fl r false pv (String c s)) as [st|] eqn:Hm.
    + injection H as <-. exists EmptyString, (String c s), pv, st. auto.
    + apply IH in H. destruct H as (pre & s' & pv' & st & Hs & Hb).
      exists (String c pre), s', pv', st. rewrite app_cons, <- Hs. auto.
Qed.

(** The first item of [findall] is that of the first match. *)
Lemma findall_head (fl : flags) (r : regex) (text m : string) (ms : list string) :
  findall fl r text = m :: ms →
  ∃ rm, search_from fl r false 0 None text = Some rm ∧ m = item r rm.
Proof.
  unfold findall.
  replace (2 * String.length text + 2) with (S (2 * String.length text + 1)) by lia.
  cbn [findall_from].
  destruct (search_from fl r false 0 None text) as [rm|]; [|discriminate].
  intros [= <- _]. eauto.
Qed.

(** A greedy repeat of a pattern that is one character with a test, when
    what follows accepts every state: the match is the longest run. *)
Section Greedy.
Variables (fl : flags) (a : regex) (ok : ascii → bool) (lo : nat).
Variable k : mstate → option mstate.
Hypothesis Hone : ∀ s k', mre fl a s k' = one s ok k'.
Hypothesis Hk : ∀ s, k s ≠ None.

Lemma rep_loop_total (budget cnt : nat) (s : mstate) :
  lo ≤ cnt → rep_loop fl a lo true k budget cnt s ≠ None.
Proof using Hk.
  intros Hle. apply Nat.leb_le in Hle. destruct budget as [|b]; simpl; rewrite Hle.
  - apply Hk.
  - destruct (mre fl a s _); [discriminate | apply Hk].
Qed.

Lemma rep_greedy_total (budget cnt : nat) (s : mstate) (res : mstate) :
  rep_loop fl a lo true k budget cnt s = Some res → k (run ok budget s) = Some res.
Proof using Hone Hk.
  revert cnt s. induction budget as [|b IH]; intros cnt s H; simpl in H |- *.
  - destruct (lo <=? cnt); [exact H | discriminate].
  - rewrite Hone in H. unfold one in H. destruct (rest s) as [|c tl] eqn:Hrest.
    + destruct (lo <=? cnt); [exact H | discriminate].
    + destruct (ok c).
      * assert (Hlt : (String.length (rest (adv s c tl)) <? String.length (String c tl)) = true)
          by (apply Nat.ltb_lt; simpl; lia).
        simpl in Hlt. simpl in H. rewrite Hlt, orb_true_r in H.
        destruct (rep_loop fl a lo true k b (S cnt) (adv s c tl)) as [x|] eqn:Hin.
        -- injection H as ->. exact (IH _ _ Hin).
        -- destruct (lo <=? cnt) eqn:Hle; [|discriminate]. exfalso.
           apply Nat.leb_le in Hle.
           apply (rep_loop_total b (S cnt) (adv s c tl)); [lia | exact Hin].
      * destruct (lo <=? cnt); [exact H | discriminate].
Qed.

End Greedy.

(** The characters the pattern passes over after the term. *)
Definition kw_sep (c : ascii) : bool := (code c =? 58) || is_space c || (code c =? 45).

Lemma kw_sep_set (c : ascii) :
  set_mem IGNORECASE_DOTALL false [CChr ":"; CCat false CatSpace; CChr "-"] c = kw_sep c.
Proof. destruct c as [[] [] [] [] [] [] [] []]; vm_compute; reflexivity. Qed.

Lemma not_space_one (s : mstate) (k : mstate → option mstate) :
  mre IGNORECASE_DOTALL (CSet false [CCat true CatSpace]) s k = one s not_space k.
Proof.
  simpl. unfold one. destruct (rest s) as [|c tl]; [reflexivity|].
  replace (set_mem IGNORECASE_DOTALL false [CCat true CatSpace] c) with (not_space c);
    [reflexivity|].
  unfold not_space, set_mem. simpl. now destruct (is_space c).
Qed.

(** Zero or more characters of a set: a string of members. *)
Lemma lang_star_set (fl : flags) (neg : bool) (items : list citem) (w : string) :
  lang fl (Star (CSet neg items)) w → all_chars (set_mem fl neg items) w = true.
Proof.
  intros (ws & -> & Hall & _).
  induction Hall as [|w ws (c & -> & Hc) _ IH]; [reflexivity|].
  cbn [sconcat]. rewrite app_cons, app_empty. simpl. now rewrite Hc, IH.
Qed.

(** A match of the pattern at the cursor: the term with case ignored,
    then blanks, colons and hyphens, then the group, which is a run of
    characters that are not whitespace and ends where the text ends or
    whitespace begins. *)
Lemma keyword_match_at (t' s : string) (pv : option ascii) (st : mstate) :
  match_at IGNORECASE_DOTALL (keyword_regex t') false pv s = Some st →
  ∃ mid sep m, s = mid +:+ sep +:+ m +:+ rest st ∧
               matches_ci t' mid ∧ all_chars kw_sep sep = true ∧ grp st = Some m ∧
               ∀ c tl, rest st = String c tl → is_space c = true.
Proof.
  unfold match_at, keyword_regex. cbn [seq]. intros H.
  apply mre_seq in H. destruct H as (s1 & mid & Hr1 & Hmid & H).
  apply mre_seq in H. destruct H as (s2 & sep & Hr2 & Hsep & H).
  change (mre ?f (Grp ?a) ?s ?k)
    with (mre f a s (fun s' => k (set_grp s' (take (String.length (rest s)
                                                   - String.length (rest s')) (rest s))))) in H.
  unfold Plus in H. rewrite mre_rep in H.
  apply (rep_greedy_total _ _ not_space) in H; [|exact not_space_one | discriminate].
  remember (run not_space (rep_budget 1 None s2) s2) as s3 eqn:Hs3.
  cbn beta in H. rewrite andb_false_l in H. injection H as <-.
  cbn [rest grp set_grp].
  assert (Hrun : rest s3 = skip not_space (rest s2)).
  { rewrite Hs3. apply run_skip. simpl. lia. }
  rewrite Hrun.
  destruct (skip_split not_space (rest s2)) as (m & Hm & _ & Hhd).
  exists mid, sep, m. simpl in Hr1. rewrite Hr1, Hr2, <- Hm.
  split; [reflexivity|]. split.
  { apply matches_ci_lower. now apply (lang_escape IGNORECASE_DOTALL). }
  split.
  { apply lang_star_set in Hsep. rewrite <- Hsep. apply all_chars_ext.
    intros c. symmetry. apply kw_sep_set. }
  split; [f_equal; now apply take_split|].
  intros c tl Hc. specialize (Hhd c tl Hc). unfold not_space in Hhd.
  now destruct (is_space c).
Qed.

(** X20. A term that has the pattern of [normalize_keywords] bound to it
    is answered by the pattern when the pattern matches somewhere in the
    text, and the answer is then the term as it was given and the group of
    the first match.  The text reads [pre], [mid], [sep], the value,
    [post]: [mid] is the term of the pattern with case ignored, [sep]
    holds only blanks, colons and hyphens, the value is not empty and
    holds no whitespace, and [post] is empty or begins with whitespace.
    When the pattern matches nowhere the answer is that of the call
    without patterns. *)
Theorem searching_keyword_pattern (term text t' : string) (patterns : patterns_t) :
  bound_patterns patterns (lower term) = Some [keyword_regex t'] →
  match findall IGNORECASE_DOTALL (keyword_regex t') text with
  | [] => searching term text patterns false = searching term text None false
  | value :: _ =>
      searching term text patterns false = Pair (Some term) (Some value) ∧
      value ≠ EmptyString ∧ all_chars not_space value = true ∧
      ∃ pre mid sep post,
        text = pre +:+ mid +:+ sep +:+ value +:+ post ∧
        matches_ci t' mid ∧ all_chars kw_sep sep = true ∧
        ∀ c tl, post = String c tl → is_space c = true
  end.
Proof.
  intros Hb.
  pose proof (keyword_regex_items t' text) as Hall.
  destruct (findall IGNORECASE_DOTALL (keyword_regex t') text) as [|m0 ms] eqn:Hf.
  - unfold searching at 1. rewrite Hb. cbn [first_or_all]. now rewrite Hf.
  - apply Forall_cons in Hall. destruct Hall as [[Hne Hok] _].
    split; [|split; [exact Hne|split; [exact Hok|]]].
    + unfold searching. rewrite Hb. cbn [first_or_all]. rewrite Hf.
      unfold strip. now rewrite (lstrip_not_space _ Hok), (rstrip_not_space _ Hok).
    + apply findall_head in Hf. destruct Hf as (rm & Hs & Hitem).
      apply search_from_at in Hs. destruct Hs as (pre & s' & pv' & st & Ht & Hm & Hg & Ha).
      apply keyword_match_at in Hm. destruct Hm as (mid & sep & m & Hs' & Hmid & Hsep & Hgr & Hpost).
      assert (Hm0 : m0 = m).
      { rewrite Hitem. unfold item.
        replace (has_group (keyword_regex t')) with true
          by (unfold keyword_regex; cbn [seq has_group]; now rewrite !orb_true_r).
        now rewrite Hg, Hgr. }
      exists pre, mid, sep, (rest st). rewrite Ht, Hs', Hm0. auto.
Qed.

Lemma searching_keyword_pattern_witness :
  bound_patterns (Some {[ "total" := [keyword_regex "Total"] ]}) (lower "TOTAL")
  = Some [keyword_regex "Total"] ∧
  findall IGNORECASE_DOTALL (keyword_regex "Total") "Sub total: 45.99 EUR" = ["45.99"] ∧
  match findall IGNORECASE_DOTALL (keyword_regex "Total") "Sub total: 45.99 EUR" with
  | [] => searching "TOTAL" "Sub total: 45.99 EUR"
            (Some {[ "total" := [keyword_regex "Total"] ]}) false
          = searching "TOTAL" "Sub total: 45.99 EUR" None false
  | value :: _ =>
      searching "TOTAL" "Sub total: 45.99 EUR" (Some {[ "total" := [keyword_regex "Total"] ]}) false
      = Pair (Some "TOTAL") (Some value) ∧
      value ≠ EmptyString ∧ all_chars not_space value = true ∧
      ∃ pre mid sep post,
        "Sub total: 45.99 EUR" = pre +:+ mid +:+ sep +:+ value +:+ post ∧
        matches_ci "Total" mid ∧ all_chars kw_sep sep = true ∧
        ∀ c tl, post = String c tl → is_space c = true
  end.
Proof.
  split; [reflexivity|]. split; [vm_compute; reflexivity|].
  exact (searching_keyword_pattern "TOTAL" "Sub total: 45.99 EUR" "Total"
           (Some {[ "total" := [keyword_regex "Total"] ]}) eq_refl).
Defined.

(** The separators of the pattern do not include the equals sign, which
    then is the value; without the pattern the heuristic passes over it. *)
Example searching_keyword_equals :
  searching "TOTAL" "total = 45.99" (Some {[ "total" := [keyword_regex "Total"] ]}) false
  = Pair (Some "TOTAL") (Some "=") ∧
  searching "TOTAL" "total = 45.99" None false = Pair (Some "total") (Some "45.99").
Proof. vm_compute. split; reflexivity. Qed.

End PatternProps.

(** ** The table fallback records no value twice *)

Module TableSearchProps.
Import PyStr Re SearchUtils Py OcrUtils GeneralUtils.

Section Fresh.
Variables (image_name : string) (serial : pyval) (term : string).














End Fresh.


End TableSearchProps.
